(** * aws-api-gateway: the request scheduler and the endpoint reconciler

    A shallow embedding of [src/utils.js].  JavaScript objects are finite
    maps from property names to primitive values, remote calls are run
    against an arbitrary remote handler through a small state-and-error
    monad that records every call and every timer wait, and the request
    queue is a timed transition system. *)

From Stdlib Require Import ZArith String Ascii List Bool Lia DecimalString.
From stdpp Require Import base option list gmap strings.
Import ListNotations.

Local Open Scope Z_scope.
Local Open Scope string_scope.
Local Open Scope list_scope.

(** ** JavaScript values and strings *)

Module Js.

(** Property values.  [PRef] is any nested object or array, known only by
    its identity; it is truthy and [typeof] gives ['object'].  Strings are
    sequences of ASCII characters; numbers are the integers that print
    without an exponent. *)
Inductive prim : Type :=
| PUndefined
| PNull
| PBool (b : bool)
| PNum (n : Z)
| PStr (s : string)
| PRef (addr : nat).

#[global] Instance prim_eq_dec : EqDecision prim.
Proof. solve_decision. Defined.

(** [!!v] of JavaScript: [undefined], [null], [false], [0] and [''] are
    falsy. *)
Definition truthy (v : prim) : bool :=
  match v with
  | PUndefined | PNull => false
  | PBool b => b
  | PNum n => negb (n =? 0)%Z
  | PStr s => negb (String.eqb s EmptyString)
  | PRef _ => true
  end.

(** [a === b] on primitives and object identities. *)
Definition strict_eq (a b : prim) : bool := bool_decide (a = b).

(** An object: its own properties. *)
Abbreviation object := (gmap string prim).

(** [o.k]: a missing property reads as [undefined]. *)
Definition field (o : object) (k : string) : prim := default PUndefined (o !! k).
#[global] Arguments field : simpl never.

(** A value as a function receives it: a primitive or an object with its
    properties.  An object known only by identity has no property the
    model can read. *)
Inductive jsval : Type :=
| JPrim (p : prim)
| JObject (o : object).

#[global] Instance jsval_eq_dec : EqDecision jsval.
Proof. solve_decision. Defined.

(** [`${v}`]: the text of a value inside a template string; a number
    prints its decimal digits, after a minus sign when it is negative. *)
Definition to_text (v : prim) : string :=
  match v with
  | PStr s => s
  | PUndefined => "undefined"
  | PNull => "null"
  | PBool true => "true"
  | PBool false => "false"
  | PNum n => NilZero.string_of_int (Z.to_int n)
  | PRef _ => "[object Object]"
  end.

(** [s.startsWith(p)] *)
Definition startsWith (s p : string) : bool := String.prefix p s.

(** [s.endsWith(p)] *)
Definition endsWith (s p : string) : bool :=
  (String.length p <=? String.length s)%nat
  && String.eqb (String.substring (String.length s - String.length p) (String.length p) s) p.

(** [s.substring(0, n)] for [n] within the string. *)
Definition substring0 (n : nat) (s : string) : string := String.substring 0 n s.

Definition upper_ascii (c : ascii) : ascii :=
  let n := nat_of_ascii c in
  if ((97 <=? n) && (n <=? 122))%nat then ascii_of_nat (n - 32) else c.

(** [s.toUpperCase()] *)
Fixpoint toUpperCase (s : string) : string :=
  match s with
  | EmptyString => EmptyString
  | String c r => String (upper_ascii c) (toUpperCase r)
  end.

(** [s.split(sep)] for a one-character separator: never the empty array. *)
Fixpoint split_aux (sep : ascii) (s : string) (cur : string) : list string :=
  match s with
  | EmptyString => [cur]
  | String c r =>
      if Ascii.eqb c sep then cur :: split_aux sep r EmptyString
      else split_aux sep r (cur +:+ String c EmptyString)
  end.

Definition split (sep : ascii) (s : string) : list string := split_aux sep s EmptyString.

(** [parts.join(sep)] *)
Fixpoint join (sep : string) (parts : list string) : string :=
  match parts with
  | [] => EmptyString
  | [p] => p
  | p :: rest => p +:+ sep +:+ join sep rest
  end.

(** [parts.pop()]: the array without its last element, and that element. *)
Definition pop {A} (l : list A) : list A * option A := (removelast l, last l).

Definition is_Some_b {A} (o : option A) : bool :=
  match o with Some _ => true | None => false end.

(** [parts[i]] *)
Definition index (parts : list string) (i : nat) : prim :=
  match parts !! i with Some s => PStr s | None => PUndefined end.

End Js.
Export Js.

(** ** Errors *)

(** What can be thrown.  Only the errors of the remote SDK carry a [code];
    [Error(e)] builds a fresh error around [e] and has none.
    [ErrorAbout message endpoint] is
    [Error(`${message} "${JSON.stringify(endpoint)}"`)]: the JSON text of
    the endpoint, which depends on the order in which its properties were
    set, is kept as the endpoint itself. *)
Inductive JsError : Type :=
| SdkError (code : string) (message : string)
| ErrorOf (cause : JsError)
| ErrorMsg (message : string)
| ErrorAbout (message : string) (endpoint : jsval)
| TypeError (message : string)
| AbortError (originalError : JsError).

#[global] Instance JsError_eq_dec : EqDecision JsError.
Proof. solve_decision. Defined.

(** [e.message]: the text an error was made with; that text going on with
    the JSON text of an endpoint; or, for [Error(e)], the text [String(e)]
    of the error it was built around.  Messages of different make are
    taken to be different texts. *)
Inductive Message : Type :=
| Text (s : string)
| TextAbout (s : string) (endpoint : jsval)
| TextOf (cause : JsError).

#[global] Instance Message_eq_dec : EqDecision Message.
Proof. solve_decision. Defined.

Fixpoint message (e : JsError) : Message :=
  match e with
  | SdkError _ m => Text m
  | ErrorOf cause => TextOf cause
  | ErrorMsg m => Text m
  | ErrorAbout m endpoint => TextAbout m endpoint
  | TypeError m => Text m
  | AbortError originalError => message originalError
  end.

(** [e.code] *)
Definition code (e : JsError) : prim :=
  match e with
  | SdkError c _ => PStr c
  | _ => PUndefined
  end.

Definition has_code (e : JsError) (c : string) : bool := strict_eq (code e) (PStr c).

(** ** Endpoint validation *)

Module Validator.

Definition validMethods : list string :=
  ["GET"; "POST"; "PUT"; "DELETE"; "PATCH"; "HEAD"; "OPTIONS"; "ANY"].

(** The two conditionals of [validateEndpointObject] that rewrite
    [endpoint.path]. *)
Definition normalizePath (path : string) : string :=
  if negb (String.eqb path "/") then
    let path1 := if negb (startsWith path "/") then "/" +:+ path else path in
    if endsWith path1 "/" then substring0 (String.length path1 - 1) path1 else path1
  else path.

(** The [validatedEndpoint] object of [validateEndpointObject], from the
    rewritten path and the upper-cased method. *)
Definition validatedEndpoint (apiId stage region path method : string) : object :=
  {[ "url" := PStr ("https://" +:+ apiId +:+ ".execute-api." +:+ region
                    +:+ ".amazonaws.com/" +:+ stage +:+ path);
     "path" := PStr path;
     "method" := PStr method ]}.

(** [validateEndpointObject({ endpoint, apiId, stage, region })].  Each
    error but the first is about the endpoint as it was given.  The source
    also writes the rewritten path into the object it was given before it
    spreads it; the derived [path] wins in the spread, so the returned
    object is the same. *)
Definition validateEndpointObject (endpoint : jsval) (apiId stage region : string)
  : JsError + object :=
  match endpoint with
  | JPrim PNull => inl (TypeError "Cannot read property 'method' of null")
  | JPrim (PRef _) => inl (ErrorAbout "missing method property for endpoint" endpoint)
  | JPrim _ => inl (ErrorMsg "endpoint must be an object")
  | JObject o =>
      if negb (truthy (field o "method")) then
        inl (ErrorAbout "missing method property for endpoint" endpoint)
      else if strict_eq (field o "path") (PStr EmptyString) then
        inl (ErrorAbout "endpoint path cannot be an empty string for endpoint" endpoint)
      else if negb (truthy (field o "path")) then
        inl (ErrorAbout "missing path property for endpoint" endpoint)
      else
        match field o "method", field o "path" with
        | PStr method, PStr path =>
            if negb (bool_decide (toUpperCase method ∈ validMethods)) then
              inl (ErrorAbout "invalid method for endpoint" endpoint)
            else
              inr (validatedEndpoint apiId stage region (normalizePath path)
                     (toUpperCase method) ∪ o)
        | _, _ => inl (ErrorAbout "invalid endpoint" endpoint)
        end
  end.

End Validator.
Export Validator.

(** ** The remote API *)

Module Remote.

(** An item of the resource listing.  [resourceMethods] is absent on a
    node without methods; only its keys are read. *)
Record Resource : Type := mkResource {
  res_id : string;
  res_path : string;
  res_parentId : option string;
  res_resourceMethods : option (list string)
}.

#[global] Instance Resource_eq_dec : EqDecision Resource.
Proof. solve_decision. Defined.

Definition opt_prim (o : option string) : prim :=
  match o with Some s => PStr s | None => PUndefined end.

(** A patch operation of [updateMethod]. *)
Record PatchOp : Type := mkPatchOp { op : string; op_path : string; op_value : prim }.

#[global] Instance PatchOp_eq_dec : EqDecision PatchOp.
Proof. solve_decision. Defined.

(** The parameters of [putIntegration]. *)
Record IntegrationParams : Type := mkIntegrationParams {
  ip_httpMethod : prim;
  ip_resourceId : prim;
  ip_restApiId : string;
  ip_type : string;
  ip_integrationHttpMethod : prim;
  ip_requestParameters : list (string * string);
  ip_uri : prim
}.

#[global] Instance IntegrationParams_eq_dec : EqDecision IntegrationParams.
Proof. solve_decision. Defined.

(** The parameters of the permission grant. *)
Record PermissionParams : Type := mkPermissionParams {
  pp_Action : string;
  pp_FunctionName : prim;
  pp_Principal : string;
  pp_SourceArn : string;
  pp_StatementId : string
}.

#[global] Instance PermissionParams_eq_dec : EqDecision PermissionParams.
Proof. solve_decision. Defined.

(** The requests the modelled functions send, with their parameters. *)
Inductive Call : Type :=
| getResources (restApiId : string)
| getMethod (httpMethod resourceId : prim) (restApiId : string)
| createResource (pathPart parentId : prim) (restApiId : string)
| putIntegration (params : IntegrationParams)
| deleteMethod (restApiId : string) (resourceId httpMethod : prim)
| deleteResource (restApiId : string) (resourceId : prim)
| updateMethod (httpMethod resourceId : prim) (restApiId : string)
    (patchOperations : list PatchOp)
| deleteAuthorizer (restApiId : string) (authorizerId : prim)
| addPermission (params : PermissionParams).

#[global] Instance Call_eq_dec : EqDecision Call.
Proof. solve_decision. Defined.

(** What a request resolves to: a listing ([.items]), one resource
    ([.id]) or a body the code does not read. *)
Inductive Response : Type :=
| RespItems (items : list Resource)
| RespResource (r : Resource)
| RespEmpty.

#[global] Instance Response_eq_dec : EqDecision Response.
Proof. solve_decision. Defined.

(** What happened, in order: a request with its settlement, a back-off
    wait of the retry wrapper, a [utils.sleep]. *)
Inductive Event : Type :=
| EvCall (c : Call) (r : JsError + Response)
| EvBackoff (ms : Z)
| EvSleep (ms : Z).

#[global] Instance Event_eq_dec : EqDecision Event.
Proof. solve_decision. Defined.

End Remote.
Export Remote.

(** ** Running asynchronous code *)

(** How a run ends: a value, a thrown error, or no end within the given
    number of recursive calls. *)
Inductive Outcome (A : Type) : Type :=
| Ok (a : A)
| Throw (e : JsError)
| Diverge.
Arguments Ok {A} a.
Arguments Throw {A} e.
Arguments Diverge {A}.

#[global] Instance Outcome_eq_dec {A} `{EqDecision A} : EqDecision (Outcome A).
Proof. solve_decision. Defined.

(** A run from a state [W] of the remote system: how it ends, the state it
    leaves and what happened, in order. *)
Record Run (W A : Type) : Type := mkRun {
  outcome : Outcome A;
  final : W;
  trace : list Event
}.
Arguments mkRun {W A} outcome final trace.
Arguments outcome {W A} r.
Arguments final {W A} r.
Arguments trace {W A} r.

Definition M (W A : Type) : Type := W -> Run W A.

Section Monad.
Context {W : Type}.

Definition ret {A} (a : A) : M W A := fun w => mkRun (Ok a) w [].
Definition throw {A} (e : JsError) : M W A := fun w => mkRun (Throw e) w [].
Definition diverge {A} : M W A := fun w => mkRun Diverge w [].

Definition bind {A B} (m : M W A) (k : A -> M W B) : M W B :=
  fun w =>
    let r := m w in
    match outcome r with
    | Ok a => let r' := k a (final r) in
              mkRun (outcome r') (final r') (trace r ++ trace r')
    | Throw e => mkRun (Throw e) (final r) (trace r)
    | Diverge => mkRun Diverge (final r) (trace r)
    end.

(** [try { m } catch (e) { h e }] *)
Definition try_catch {A} (m : M W A) (h : JsError -> M W A) : M W A :=
  fun w =>
    let r := m w in
    match outcome r with
    | Throw e => let r' := h e (final r) in
                 mkRun (outcome r') (final r') (trace r ++ trace r')
    | _ => r
    end.

(** The settlement of [m], as [await] hands it to a [try] block. *)
Definition settle {A} (m : M W A) : M W (JsError + A) :=
  fun w =>
    let r := m w in
    match outcome r with
    | Ok a => mkRun (Ok (inr a)) (final r) (trace r)
    | Throw e => mkRun (Ok (inl e)) (final r) (trace r)
    | Diverge => mkRun Diverge (final r) (trace r)
    end.

Definition emit (ev : Event) : M W unit := fun w => mkRun (Ok tt) w [ev].

(** The remote system: any state and any deterministic reaction to a
    request.  [perform] is one request, [apig.f(params).promise()]. *)
Definition perform (remote : Call -> W -> (JsError + Response) * W) (c : Call)
  : M W Response :=
  fun w =>
    let '(r, w') := remote c w in
    match r with
    | inr v => mkRun (Ok v) w' [EvCall c r]
    | inl e => mkRun (Throw e) w' [EvCall c r]
    end.

End Monad.

Declare Scope run_scope.
Delimit Scope run_scope with run.
Notation "x <- m ;; k" := (bind m (fun x => k))
  (at level 100, m at next level, right associativity) : run_scope.
Notation "m ;;; k" := (bind m (fun _ => k))
  (at level 100, right associativity) : run_scope.
Local Open Scope run_scope.

(** ** The retry wrapper *)

Module Retry.

Record Options : Type := mkOptions { retries : nat; minTimeout : Z; factor : Z }.

(** [operation.mainError()] of the [retry] package, over the errors the
    operation has recorded, in their order: the loop counts the errors by
    their message and keeps the latest error whose count is not below the
    highest count so far.  [counts] is the object that holds the counts;
    messages are taken not to be names of properties that every object
    inherits, for which the count read is not a number. *)
Fixpoint mainError_from (counts : Message -> nat) (mainError : option JsError)
    (mainErrorCount : nat) (errors : list JsError) : option JsError :=
  match errors with
  | [] => mainError
  | error :: rest =>
      let count := (counts (message error) + 1)%nat in
      let counts := fun m => if bool_decide (m = message error) then count else counts m in
      if (mainErrorCount <=? count)%nat then mainError_from counts (Some error) count rest
      else mainError_from counts mainError mainErrorCount rest
  end.

Definition mainError (errors : list JsError) : option JsError :=
  mainError_from (fun _ => 0%nat) None 0 errors.

Section PRetry.
Context {W A : Type}.

(** The [p-retry] package, on top of the [retry] package.  The operation
    holds one wait per allowed retry, [retries] of them, the wait number
    [k] being [minTimeout * factor ^ k] (no randomizing and no upper bound
    by default), and the errors it has recorded, [errors].  [input] is
    run; when it is rejected with an [AbortError] the promise is rejected
    with the error it wraps, when it is rejected with a [TypeError] the
    promise is rejected with it, and nothing is run again; when it is
    rejected otherwise the error is recorded and, when a wait is left, the
    wait is taken and [input] is run again; when no wait is left the
    promise is rejected with [operation.mainError()], which is one of the
    recorded errors.  [input] so runs [retries + 1] times at most. *)
Fixpoint pRetry_from (input : M W A) (errors : list JsError) (retriesLeft : nat)
    (timeout fct : Z) : M W A :=
  r <- settle input ;;
  match r with
  | inr a => ret a
  | inl (AbortError e) => throw e
  | inl (TypeError m) => throw (TypeError m)
  | inl e =>
      let errors := errors ++ [e] in
      match retriesLeft with
      | O => throw (default e (mainError errors))
      | S k => emit (EvBackoff timeout) ;;; pRetry_from input errors k (timeout * fct) fct
      end
  end.

Definition pRetry (input : M W A) (opts : Options) : M W A :=
  pRetry_from input [] (retries opts) (minTimeout opts) (factor opts).

(** [{ retries: 5, minTimeout: 1000, factor: 2 }] *)
Definition defaultOptions : Options := mkOptions 5 1000 2.

(** The function [retry] hands to [pRetry]: [fn], with every rejection
    other than a rate-limit one turned into an [AbortError]. *)
Definition attempt (fn : M W A) : M W A :=
  try_catch fn (fun error =>
    if negb (has_code error "TooManyRequestsException")
    then throw (AbortError error)
    else throw error).

(** [retry(fn, opts)], [opts] being the defaults with the caller's
    overrides. *)
Definition retry (fn : M W A) (opts : Options) : M W A := pRetry (attempt fn) opts.

End PRetry.

End Retry.
Export Retry.

(** ** Tasks under [Promise.all] *)

(** An asynchronous function whose only suspensions are throttled
    requests: it is settled, or it has pushed one request on the request
    queue and goes on from the settlement of that request. *)
Inductive Task (A : Type) : Type :=
| Resolve (a : A)
| Reject (e : JsError)
| Await (c : Call) (k : JsError + Response -> Task A).
Arguments Resolve {A} a.
Arguments Reject {A} e.
Arguments Await {A} c k.

Definition settled {A} (t : Task A) : bool :=
  match t with Await _ _ => false | _ => true end.

Fixpoint first_rejected {A} (tasks : list (Task A)) : option JsError :=
  match tasks with
  | [] => None
  | Reject e :: _ => Some e
  | _ :: rest => first_rejected rest
  end.

Fixpoint values {A} (tasks : list (Task A)) : list A :=
  match tasks with
  | [] => []
  | Resolve a :: rest => a :: values rest
  | _ :: rest => values rest
  end.

(** ** The functions of [utils.js] *)

Section Program.
Context {W : Type}.
Variable remote : Call -> W -> (JsError + Response) * W.

(** [throttleAwsRequestRequest(awsRequestFn)]: the request, under
    [retry], once the queue hands it its turn.  The queue runs one request
    at a time, in the order of submission; its timing is the subject of
    [Scheduler] below. *)
Definition throttleAwsRequestRequest (c : Call) : M W Response :=
  retry (perform remote c) defaultOptions.

(** A task run on its own: every [await] in turn. *)
Fixpoint runTask {A} (t : Task A) : M W A :=
  match t with
  | Resolve a => ret a
  | Reject e => throw e
  | Await c k => r <- settle (throttleAwsRequestRequest c) ;; runTask (k r)
  end.

(** One turn of the queue for each waiting task, in order: the queue is
    first in, first out, and a task that goes on to a further request
    pushes it behind the requests of the tasks after it. *)
Fixpoint round {A} (tasks : list (Task A)) : M W (list (Task A)) :=
  match tasks with
  | [] => ret []
  | Await c k :: rest =>
      r <- settle (throttleAwsRequestRequest c) ;;
      rest' <- round rest ;;
      ret (k r :: rest')
  | t :: rest =>
      rest' <- round rest ;;
      ret (t :: rest')
  end.

Fixpoint drain {A} (rounds : nat) (rejected : option JsError) (tasks : list (Task A))
  : M W (option JsError * list (Task A)) :=
  let rejected :=
    match rejected with Some e => Some e | None => first_rejected tasks end in
  if forallb settled tasks then ret (rejected, tasks)
  else match rounds with
       | O => diverge
       | S n => tasks' <- round tasks ;; drain n rejected tasks'
       end.

(** [await Promise.all(promises)], the promises being tasks started in
    list order.  Every request of every task is run, also after a
    rejection; the result is the rejection that came first in time, or
    the values.  [rounds] bounds the requests one task awaits in
    sequence. *)
Definition promiseAll {A} (rounds : nat) (promises : list (Task A)) : M W (list A) :=
  r <- drain rounds None promises ;;
  match fst r with
  | Some e => throw e
  | None => ret (values (snd r))
  end.

Definition resp_items (r : Response) : option (list Resource) :=
  match r with RespItems items => Some items | _ => None end.

Definition resp_id (r : Response) : prim :=
  match r with RespResource x => PStr (res_id x) | _ => PUndefined end.

(** [getPathId({ apig, apiId, endpoint })]; [endpoint] may be left out. *)
Definition getPathId (apiId : string) (endpoint : option object) : M W prim :=
  resourcesResponse <- throttleAwsRequestRequest (getResources apiId) ;;
  match resp_items resourcesResponse with
  | None => throw (TypeError "Cannot read property 'find' of undefined")
  | Some existingEndpoints =>
      match endpoint with
      | None =>
          match List.find (fun existingEndpoint => String.eqb (res_path existingEndpoint) "/")
                  existingEndpoints with
          | Some root => ret (PStr (res_id root))
          | None => throw (TypeError "Cannot read property 'id' of undefined")
          end
      | Some endpoint =>
          match List.find (fun existingEndpoint =>
                    strict_eq (PStr (res_path existingEndpoint)) (field endpoint "path"))
                  existingEndpoints with
          | Some endpointFound => ret (PStr (res_id endpointFound))
          | None => ret PNull
          end
      end
  end.

(** [endpointExists({ apig, apiId, endpoint })] *)
Definition endpointExists (apiId : string) (endpoint : object) : M W prim :=
  resourceId <- getPathId apiId (Some endpoint) ;;
  if negb (truthy resourceId) then ret (PBool false)
  else
    try_catch
      (throttleAwsRequestRequest (getMethod (field endpoint "method") resourceId apiId) ;;;
       ret (PBool true))
      (fun e =>
         if has_code e "NotFoundException" then ret (PBool false)
         else ret PUndefined).

(** The recorded state of earlier runs: [state.endpoints] may be absent. *)
Record State : Type := mkState { endpoints : option (list object) }.

(** [myEndpoint(state, endpoint)] *)
Definition myEndpoint (state : State) (endpoint : object) : bool :=
  match endpoints state with
  | Some es =>
      match List.find (fun e =>
                strict_eq (field e "method") (field endpoint "method")
                && strict_eq (field e "path") (field endpoint "path")) es with
      | Some _ => true
      | None => false
      end
  | None => false
  end.

(** [validateEndpoint({ apig, apiId, endpoint, state, stage, region })] *)
Definition validateEndpoint (apiId : string) (endpoint : jsval) (state : State)
    (stage region : string) : M W object :=
  match validateEndpointObject endpoint apiId stage region with
  | inl e => throw e
  | inr validatedEndpoint =>
      found <- endpointExists apiId validatedEndpoint ;;
      if truthy found then
        if negb (myEndpoint state validatedEndpoint) then
          throw (ErrorMsg ("endpoint " +:+ to_text (field validatedEndpoint "method") +:+ " "
                           +:+ to_text (field validatedEndpoint "path")
                           +:+ " already exists in provider"))
        else ret validatedEndpoint
      else ret validatedEndpoint
  end.

(** [createPath({ apig, apiId, endpoint })]; [fuel] bounds the depth of
    the recursion on the parent path. *)
Fixpoint createPath (fuel : nat) (apiId : string) (endpoint : object) : M W prim :=
  match fuel with
  | O => diverge
  | S fuel =>
      pathId <- getPathId apiId (Some endpoint) ;;
      if truthy pathId then ret pathId
      else
        match field endpoint "path" with
        | PStr path =>
            let pathParts := split "/" path in
            let '(pathParts, pathPart) := pop pathParts in
            let parentEndpoint : object := {[ "path" := PStr (join "/" pathParts) ]} in
            parentId <-
              (if strict_eq (field parentEndpoint "path") (PStr EmptyString)
               then getPathId apiId None
               else createPath fuel apiId parentEndpoint) ;;
            createdPath <-
              throttleAwsRequestRequest (createResource (opt_prim pathPart) parentId apiId) ;;
            ret (resp_id createdPath)
        | _ => throw (TypeError "endpoint.path.split is not a function")
        end
  end.

(** [endpoint.function.split(':')], read only when [endpoint.function]
    is truthy. *)
Definition functionParts (endpoint : object) : list string :=
  match field endpoint "function" with
  | PStr f => split ":" f
  | _ => []
  end.

(** The [integrationParams] object of [createIntegration], with the
    greedy path parameter when it is declared. *)
Definition integrationParams (apiId : string) (endpoint : object) : IntegrationParams :=
  let isLambda := truthy (field endpoint "function") in
  let region := if isLambda then index (functionParts endpoint) 3 else PUndefined in
  {| ip_httpMethod := field endpoint "method";
     ip_resourceId := field endpoint "id";
     ip_restApiId := apiId;
     ip_type := if isLambda then "AWS_PROXY" else "HTTP_PROXY";
     ip_integrationHttpMethod := if isLambda then PStr "POST" else field endpoint "method";
     ip_requestParameters :=
       ("integration.request.header.Accept-Encoding", "'identity'")
       :: (if truthy (field endpoint "proxyURI") && truthy (field endpoint "greedyPath") then
             [("integration.request.path." +:+ to_text (field endpoint "greedyPath"),
               "method.request.path." +:+ to_text (field endpoint "greedyPath"))]
           else []);
     ip_uri :=
       if isLambda then
         PStr ("arn:aws:apigateway:" +:+ to_text region
               +:+ ":lambda:path/2015-03-31/functions/"
               +:+ to_text (field endpoint "function") +:+ "/invocations")
       else field endpoint "proxyURI" |}.

(** The [permissionsParams] object of [createIntegration]. *)
Definition permissionsParams (apiId : string) (endpoint : object) : PermissionParams :=
  let functionName := index (functionParts endpoint) 6 in
  let accountId := index (functionParts endpoint) 4 in
  let region := index (functionParts endpoint) 3 in
  {| pp_Action := "lambda:InvokeFunction";
     pp_FunctionName := functionName;
     pp_Principal := "apigateway.amazonaws.com";
     pp_SourceArn := "arn:aws:execute-api:" +:+ to_text region +:+ ":"
                     +:+ to_text accountId +:+ ":" +:+ apiId +:+ "/*/*";
     pp_StatementId := to_text functionName +:+ "-" +:+ apiId |}.

(** [createIntegration({ apig, lambda, apiId, endpoint })]; [fuel] bounds
    the calls the function makes to itself.  The permission grant goes to
    the other client directly, not through the request queue. *)
Fixpoint createIntegration (fuel : nat) (apiId : string) (endpoint : object) : M W object :=
  match fuel with
  | O => diverge
  | S fuel =>
      let isLambda := truthy (field endpoint "function") in
      (if isLambda then
         match field endpoint "function" with
         | PStr _ => ret tt
         | _ => throw (TypeError "endpoint.function.split is not a function")
         end
       else ret tt) ;;;
      r <- settle (throttleAwsRequestRequest (putIntegration (integrationParams apiId endpoint))) ;;
      match r with
      | inl e =>
          if has_code e "ConflictException" then
            emit (EvSleep 2000) ;;; createIntegration fuel apiId endpoint
          else throw (ErrorOf e)
      | inr _ =>
          (if isLambda then
             try_catch
               (perform remote (addPermission (permissionsParams apiId endpoint)) ;;; ret tt)
               (fun e =>
                  if negb (has_code e "ResourceConflictException") then throw (ErrorOf e)
                  else ret tt)
           else ret tt) ;;;
          ret endpoint
      end
  end.

(** [removeMethod({ apig, apiId, endpoint })] *)
Definition removeMethod (apiId : string) (endpoint : object) : Task object :=
  Await (deleteMethod apiId (field endpoint "id") (field endpoint "method"))
    (fun r =>
       match r with
       | inl e => if negb (has_code e "NotFoundException") then Reject (ErrorOf e)
                  else Resolve ∅
       | inr _ => Resolve ∅
       end).

(** [removeMethods({ apig, apiId, endpoints })] *)
Definition removeMethods (apiId : string) (endpoints : list object) : M W (list object) :=
  let promises := map (removeMethod apiId) endpoints in
  promiseAll 1 promises.

(** [removeResource({ apig, apiId, endpoint })] *)
Definition removeResource (apiId : string) (endpoint : object) : Task object :=
  Await (deleteResource apiId (field endpoint "id"))
    (fun r =>
       match r with
       | inl e => if negb (has_code e "NotFoundException") then Reject (ErrorOf e)
                  else Resolve ∅
       | inr _ => Resolve ∅
       end).

(** The test of [removeResources] on one endpoint against the listing:
    the node is listed, has no method and no child. *)
Definition removable (items : list Resource) (endpoint : object) : bool :=
  let resource :=
    List.find (fun resourceItem => strict_eq (PStr (res_id resourceItem)) (field endpoint "id"))
      items in
  let childResources :=
    List.filter (fun resourceItem =>
              strict_eq (opt_prim (res_parentId resourceItem)) (field endpoint "id")) items in
  let resourceMethods :=
    match resource with
    | Some r => default [] (res_resourceMethods r)
    | None => []
    end in
  match resource with
  | Some _ => (length resourceMethods =? 0)%nat && (length childResources =? 0)%nat
  | None => false
  end.

(** [removeResources({ apig, apiId, endpoints })]; [fuel] bounds the
    passes. *)
Fixpoint removeResources (fuel : nat) (apiId : string) (endpoints : list object)
  : M W (list object) :=
  match fuel with
  | O => diverge
  | S fuel =>
      resources <- throttleAwsRequestRequest (getResources apiId) ;;
      match endpoints, resp_items resources with
      | _ :: _, None => throw (TypeError "Cannot read property 'find' of undefined")
      | _, items =>
          let promises :=
            map (removeResource apiId)
              (List.filter (removable (default [] items)) endpoints) in
          if (length promises =? 0)%nat then ret []
          else promiseAll 1 promises ;;; removeResources fuel apiId endpoints
      end
  end.

Definition replaceAuthorizationType (value : string) : PatchOp :=
  mkPatchOp "replace" "/authorizationType" (PStr value).

(** [removeAuthorizer({ apig, apiId, endpoint })] *)
Definition removeAuthorizer (apiId : string) (endpoint : object) : Task object :=
  if truthy (field endpoint "authorizerId") then
    Await (updateMethod (field endpoint "method") (field endpoint "id") apiId
             [replaceAuthorizationType "NONE"])
      (fun r =>
         match r with
         | inl e => Reject e
         | inr _ =>
             Await (deleteAuthorizer apiId (field endpoint "authorizerId"))
               (fun r' =>
                  match r' with
                  | inl e => Reject e
                  | inr _ => Resolve endpoint
                  end)
         end)
  else Resolve endpoint.

(** [removeAuthorizers({ apig, apiId, endpoints })] *)
Definition removeAuthorizers (apiId : string) (endpoints : list object) : M W (list object) :=
  let promises := map (removeAuthorizer apiId) endpoints in
  promiseAll 2 promises ;;;
  ret endpoints.

(** The loop of [removeOutdatedEndpoints] over the recorded endpoints:
    the two lists it fills, in the order of the pushes. *)
Fixpoint outdated (endpoints stateEndpoints : list object) : list object * list object :=
  match stateEndpoints with
  | [] => ([], [])
  | stateEndpoint :: rest =>
      let endpointInUse :=
        List.find (fun endpoint =>
                strict_eq (field endpoint "method") (field stateEndpoint "method")
                && strict_eq (field endpoint "path") (field stateEndpoint "path")) endpoints in
      let authorizerInUse :=
        List.find (fun endpoint =>
                strict_eq (field endpoint "authorizerId") (field stateEndpoint "authorizerId"))
          endpoints in
      let '(outdatedEndpoints, outdatedAuthorizers) := outdated endpoints rest in
      if negb (is_Some_b endpointInUse) then (stateEndpoint :: outdatedEndpoints, outdatedAuthorizers)
      else if negb (is_Some_b authorizerInUse) then
             (outdatedEndpoints, stateEndpoint :: outdatedAuthorizers)
      else (outdatedEndpoints, outdatedAuthorizers)
  end.

(** [removeOutdatedEndpoints({ apig, apiId, endpoints, stateEndpoints })];
    [fuel] is that of [removeResources]. *)
Definition removeOutdatedEndpoints (fuel : nat) (apiId : string)
    (endpoints stateEndpoints : list object) : M W (list object) :=
  let '(outdatedEndpoints, outdatedAuthorizers) := outdated endpoints stateEndpoints in
  removeResources fuel apiId outdatedEndpoints ;;;
  removeMethods apiId outdatedEndpoints ;;;
  removeAuthorizers apiId outdatedAuthorizers ;;;
  ret outdatedEndpoints.

End Program.

(** ** The request queue *)

Module Scheduler.

Definition MAX_CONCURRENCY : nat := 1.
Definition MIN_DELAY : Z := 200.

(** The module-level variables [requestQueue], [concurrency] and
    [timeout], with the clock in milliseconds.  A queued operation is
    known by a number.  [timeout] is the time at which the pending timer
    is due, or [None] while the variable is [undefined] or [null].
    [running] and [started] are not in the source: the operations that
    have been started and have not settled, and every start with its time,
    the latest first. *)
Record Queue : Type := mkQueue {
  now : Z;
  requestQueue : list nat;
  concurrency : nat;
  timeout : option Z;
  running : list nat;
  started : list (nat * Z)
}.

Definition initial : Queue := mkQueue 0 [] 0 None [] [].

(** [processNextQueueElement()] *)
Definition processNextQueueElement (q : Queue) : Queue :=
  match requestQueue q with
  | [] => mkQueue (now q) [] (concurrency q) None (running q) (started q)
  | next :: rest =>
      let q1 :=
        if (concurrency q <? MAX_CONCURRENCY)%nat then
          mkQueue (now q) rest (S (concurrency q)) (timeout q)
            (running q ++ [next]) ((next, now q) :: started q)
        else q in
      mkQueue (now q1) (requestQueue q1) (concurrency q1) (Some (now q1 + MIN_DELAY))
        (running q1) (started q1)
  end.

(** The body of the promise in [throttleAwsRequestRequest]. *)
Definition submit (operation : nat) (q : Queue) : Queue :=
  let q1 := mkQueue (now q) (requestQueue q ++ [operation]) (concurrency q) (timeout q)
              (running q) (started q) in
  match timeout q1 with
  | None => processNextQueueElement q1
  | Some _ => q1
  end.

(** The [then] callback of a started operation: [concurrency--]. *)
Definition settle_op (before after : list nat) (q : Queue) : Queue :=
  mkQueue (now q) (requestQueue q) (concurrency q - 1) (timeout q) (before ++ after) (started q).

(** What can happen next.  Each callback runs to its end before the next
    one; a timer does not fire before it is due. *)
Inductive step : Queue -> Queue -> Prop :=
| step_time q d :
    0 <= d ->
    step q (mkQueue (now q + d) (requestQueue q) (concurrency q) (timeout q)
              (running q) (started q))
| step_submit q operation :
    step q (submit operation q)
| step_timer q due :
    timeout q = Some due ->
    due <= now q ->
    step q (processNextQueueElement q)
| step_settle q operation before after :
    running q = before ++ operation :: after ->
    step q (settle_op before after q).

Inductive reachable : Queue -> Prop :=
| reach_initial : reachable initial
| reach_step q q' : reachable q -> step q q' -> reachable q'.

(** Any two consecutive starts are at least [MIN_DELAY] apart. *)
Fixpoint spaced (starts : list (nat * Z)) : Prop :=
  match starts with
  | (_, t) :: (((_, t') :: _) as rest) => t' + MIN_DELAY <= t /\ spaced rest
  | _ => True
  end.

(** The latest start lies [MIN_DELAY] before the pending timer is due, or
    that long ago when no timer is pending. *)
Definition timer_guards (q : Queue) : Prop :=
  match started q with
  | [] => True
  | (_, t) :: _ =>
      match timeout q with
      | Some due => t + MIN_DELAY <= due
      | None => t + MIN_DELAY <= now q
      end
  end.

(** What every reachable state of the queue satisfies. *)
Record invariant (q : Queue) : Prop := mkInvariant {
  inv_counter : concurrency q = length (running q);
  inv_ceiling : (concurrency q <= MAX_CONCURRENCY)%nat;
  inv_spaced : spaced (started q);
  inv_guarded : timer_guards q
}.

End Scheduler.

(** ** Remote systems to run the functions against *)

(** A remote system that answers from a script, one entry per request,
    whatever the request; after the script, every request succeeds. *)
Definition scripted (c : Call) (script : list (JsError + Response))
  : (JsError + Response) * list (JsError + Response) :=
  match script with
  | r :: rest => (r, rest)
  | [] => (inr RespEmpty, [])
  end.

(** A gateway kept in memory: its resource tree and its authorizers. *)
Module Gateway.

Record Api : Type := mkApi { resources : list Resource; authorizers : list string }.

Definition notFound : JsError := SdkError "NotFoundException" "not found".
Definition conflict : JsError := SdkError "ConflictException" "already exists".

Definition has_id (rid : prim) (r : Resource) : bool := strict_eq (PStr (res_id r)) rid.

Definition has_method (m : prim) (r : Resource) : bool :=
  existsb (fun k => strict_eq (PStr k) m) (default [] (res_resourceMethods r)).

Definition drop_method (rid m : prim) (r : Resource) : Resource :=
  if has_id rid r then
    mkResource (res_id r) (res_path r) (res_parentId r)
      (Some (List.filter (fun k => negb (strict_eq (PStr k) m)) (default [] (res_resourceMethods r))))
  else r.

Definition react (c : Call) (api : Api) : (JsError + Response) * Api :=
  match c with
  | getResources _ => (inr (RespItems (resources api)), api)
  | getMethod m rid _ =>
      if existsb (fun r => has_id rid r && has_method m r) (resources api)
      then (inr RespEmpty, api) else (inl notFound, api)
  | createResource pathPart parentId _ =>
      match List.find (has_id parentId) (resources api) with
      | None => (inl notFound, api)
      | Some parent =>
          let path := (if String.eqb (res_path parent) "/" then EmptyString else res_path parent)
                      +:+ "/" +:+ to_text pathPart in
          if existsb (fun r => String.eqb (res_path r) path) (resources api)
          then (inl conflict, api)
          else let r := mkResource path path (Some (res_id parent)) None in
               (inr (RespResource r), mkApi (resources api ++ [r]) (authorizers api))
      end
  | deleteMethod _ rid m =>
      if existsb (fun r => has_id rid r && has_method m r) (resources api)
      then (inr RespEmpty, mkApi (map (drop_method rid m) (resources api)) (authorizers api))
      else (inl notFound, api)
  | deleteResource _ rid =>
      if existsb (has_id rid) (resources api)
      then (inr RespEmpty,
            mkApi (List.filter (fun r => negb (has_id rid r)) (resources api)) (authorizers api))
      else (inl notFound, api)
  | updateMethod m rid _ _ =>
      if existsb (fun r => has_id rid r && has_method m r) (resources api)
      then (inr RespEmpty, api) else (inl notFound, api)
  | deleteAuthorizer _ aid =>
      if existsb (fun a => strict_eq (PStr a) aid) (authorizers api)
      then (inr RespEmpty,
            mkApi (resources api) (List.filter (fun a => negb (strict_eq (PStr a) aid)) (authorizers api)))
      else (inl notFound, api)
  | putIntegration _ => (inr RespEmpty, api)
  | addPermission _ => (inr RespEmpty, api)
  end.

End Gateway.

(** ** Reading a trace *)

Definition is_call (ev : Event) : bool :=
  match ev with EvCall _ _ => true | _ => false end.

(** The requests of a trace, retries included. *)
Definition calls (t : list Event) : list Call :=
  omap (fun ev => match ev with EvCall c _ => Some c | _ => None end) t.

(** The settlements of the requests of a trace. *)
Definition results (t : list Event) : list (JsError + Response) :=
  omap (fun ev => match ev with EvCall _ r => Some r | _ => None end) t.

Definition backoffs (t : list Event) : list Z :=
  omap (fun ev => match ev with EvBackoff ms => Some ms | _ => None end) t.

Definition sleeps (t : list Event) : list Z :=
  omap (fun ev => match ev with EvSleep ms => Some ms | _ => None end) t.

(** A rate-limit rejection: the one error the retry wrapper retries. *)
Definition rate_limited (e : JsError) : bool := has_code e "TooManyRequestsException".

(** The trace of attempts of the request [c] that were rejected with
    [errors], each followed by its wait, the first wait being
    [timeout]. *)
Fixpoint failed_attempts (c : Call) (timeout fct : Z) (errors : list JsError) : list Event :=
  match errors with
  | [] => []
  | e :: rest =>
      EvCall c (inl e) :: EvBackoff timeout :: failed_attempts c (timeout * fct) fct rest
  end.

(** What the remote system answers to [n] sendings of [c] in a row, and
    the state it is left in. *)
Fixpoint answers {W} (remote : Call -> W -> (JsError + Response) * W) (c : Call) (w : W)
    (n : nat) : list (JsError + Response) * W :=
  match n with
  | O => ([], w)
  | S n => let '(r, w1) := remote c w in
           let '(rs, w2) := answers remote c w1 n in
           (r :: rs, w2)
  end.

Definition settlement (r : JsError + Response) : Outcome Response :=
  match r with inr v => Ok v | inl e => Throw e end.

(** How many of the errors have the message [m]. *)
Definition occurrences (m : Message) (errors : list JsError) : nat :=
  length (List.filter (fun e => bool_decide (message e = m)) errors).

(** [main] is the last of the errors whose message occurs most often among
    them. *)
Definition most_frequent_last (errors : list JsError) (main : JsError) : Prop :=
  exists before after,
    errors = before ++ main :: after
    /\ (forall e, e ∈ errors ->
          (occurrences (message e) errors <= occurrences (message main) errors)%nat)
    /\ (forall e, e ∈ after ->
          (occurrences (message e) errors < occurrences (message main) errors)%nat).

(** What the retry wrapper settles with when the attempts before the last
    were rejected with [errors] and the last one was settled with [last]:
    a value, or an error that is not a rate-limit one, is handed on as it
    is; a rate-limit rejection, which ends the attempts only when no retry
    is left, gives the main error among all the rejections. *)
Definition settled_with (errors : list JsError) (last : JsError + Response)
  : JsError + Response :=
  match last with
  | inr v => inr v
  | inl e => if rate_limited e then inl (default e (mainError (errors ++ [e]))) else inl e
  end.

(** In a listing, the node [rid] is there without a method and no item
    names it as its parent. *)
Definition bare (items : list Resource) (rid : prim) : bool :=
  existsb (fun r => strict_eq (PStr (res_id r)) rid
                    && (length (default [] (res_resourceMethods r)) =? 0)%nat) items
  && forallb (fun r => negb (strict_eq (opt_prim (res_parentId r)) rid)) items.

(** The listing a trace ends with: that of its last answered listing
    request, [listing] if there is none. *)
Fixpoint latest_listing (listing : list Resource) (t : list Event) : list Resource :=
  match t with
  | [] => listing
  | EvCall (getResources _) (inr (RespItems items)) :: t' => latest_listing items t'
  | _ :: t' => latest_listing listing t'
  end.

(** Every deletion of a node in the trace, attempts that failed included,
    is of a node that is bare in the listing received last before it. *)
Fixpoint deletions_justified (listing : list Resource) (t : list Event) : bool :=
  match t with
  | [] => true
  | EvCall (getResources _) (inr (RespItems items)) :: t' => deletions_justified items t'
  | EvCall (deleteResource _ rid) _ :: t' => bare listing rid && deletions_justified listing t'
  | _ :: t' => deletions_justified listing t'
  end.

(** The recorded endpoint is matched by method and path in the desired
    list. *)
Definition endpoint_in_use (desired : list object) (recorded : object) : bool :=
  existsb (fun e => strict_eq (field e "method") (field recorded "method")
                    && strict_eq (field e "path") (field recorded "path")) desired.

(** The authorizer of the recorded endpoint is that of a desired one. *)
Definition authorizer_in_use (desired : list object) (recorded : object) : bool :=
  existsb (fun e => strict_eq (field e "authorizerId") (field recorded "authorizerId")) desired.

(** The value of [endpoint.function] lets [createIntegration] read it:
    a string, or falsy. *)
Definition function_readable (endpoint : object) : bool :=
  match field endpoint "function" with
  | PStr _ => true
  | v => negb (truthy v)
  end.

Definition is_putIntegration (c : Call) : bool :=
  match c with putIntegration _ => true | _ => false end.

(** A run that has no handler for the rejection of a request: a request
    that is rejected, other than for the rate limit, is the last thing
    that happens and its error is how the run ends. *)
Definition stops_at_failure {W A} (r : Run W A) : Prop :=
  forall t c e t',
    trace r = t ++ EvCall c (inl e) :: t' ->
    rate_limited e = false ->
    t' = [] /\ outcome r = Throw e.

(** A task that awaits [n] requests in sequence at most. *)
Inductive within {A} : nat -> Task A -> Prop :=
| within_settled n t : settled t = true -> within n t
| within_await n c k : (forall r, within n (k r)) -> within (S n) (Await c k).

(** Every request of the trace, retries included, is one of [P]. *)
Definition all_calls (P : Call -> Prop) (t : list Event) : Prop :=
  Forall (fun ev => match ev with EvCall c _ => P c | _ => True end) t.

(** Every request the task is waiting for or may go on to is one of [P]. *)
Inductive requests {A} (P : Call -> Prop) : Task A -> Prop :=
| requests_settled t : settled t = true -> requests P t
| requests_await c k : P c -> (forall r, requests P (k r)) -> requests P (Await c k).

(** The requests of the three phases of [removeOutdatedEndpoints]: the
    listing and the deletion of nodes; the deletion of the method of a
    target; the patch of the method of a target that has an authorizer,
    and the deletion of that authorizer. *)
Definition node_request (apiId : string) (c : Call) : Prop :=
  c = getResources apiId \/ exists rid, c = deleteResource apiId rid.

Definition method_request (apiId : string) (targets : list object) (c : Call) : Prop :=
  exists e, e ∈ targets /\ c = deleteMethod apiId (field e "id") (field e "method").

Definition authorizer_request (apiId : string) (targets : list object) (c : Call) : Prop :=
  exists e, e ∈ targets /\ truthy (field e "authorizerId") = true
            /\ (c = updateMethod (field e "method") (field e "id") apiId
                      [replaceAuthorizationType "NONE"]
                \/ c = deleteAuthorizer apiId (field e "authorizerId")).

(** ** Sample data *)

Module Sample.

Definition endpoint (method path : string) : object :=
  {[ "method" := PStr method; "path" := PStr path ]}.

Definition recorded (method path id authorizerId : string) : object :=
  {[ "method" := PStr method; "path" := PStr path; "id" := PStr id;
     "authorizerId" := PStr authorizerId ]}.

Definition rateExceeded : JsError := SdkError "TooManyRequestsException" "Rate exceeded".
Definition tooManyRequests : JsError :=
  SdkError "TooManyRequestsException" "Too Many Requests".
Definition internalFailure : JsError := SdkError "InternalFailure" "internal failure".

Definition root : Resource := mkResource "root" "/" None None.
Definition old : Resource := mkResource "old" "/old" (Some "root") (Some ["GET"]).
Definition items : Resource := mkResource "items" "/items" (Some "root") (Some ["GET"]).

(** A gateway with the root, [/old] and [/items], a method on each of the
    two, and one authorizer. *)
Definition api : Gateway.Api := Gateway.mkApi [root; old; items] ["auth1"].

(** The recorded endpoint [GET /old], with the authorizer of the sample
    gateway. *)
Definition staleWithAuthorizer : object := recorded "GET" "/old" "old" "auth1".

(** A gateway with the branch [/a/b] and no method. *)
Definition branch : Gateway.Api :=
  Gateway.mkApi
    [root; mkResource "a" "/a" (Some "root") None; mkResource "b" "/a/b" (Some "a") None] [].

(** Answers to [createPath] for [/a] when another creator wins: two
    listings without [/a], the rejection of the creation, and the listing
    a further query would get. *)
Definition lostRace : list (JsError + Response) :=
  [inr (RespItems [root]); inr (RespItems [root]); inl Gateway.conflict;
   inr (RespItems [root; mkResource "a" "/a" (Some "root") None])].

(** Answers to [endpointExists] for [/items]: the listing, then a failure
    of the method lookup. *)
Definition brokenLookup : list (JsError + Response) :=
  [inr (RespItems [root; items]); inl internalFailure].

(** The queue after three submissions, the settlement of the first
    operation and the first timer. *)
Definition busyQueue : Scheduler.Queue :=
  Scheduler.mkQueue 200 [2%nat] 1 (Some 400) [1%nat] [(1%nat, 200); (0%nat, 0)].

End Sample.

(** ** Further functions of [utils.js] *)

(** What a task has come to, through settlements of its requests that
    the trace records. *)
Inductive becomes {A} (t : list Event) : Task A -> Task A -> Prop :=
| becomes_now task : becomes t task task
| becomes_await c k r task :
    EvCall c r ∈ t -> becomes t (k r) task -> becomes t (Await c k) task.

Section Batches.
Context {W : Type}.
Variable remote : Call -> W -> (JsError + Response) * W.

(** [validateEndpoint] as [validateEndpoints] starts it, with the bodies
    of [endpointExists] and [getPathId] in place of the calls: the check
    of the declaration runs at once, then the listing and the method
    lookup each wait for their turn in the queue. *)
Definition validateEndpointTask (apiId : string) (endpoint : jsval) (state : State)
    (stage region : string) : Task object :=
  match validateEndpointObject endpoint apiId stage region with
  | inl e => Reject e
  | inr validatedEndpoint =>
      let checked (found : prim) : Task object :=
        if truthy found then
          if negb (myEndpoint state validatedEndpoint) then
            Reject (ErrorMsg ("endpoint " +:+ to_text (field validatedEndpoint "method") +:+ " "
                              +:+ to_text (field validatedEndpoint "path")
                              +:+ " already exists in provider"))
          else Resolve validatedEndpoint
        else Resolve validatedEndpoint in
      Await (getResources apiId)
        (fun r =>
           match r with
           | inl e => Reject e
           | inr resourcesResponse =>
               match resp_items resourcesResponse with
               | None => Reject (TypeError "Cannot read property 'find' of undefined")
               | Some existingEndpoints =>
                   let resourceId :=
                     match List.find (fun existingEndpoint =>
                               strict_eq (PStr (res_path existingEndpoint))
                                 (field validatedEndpoint "path")) existingEndpoints with
                     | Some endpointFound => PStr (res_id endpointFound)
                     | None => PNull
                     end in
                   if negb (truthy resourceId) then checked (PBool false)
                   else
                     Await (getMethod (field validatedEndpoint "method") resourceId apiId)
                       (fun r' =>
                          match r' with
                          | inr _ => checked (PBool true)
                          | inl e =>
                              if has_code e "NotFoundException" then checked (PBool false)
                              else checked PUndefined
                          end)
               end
           end)
  end.

(** [validateEndpoints({ apig, apiId, endpoints, state, stage, region })] *)
Definition validateEndpoints (apiId : string) (endpoints : list jsval) (state : State)
    (stage region : string) : M W (list object) :=
  let promises :=
    map (fun endpoint => validateEndpointTask apiId endpoint state stage region) endpoints in
  promiseAll remote 2 promises.

(** [createPaths({ apig, apiId, endpoints })]: one endpoint after the
    other, each given its [id]; the endpoints are distinct objects.
    [fuel] is that of each [createPath]. *)
Fixpoint createPaths (fuel : nat) (apiId : string) (endpoints : list object)
  : M W (list object) :=
  match endpoints with
  | [] => ret []
  | endpoint :: rest =>
      id <- createPath remote fuel apiId endpoint ;;
      createdEndpoints <- createPaths fuel apiId rest ;;
      ret (<[ "id" := id ]> endpoint :: createdEndpoints)
  end.

End Batches.

(** A method lookup of the trace was answered: the method is there. *)
Definition method_found (t : list Event) : bool :=
  existsb (fun ev => match ev with EvCall (getMethod _ _ _) (inr _) => true | _ => false end) t.

(** The time a trace spends in the waits between retries, in
    milliseconds. *)
Definition waited (t : list Event) : Z := foldr Z.add 0 (backoffs t).

(** The operations in the order the queue takes them: those it has
    started, the oldest first, then those that wait. *)
Definition served (q : Scheduler.Queue) : list nat :=
  rev (map fst (Scheduler.started q)) ++ Scheduler.requestQueue q.

(** ** Requests and functions outside the reconciler *)

(** The requests of [createMethod], [createAuthorizer] and [removeApi]
    that are not among those of [Call].  They go through the same request
    queue and retry wrapper; the trace records the requests of [Call] and
    the waits only, and what these requests do is read from how the run
    ends and the state it leaves. *)
Module Apig.

(** The [params] object of [createMethod]; [authorizerId] and
    [requestParameters] are set only under their conditions. *)
Record MethodParams : Type := mkMethodParams {
  mp_authorizationType : string;
  mp_httpMethod : prim;
  mp_resourceId : prim;
  mp_restApiId : string;
  mp_apiKeyRequired : prim;
  mp_authorizerId : option prim;
  mp_requestParameters : option (list (string * bool))
}.

(** The [createAuthorizerParams] object of [createAuthorizer]. *)
Record AuthorizerParams : Type := mkAuthorizerParams {
  ap_name : prim;
  ap_restApiId : string;
  ap_type : string;
  ap_authorizerUri : string;
  ap_identitySource : string
}.

(** An item of the listing of authorizers: the two properties read. *)
Record Authorizer : Type := mkAuthorizer { auth_id : string; auth_name : string }.

Inductive Call : Type :=
| putMethod (params : MethodParams)
| deleteRestApi (restApiId : string)
| getAuthorizers (restApiId : string)
| createAuthorizer (params : AuthorizerParams).

(** What such a request resolves to: a listing of authorizers
    ([.items]), one authorizer ([.id]) or a body the code does not
    read. *)
Inductive Response : Type :=
| RespAuthorizers (items : list Authorizer)
| RespAuthorizer (a : Authorizer)
| RespBody.

Definition resp_authorizers (r : Response) : option (list Authorizer) :=
  match r with RespAuthorizers items => Some items | _ => None end.

Definition resp_authorizer_id (r : Response) : prim :=
  match r with RespAuthorizer a => PStr (auth_id a) | _ => PUndefined end.

End Apig.

Section Setup.
Context {W : Type}.
Variable remote : Call -> W -> (JsError + Response) * W.
Variable apig : Apig.Call -> W -> (JsError + Apig.Response) * W.

(** One such request, [apig.f(params).promise()]. *)
Definition request (c : Apig.Call) : M W Apig.Response :=
  fun w =>
    let '(r, w') := apig c w in
    match r with
    | inr v => mkRun (Ok v) w' []
    | inl e => mkRun (Throw e) w' []
    end.

(** [throttleAwsRequestRequest(awsRequestFn)] for such a request. *)
Definition throttled (c : Apig.Call) : M W Apig.Response := retry (request c) defaultOptions.

(** [removeApi({ apig, apiId })] *)
Definition removeApi (apiId : string) : M W unit :=
  try_catch (throttled (Apig.deleteRestApi apiId) ;;; ret tt) (fun e => ret tt).




(** [endpoint.authorizer.split(':')], read only when
    [endpoint.authorizer] is truthy. *)
Definition authorizerParts (endpoint : object) : list string :=
  match field endpoint "authorizer" with
  | PStr a => split ":" a
  | _ => []
  end.

Definition authorizerParams (apiId : string) (endpoint : object) : Apig.AuthorizerParams :=
  {| Apig.ap_name := index (authorizerParts endpoint) 6;
     Apig.ap_restApiId := apiId;
     Apig.ap_type := "TOKEN";
     Apig.ap_authorizerUri :=
       "arn:aws:apigateway:" +:+ to_text (index (authorizerParts endpoint) 3)
       +:+ ":lambda:path/2015-03-31/functions/"
       +:+ to_text (field endpoint "authorizer") +:+ "/invocations";
     Apig.ap_identitySource := "method.request.header.Auth" |}.

(** The [permissionsParams] object of [createAuthorizer]. *)
Definition authorizerPermission (apiId : string) (endpoint : object) : PermissionParams :=
  let authorizerName := index (authorizerParts endpoint) 6 in
  let region := index (authorizerParts endpoint) 3 in
  let accountId := index (authorizerParts endpoint) 4 in
  {| pp_Action := "lambda:InvokeFunction";
     pp_FunctionName := authorizerName;
     pp_Principal := "apigateway.amazonaws.com";
     pp_SourceArn := "arn:aws:execute-api:" +:+ to_text region +:+ ":"
                     +:+ to_text accountId +:+ ":" +:+ apiId +:+ "/*/*";
     pp_StatementId := to_text authorizerName +:+ "-" +:+ apiId |}.

(** [createAuthorizer({ apig, lambda, apiId, endpoint })].  The
    permission grant goes to the other client directly, not through the
    request queue. *)
Definition createAuthorizer (apiId : string) (endpoint : object) : M W object :=
  if truthy (field endpoint "authorizer") then
    match field endpoint "authorizer" with
    | PStr _ =>
        let authorizerName := index (authorizerParts endpoint) 6 in
        authorizers <- throttled (Apig.getAuthorizers apiId) ;;
        match Apig.resp_authorizers authorizers with
        | None => throw (TypeError "Cannot read property 'find' of undefined")
        | Some items =>
            authorizerId <-
              match List.find (fun authorizerItem =>
                        strict_eq (PStr (Apig.auth_name authorizerItem)) authorizerName)
                      items with
              | Some authorizer => ret (PStr (Apig.auth_id authorizer))
              | None =>
                  authorizer <-
                    throttled (Apig.createAuthorizer (authorizerParams apiId endpoint)) ;;
                  try_catch
                    (perform remote (addPermission (authorizerPermission apiId endpoint)) ;;;
                     ret tt)
                    (fun e =>
                       if negb (has_code e "ResourceConflictException") then throw (ErrorOf e)
                       else ret tt) ;;;
                  ret (Apig.resp_authorizer_id authorizer)
              end ;;
            ret (<[ "authorizerId" := authorizerId ]> endpoint)
        end
    | _ => throw (TypeError "endpoint.authorizer.split is not a function")
    end
  else ret endpoint.

(** [createAuthorizers({ apig, lambda, apiId, endpoints })]: one endpoint
    after the other; the endpoints are distinct objects. *)
Fixpoint createAuthorizers (apiId : string) (endpoints : list object) : M W (list object) :=
  match endpoints with
  | [] => ret []
  | endpoint :: rest =>
      updated <- createAuthorizer apiId endpoint ;;
      updatedEndpoints <- createAuthorizers apiId rest ;;
      ret (<[ "authorizerId" := field updated "authorizerId" ]> updated :: updatedEndpoints)
  end.

End Setup.

(** Sample data for the functions that set an API up. *)
Module SampleSetup.

(** [GET /items], guarded by the function [auth]. *)
Definition guarded : object :=
  <[ "authorizer" := PStr "arn:aws:lambda:us-east-1:123456789012:function:auth" ]>
    (Sample.endpoint "GET" "/items").

(** A remote system that lists one authorizer, named [auth], and answers
    every other request with an empty body. *)
Definition listed (c : Apig.Call) (api : Gateway.Api)
  : (JsError + Apig.Response) * Gateway.Api :=
  match c with
  | Apig.getAuthorizers _ => (inr (Apig.RespAuthorizers [Apig.mkAuthorizer "a1" "auth"]), api)
  | _ => (inr Apig.RespBody, api)
  end.

End SampleSetup.

(** * Facts *)

Ltac by_evaluation := refine (bool_decide_eq_true_1 _ _); vm_compute; reflexivity.

(** ** Strings *)

Section Strings.
#[local] Arguments String.append : simpl nomatch.

Lemma substring0_app (q p : string) : substring0 (String.length q) (q +:+ p) = q.
Proof.
  unfold substring0. induction q as [|c q IH]; simpl.
  - destruct p; reflexivity.
  - by rewrite IH.
Qed.

Lemma substring_skip (q p : string) :
  String.substring (String.length q) (String.length p) (q +:+ p) = p.
Proof.
  induction q as [|c q IH]; simpl; [|exact IH].
  induction p as [|d p IHp]; simpl; [reflexivity|]. f_equal. exact IHp.
Qed.

Lemma substring_full (s : string) : String.substring 0 (String.length s) s = s.
Proof. induction s as [|c s IH]; simpl; [reflexivity|]. by rewrite IH. Qed.

Lemma substring_split (s : string) (n : nat) :
  (n <= String.length s)%nat ->
  s = String.substring 0 n s +:+ String.substring n (String.length s - n) s.
Proof.
  revert n. induction s as [|c s IH]; intros [|n] Hn; simpl in *; try lia.
  - reflexivity.
  - by rewrite substring_full.
  - rewrite (IH n) at 1 by lia. reflexivity.
Qed.

Lemma string_app_length (q p : string) :
  String.length (q +:+ p) = (String.length q + String.length p)%nat.
Proof. induction q as [|c q IH]; simpl; [reflexivity|]. by rewrite IH. Qed.

Lemma string_app_assoc (a b c : string) : (a +:+ b) +:+ c = a +:+ (b +:+ c).
Proof. induction a as [|x a IH]; simpl; [reflexivity|]. by rewrite IH. Qed.

Lemma endsWith_iff (s p : string) : endsWith s p = true <-> exists q, s = q +:+ p.
Proof.
  unfold endsWith. rewrite andb_true_iff, Nat.leb_le, String.eqb_eq. split.
  - intros [Hle He]. exists (String.substring 0 (String.length s - String.length p) s).
    pose proof (substring_split s (String.length s - String.length p)) as Hs.
    replace (String.length s - (String.length s - String.length p))%nat
      with (String.length p) in Hs by lia.
    rewrite He in Hs. apply Hs. lia.
  - intros [q ->]. rewrite string_app_length. split; [lia|].
    replace (String.length q + String.length p - String.length p)%nat
      with (String.length q) by lia.
    apply substring_skip.
Qed.

Lemma startsWith_slash (s : string) :
  startsWith s "/" = true <-> exists r, s = String "/" r.
Proof.
  unfold startsWith. rewrite String.prefix_correct.
  destruct s as [|c s]; simpl.
  - split; [discriminate|]. intros [r Hr]. discriminate.
  - assert (String.substring 0 0 s = EmptyString) as -> by (destruct s; reflexivity).
    split.
    + intros [= ->]. eauto.
    + intros [r [= -> ->]]. reflexivity.
Qed.

Lemma strip_last (p1 q : string) :
  p1 = q +:+ "/" -> substring0 (String.length p1 - 1) p1 = q.
Proof.
  intros ->. replace (String.length (q +:+ "/") - 1)%nat with (String.length q).
  - apply substring0_app.
  - rewrite string_app_length. simpl. lia.
Qed.

(** The rewritten path starts with a slash. *)
Lemma normalizePath_starts (p : string) :
  p <> EmptyString -> startsWith (normalizePath p) "/" = true.
Proof.
  intros Hp. unfold normalizePath.
  destruct (String.eqb_spec p "/") as [->|Hroot]; cbn [negb]; [reflexivity|].
  remember (if negb (startsWith p "/") then "/" +:+ p else p) as p1 eqn:Hdef.
  assert (exists r, p1 = String "/" r /\ r <> EmptyString) as (r & Hp1 & Hr).
  { subst p1. destruct (startsWith p "/") eqn:Hs; simpl.
    - apply startsWith_slash in Hs as [r ->]. exists r. split; [done|]. congruence.
    - exists p. done. }
  clear Hdef. destruct (endsWith p1 "/") eqn:He; [|apply startsWith_slash; eauto].
  apply endsWith_iff in He as [q Hq]. rewrite (strip_last p1 q Hq).
  apply startsWith_slash.
  rewrite Hp1 in Hq. destruct q as [|c q]; simpl in Hq.
  - injection Hq as Hq. congruence.
  - injection Hq as <- _. eauto.
Qed.

(** A rewritten path that ends with a slash is the root, or comes from a
    path that ends with two. *)
Lemma normalizePath_ends (p : string) :
  endsWith (normalizePath p) "/" = true ->
  normalizePath p = "/" \/ endsWith p "//" = true.
Proof.
  unfold normalizePath.
  destruct (String.eqb_spec p "/") as [->|Hroot]; cbn [negb]; [by left|].
  remember (if negb (startsWith p "/") then "/" +:+ p else p) as p1 eqn:Hdef.
  destruct (endsWith p1 "/") eqn:He; [|congruence].
  apply endsWith_iff in He as [q Hq]. rewrite (strip_last p1 q Hq).
  intros [q' Hq']%endsWith_iff.
  assert (p1 = q' +:+ "//") as Hp1.
  { rewrite Hq, Hq', string_app_assoc. reflexivity. }
  rewrite Hdef in Hp1. clear Hdef Hq. destruct (startsWith p "/") eqn:Hs; simpl in Hp1.
  - right. apply endsWith_iff. eauto.
  - destruct q' as [|c q'']; simpl in Hp1.
    + injection Hp1 as Hp1. congruence.
    + injection Hp1 as _ Hp1. right. apply endsWith_iff. eauto.
Qed.

(** A path in canonical form is left as it is. *)
Lemma normalizePath_fixed (p' : string) :
  startsWith p' "/" = true ->
  (p' = "/" \/ endsWith p' "/" = false) ->
  normalizePath p' = p'.
Proof.
  intros Hs He. unfold normalizePath.
  destruct (String.eqb_spec p' "/") as [->|Hroot]; cbn [negb]; [reflexivity|].
  rewrite Hs. cbn [negb]. destruct He as [-> | ->]; [done|reflexivity].
Qed.

End Strings.

(** ** Validation *)

Section Validation.

Lemma upper_valid (m : string) : m ∈ validMethods -> toUpperCase m = m.
Proof.
  unfold validMethods. rewrite !elem_of_cons, elem_of_nil.
  intros H. repeat (destruct H as [-> | H]; [reflexivity|]). done.
Qed.

Lemma valid_nonempty (m : string) : m ∈ validMethods -> m <> EmptyString.
Proof.
  unfold validMethods. rewrite !elem_of_cons, elem_of_nil.
  intros H. repeat (destruct H as [-> | H]; [discriminate|]). done.
Qed.

Lemma truthy_str (s : string) : s <> EmptyString -> truthy (PStr s) = true.
Proof. intros H. simpl. by destruct (String.eqb_spec s EmptyString). Qed.

(** What a successful validation was given and what it returns. *)
Lemma validate_inv (endpoint : jsval) (apiId stage region : string) (v : object) :
  validateEndpointObject endpoint apiId stage region = inr v ->
  exists o method path,
    endpoint = JObject o /\ field o "method" = PStr method /\ field o "path" = PStr path
    /\ path <> EmptyString /\ toUpperCase method ∈ validMethods
    /\ v = validatedEndpoint apiId stage region (normalizePath path) (toUpperCase method) ∪ o.
Proof.
  unfold validateEndpointObject. destruct endpoint as [[]|o]; try discriminate.
  destruct (truthy (field o "method")); [|discriminate]. cbn [negb].
  destruct (strict_eq (field o "path") (PStr EmptyString)) eqn:He; [discriminate|].
  destruct (truthy (field o "path")); [|discriminate]. cbn [negb].
  destruct (field o "method") as [| | | |method|] eqn:Hfm; try discriminate.
  destruct (field o "path") as [| | | |path|] eqn:Hfp; try discriminate.
  case_bool_decide as Hm; [|discriminate]. cbn [negb].
  intros [= <-]. exists o, method, path. repeat split; try done.
  intros ->. unfold strict_eq in He. by case_bool_decide.
Qed.

Lemma validate_ok (o : object) (apiId stage region method path : string) :
  field o "method" = PStr method -> field o "path" = PStr path ->
  path <> EmptyString -> toUpperCase method ∈ validMethods ->
  validateEndpointObject (JObject o) apiId stage region
  = inr (validatedEndpoint apiId stage region (normalizePath path) (toUpperCase method) ∪ o).
Proof.
  intros Hm Hp Hne Hv. unfold validateEndpointObject. rewrite Hm, Hp.
  assert (method <> EmptyString) as Hmne.
  { intros ->. by apply valid_nonempty in Hv. }
  rewrite !truthy_str by done. cbn [negb].
  unfold strict_eq. case_bool_decide as He; [congruence|].
  case_bool_decide; [|done]. reflexivity.
Qed.

(** The derived properties win over those of the declaration. *)
Lemma validated_path (o : object) (apiId stage region path method : string) :
  field (validatedEndpoint apiId stage region path method ∪ o) "path" = PStr path.
Proof.
  unfold field, validatedEndpoint.
  erewrite lookup_union_Some_l; [reflexivity|].
  rewrite lookup_insert_ne by done. apply lookup_insert_eq.
Qed.

Lemma validated_method (o : object) (apiId stage region path method : string) :
  field (validatedEndpoint apiId stage region path method ∪ o) "method" = PStr method.
Proof.
  unfold field, validatedEndpoint.
  erewrite lookup_union_Some_l; [reflexivity|].
  rewrite !lookup_insert_ne by done. apply lookup_singleton_eq.
Qed.

End Validation.

Example validate_items :
  validateEndpointObject (JObject (Sample.endpoint "get" "items/")) "api" "dev" "us-east-1"
  = inr (validatedEndpoint "api" "dev" "us-east-1" "/items" "GET"
           ∪ Sample.endpoint "get" "items/").
Proof. by_evaluation. Qed.

Example validate_empty_path :
  validateEndpointObject (JObject (Sample.endpoint "get" EmptyString)) "api" "dev" "us-east-1"
  = inl (ErrorAbout "endpoint path cannot be an empty string for endpoint"
           (JObject (Sample.endpoint "get" EmptyString))).
Proof. reflexivity. Qed.

(** C7, as amended.  An endpoint that passes validation is an object with
    a string method and a string path; the method returned is the method
    given in upper case; the path returned starts with a slash, and when it
    ends with a slash it is the root path, or the path given ended with two
    slashes, of which only one is removed. *)
Theorem validate_canonical (endpoint : jsval) (apiId stage region : string) (v : object) :
  validateEndpointObject endpoint apiId stage region = inr v ->
  exists o method path path',
    endpoint = JObject o
    /\ field o "method" = PStr method /\ field o "path" = PStr path
    /\ field v "method" = PStr (toUpperCase method)
    /\ field v "path" = PStr path'
    /\ startsWith path' "/" = true
    /\ (endsWith path' "/" = true -> path' = "/" \/ endsWith path "//" = true).
Proof.
  intros (o & method & path & -> & Hm & Hp & Hne & Hv & ->)%validate_inv.
  exists o, method, path, (normalizePath path).
  rewrite validated_path, validated_method.
  repeat split; try done.
  - by apply normalizePath_starts.
  - apply normalizePath_ends.
Qed.

Lemma validate_canonical_witness :
  exists o method path path',
    JObject (Sample.endpoint "get" "items/") = JObject o
    /\ field o "method" = PStr method /\ field o "path" = PStr path
    /\ field (validatedEndpoint "api" "dev" "us-east-1" "/items" "GET"
                ∪ Sample.endpoint "get" "items/") "method" = PStr (toUpperCase method)
    /\ field (validatedEndpoint "api" "dev" "us-east-1" "/items" "GET"
                ∪ Sample.endpoint "get" "items/") "path" = PStr path'
    /\ startsWith path' "/" = true
    /\ (endsWith path' "/" = true -> path' = "/" \/ endsWith path "//" = true).
Proof.
  apply (validate_canonical (JObject (Sample.endpoint "get" "items/")) "api" "dev" "us-east-1").
  by_evaluation.
Defined.

(** C7, as stated, fails: the path [a//] passes validation and its
    canonical form [/a/] ends with a slash without being the root. *)
Lemma trailing_slash_survives :
  ~ (forall endpoint apiId stage region v path',
       validateEndpointObject endpoint apiId stage region = inr v ->
       field v "path" = PStr path' ->
       startsWith path' "/" = true /\ (endsWith path' "/" = true -> path' = "/")).
Proof.
  intros H.
  destruct (H (JObject (Sample.endpoint "get" "a//")) "api" "dev" "us-east-1"
              (validatedEndpoint "api" "dev" "us-east-1" "/a/" "GET"
                 ∪ Sample.endpoint "get" "a//")
              "/a/") as [_ Hend].
  - by_evaluation.
  - by_evaluation.
  - specialize (Hend eq_refl). discriminate.
Qed.

(** C8, as amended.  For an endpoint that passes validation and whose path
    does not end with two slashes, validating the result again succeeds
    and gives the same canonical path and the same canonical method. *)
Theorem validate_idempotent (o : object) (apiId stage region : string) (v : object) :
  validateEndpointObject (JObject o) apiId stage region = inr v ->
  endsWith (to_text (field o "path")) "//" = false ->
  exists v', validateEndpointObject (JObject v) apiId stage region = inr v'
             /\ field v' "path" = field v "path"
             /\ field v' "method" = field v "method".
Proof.
  intros (o' & method & path & [= <-] & Hm & Hp & Hne & Hv & ->)%validate_inv Hslash.
  rewrite Hp in Hslash. cbn [to_text] in Hslash.
  pose proof (normalizePath_starts path Hne) as Hstart.
  assert (normalizePath path <> EmptyString) as Hne'.
  { intros He. rewrite He in Hstart. discriminate. }
  assert (toUpperCase (toUpperCase method) ∈ validMethods) as Hv'.
  { by rewrite (upper_valid _ Hv). }
  eexists. split.
  - apply (validate_ok _ apiId stage region (toUpperCase method) (normalizePath path));
      [apply validated_method | apply validated_path | done | done].
  - rewrite !validated_path, !validated_method. split.
    + f_equal. apply normalizePath_fixed; [done|].
      destruct (endsWith (normalizePath path) "/") eqn:He; [|by right].
      apply normalizePath_ends in He as [He|He]; [by left | congruence].
    + by rewrite (upper_valid _ Hv).
Qed.

Lemma validate_idempotent_witness :
  exists v',
    validateEndpointObject
      (JObject (validatedEndpoint "api" "dev" "us-east-1" "/items" "GET"
                  ∪ Sample.endpoint "get" "items/")) "api" "dev" "us-east-1" = inr v'
    /\ field v' "path"
       = field (validatedEndpoint "api" "dev" "us-east-1" "/items" "GET"
                  ∪ Sample.endpoint "get" "items/") "path"
    /\ field v' "method"
       = field (validatedEndpoint "api" "dev" "us-east-1" "/items" "GET"
                  ∪ Sample.endpoint "get" "items/") "method".
Proof.
  apply (validate_idempotent (Sample.endpoint "get" "items/") "api" "dev" "us-east-1").
  - by_evaluation.
  - by_evaluation.
Defined.

(** C8, as stated, fails: [{method: "get", path: "a//"}] validates to the
    path [/a/], and that result validates to the path [/a]. *)
Lemma validate_twice_differs :
  let once := validatedEndpoint "api" "dev" "us-east-1" "/a/" "GET"
                ∪ Sample.endpoint "get" "a//" in
  let twice := validatedEndpoint "api" "dev" "us-east-1" "/a" "GET" ∪ once in
  validateEndpointObject (JObject (Sample.endpoint "get" "a//")) "api" "dev" "us-east-1"
    = inr once
  /\ validateEndpointObject (JObject once) "api" "dev" "us-east-1" = inr twice
  /\ field once "path" = PStr "/a/"
  /\ field twice "path" = PStr "/a"
  /\ field twice "path" <> field once "path".
Proof.
  cbv zeta. repeat split; by_evaluation.
Qed.

(** ** Sequencing *)

Section BindFacts.
Context {W : Type}.

Lemma bind_run_ok {A B} (m : M W A) (k : A -> M W B) (w w' : W) (a : A) (t : list Event) :
  m w = mkRun (Ok a) w' t ->
  bind m k w = mkRun (outcome (k a w')) (final (k a w')) (t ++ trace (k a w')).
Proof. intros H. unfold bind. rewrite H. reflexivity. Qed.

Lemma bind_ok {A B} (m : M W A) (k : A -> M W B) (w : W) (a : A) :
  outcome (m w) = Ok a ->
  bind m k w = mkRun (outcome (k a (final (m w)))) (final (k a (final (m w))))
                 (trace (m w) ++ trace (k a (final (m w)))).
Proof. intros H. unfold bind. rewrite H. reflexivity. Qed.

Lemma bind_throw {A B} (m : M W A) (k : A -> M W B) (w : W) (e : JsError) :
  outcome (m w) = Throw e ->
  bind m k w = mkRun (Throw e) (final (m w)) (trace (m w)).
Proof. intros H. unfold bind. rewrite H. reflexivity. Qed.

Lemma settle_ok {A} (m : M W A) (w : W) (a : A) :
  outcome (m w) = Ok a -> settle m w = mkRun (Ok (inr a)) (final (m w)) (trace (m w)).
Proof. intros H. unfold settle. rewrite H. reflexivity. Qed.

Lemma settle_throw {A} (m : M W A) (w : W) (e : JsError) :
  outcome (m w) = Throw e -> settle m w = mkRun (Ok (inl e)) (final (m w)) (trace (m w)).
Proof. intros H. unfold settle. rewrite H. reflexivity. Qed.

Lemma settle_never_throws {A} (m : M W A) (w : W) :
  outcome (m w) <> Diverge ->
  exists r, outcome (settle m w) = Ok r
            /\ trace (settle m w) = trace (m w) /\ final (settle m w) = final (m w).
Proof.
  intros H. unfold settle. destruct (outcome (m w)); [eexists; done | eexists; done | done].
Qed.

End BindFacts.

(** ** The main error of a retry operation *)

Section MainError.

Lemma occurrences_snoc (m : Message) (errors : list JsError) (e : JsError) :
  occurrences m (errors ++ [e])
  = (occurrences m errors + if bool_decide (message e = m) then 1 else 0)%nat.
Proof.
  unfold occurrences. rewrite List.filter_app, length_app. cbn [List.filter].
  by destruct (bool_decide (message e = m)).
Qed.

(** The loop of [mainError], from the errors it has gone through. *)
Lemma mainError_from_spec (rest : list JsError) :
  forall (seen : list JsError) (counts : Message -> nat) (main : option JsError) (mc : nat),
    (forall m, counts m = occurrences m seen) ->
    (forall x, x ∈ seen -> (occurrences (message x) seen <= mc)%nat) ->
    match main with
    | None => seen = [] /\ mc = 0%nat
    | Some e =>
        exists s1 s2, seen = s1 ++ e :: s2 /\ occurrences (message e) seen = mc
                      /\ forall x, x ∈ s2 -> (occurrences (message x) seen < mc)%nat
    end ->
    match mainError_from counts main mc rest with
    | None => seen ++ rest = []
    | Some e => most_frequent_last (seen ++ rest) e
    end.
Proof.
  induction rest as [|error rest IH]; intros seen counts main mc Hcounts Hmax Hmain.
  - cbn [mainError_from]. rewrite app_nil_r. destruct main as [e|]; [|by destruct Hmain].
    destruct Hmain as (s1 & s2 & Hseen & Hocc & Hafter). exists s1, s2.
    split; [done|]. rewrite Hocc. split; [done|]. done.
  - cbn [mainError_from]. rewrite (Hcounts (message error)).
    set (count := (occurrences (message error) seen + 1)%nat).
    assert (occurrences (message error) (seen ++ [error]) = count) as Hcount.
    { rewrite occurrences_snoc. by rewrite bool_decide_eq_true_2. }
    assert (forall m,
              (if bool_decide (m = message error) then count else counts m)
              = occurrences m (seen ++ [error])) as Hcounts'.
    { intros m. rewrite occurrences_snoc. case_bool_decide as Hm.
      - subst m. rewrite bool_decide_eq_true_2 by done. done.
      - rewrite bool_decide_eq_false_2 by congruence. rewrite Hcounts. lia. }
    replace (seen ++ error :: rest) with ((seen ++ [error]) ++ rest)
      by (by rewrite <- app_assoc).
    destruct (mc <=? count)%nat eqn:Hle.
    + apply Nat.leb_le in Hle. apply IH; [exact Hcounts' | |].
      * intros x [Hx | ->%list_elem_of_singleton]%elem_of_app; [|lia].
        rewrite occurrences_snoc. specialize (Hmax x Hx). subst count.
        case_bool_decide as Hm; [rewrite <- Hm|]; lia.
      * exists seen, []. split; [done|]. split; [done|]. by intros x ?%elem_of_nil.
    + apply Nat.leb_gt in Hle. apply IH; [exact Hcounts' | |].
      * intros x [Hx | ->%list_elem_of_singleton]%elem_of_app; [|lia].
        rewrite occurrences_snoc. specialize (Hmax x Hx). subst count.
        case_bool_decide as Hm; [rewrite <- Hm|]; lia.
      * destruct main as [e|]; [|destruct Hmain as [_ ->]; lia].
        destruct Hmain as (s1 & s2 & Hseen & Hocc & Hafter).
        exists s1, (s2 ++ [error]). split; [by rewrite Hseen, <- app_assoc|].
        assert (message error <> message e) as Hne.
        { intros He. subst count. rewrite He in Hle. lia. }
        split.
        -- rewrite occurrences_snoc. rewrite bool_decide_eq_false_2 by done. lia.
        -- intros x [Hx | ->%list_elem_of_singleton]%elem_of_app; [|lia].
           rewrite occurrences_snoc. specialize (Hafter x Hx). subst count.
           case_bool_decide as Hm; [rewrite <- Hm|]; lia.
Qed.

(** [mainError] gives the last of the recorded errors whose message occurs
    most often among them. *)
Lemma mainError_spec (errors : list JsError) :
  match mainError errors with
  | None => errors = []
  | Some main => most_frequent_last errors main
  end.
Proof.
  apply (mainError_from_spec errors [] (fun _ => 0%nat) None 0%nat); [done | | done].
  by intros x ?%elem_of_nil.
Qed.

(** When all the errors carry one message, the main error is the last. *)
Lemma most_frequent_last_same (errors : list JsError) (e main : JsError) :
  Forall (fun x => message x = message e) errors ->
  most_frequent_last (errors ++ [e]) main -> main = e.
Proof.
  intros Hsame (before & after & Heq & _ & Hafter).
  destruct (decide (after = [])) as [-> | Hne].
  - by apply app_inj_tail in Heq as [_ ->].
  - destruct (exists_last Hne) as (after' & x & ->).
    rewrite app_comm_cons, app_assoc in Heq. apply app_inj_tail in Heq as [Herrors <-].
    assert (message main = message e) as Hmain.
    { apply (proj1 (Forall_forall _ _) Hsame). rewrite Herrors.
      apply elem_of_app. right. by left. }
    specialize (Hafter e ltac:(apply elem_of_app; right; by left)).
    rewrite Hmain in Hafter. lia.
Qed.

Lemma mainError_recorded (errors : list JsError) :
  errors <> [] -> exists main, mainError errors = Some main /\ main ∈ errors.
Proof.
  intros Hne. pose proof (mainError_spec errors) as H.
  destruct (mainError errors) as [main|]; [|done].
  exists main. split; [done|]. destruct H as (before & after & -> & _).
  apply elem_of_app. right. by left.
Qed.

End MainError.

(** ** The retry wrapper *)

Section RetryFacts.
Context {W : Type} (remote : Call -> W -> (JsError + Response) * W).

(** One attempt at a request. *)
Lemma attempt_run (c : Call) (w : W) :
  settle (attempt (perform remote c)) w
  = mkRun (Ok (match fst (remote c w) with
               | inr v => inr v
               | inl e => inl (if rate_limited e then e else AbortError e)
               end))
      (snd (remote c w)) [EvCall c (fst (remote c w))].
Proof.
  unfold settle, attempt, try_catch, perform, rate_limited.
  destruct (remote c w) as [[e|v] w']; simpl; [|reflexivity].
  destruct (has_code e _); simpl; reflexivity.
Qed.

(** The attempts one after the other, by the answer to each. *)
Lemma pRetry_from_step (c : Call) (recorded : list JsError) (k : nat) (t : Z) (w : W) :
  pRetry_from (attempt (perform remote c)) recorded k t 2 w
  = match remote c w with
    | (inr v, w') => mkRun (Ok v) w' [EvCall c (inr v)]
    | (inl e, w') =>
        if rate_limited e then
          match k with
          | O => mkRun (Throw (default e (mainError (recorded ++ [e])))) w' [EvCall c (inl e)]
          | S k' =>
              let r' := pRetry_from (attempt (perform remote c)) (recorded ++ [e]) k' (t * 2) 2
                          w' in
              mkRun (outcome r') (final r') (EvCall c (inl e) :: EvBackoff t :: trace r')
          end
        else mkRun (Throw e) w' [EvCall c (inl e)]
    end.
Proof.
  destruct k as [|k']; cbn [pRetry_from]; unfold bind at 1; rewrite attempt_run;
    cbn [outcome final trace];
    destruct (remote c w) as [[e|v] w']; cbn [fst snd]; try reflexivity;
    destruct (rate_limited e) eqn:Hl; try reflexivity.
  - destruct e; try discriminate. reflexivity.
  - destruct e; try discriminate. unfold bind, emit. cbn [outcome final trace].
    destruct (outcome (pRetry_from _ _ _ _ _ _)); reflexivity.
Qed.

(** The attempts at a request under the retry wrapper: the rejected ones,
    then the last one, and what the wrapper settles with. *)
Lemma pRetry_from_spec (c : Call) (k : nat) :
  forall (recorded : list JsError) (t : Z) (w : W),
  exists errors last,
    trace (pRetry_from (attempt (perform remote c)) recorded k t 2 w)
      = failed_attempts c t 2 errors ++ [EvCall c last]
    /\ (length errors <= k)%nat
    /\ Forall (fun e => rate_limited e = true) errors
    /\ outcome (pRetry_from (attempt (perform remote c)) recorded k t 2 w)
       = settlement (settled_with (recorded ++ errors) last)
    /\ (match last with inl e => rate_limited e = true -> length errors = k | inr _ => True end)
    /\ answers remote c w (S (length errors))
       = (map inl errors ++ [last],
          final (pRetry_from (attempt (perform remote c)) recorded k t 2 w)).
Proof.
  induction k as [|k IH]; intros recorded t w; rewrite pRetry_from_step; cbn [answers];
    destruct (remote c w) as [[e|v] w'] eqn:Hr;
    try (by exists [], (inr v); cbn; repeat split; auto; lia);
    destruct (rate_limited e) eqn:Hl;
    try (by exists [], (inl e); unfold settled_with; rewrite ?Hl, ?app_nil_r; cbn;
            repeat split; auto; try lia; congruence).
  destruct (IH (recorded ++ [e]) (t * 2) w')
    as (errors & last & Ht & Hlen & Hall & Hout & Hlast & Hans).
  exists (e :: errors), last. cbn [outcome final trace length map].
  cbn [answers] in Hans. cbn [answers].
  destruct (remote c w') as [r1 w1]. destruct (answers remote c w1 (length errors)) as [rs w2].
  rewrite Ht. injection Hans as -> ->. repeat split; auto.
  - cbn. lia.
  - rewrite Hout. by rewrite <- app_assoc.
  - destruct last; [|done]. intros H. f_equal. auto.
Qed.

Lemma throttle_unfold (c : Call) :
  throttleAwsRequestRequest remote c = pRetry_from (attempt (perform remote c)) [] 5 1000 2.
Proof. reflexivity. Qed.

(** What the wrapper settles with is an answer to one of its attempts. *)
Lemma settled_with_attempt (errors : list JsError) (last : JsError + Response) :
  settled_with errors last ∈ map inl errors ++ [last].
Proof.
  unfold settled_with. destruct last as [e|v]; [|apply elem_of_app; right; by left].
  destruct (rate_limited e); [|apply elem_of_app; right; by left].
  destruct (mainError_recorded (errors ++ [e]) ltac:(by destruct errors))
    as (main & -> & Hin).
  cbn [default]. apply elem_of_app in Hin as [Hin | Hin%list_elem_of_singleton].
  - apply elem_of_app. left. by apply list_elem_of_fmap_2.
  - subst. apply elem_of_app. right. by left.
Qed.

Lemma settled_with_value (errors : list JsError) (last : JsError + Response) (v : Response) :
  settled_with errors last = inr v <-> last = inr v.
Proof.
  unfold settled_with. destruct last as [e|v']; [|done]. by destruct (rate_limited e).
Qed.

Lemma settled_with_other (errors : list JsError) (e : JsError) :
  rate_limited e = false -> settled_with errors (inl e) = inl e.
Proof. unfold settled_with. by intros ->. Qed.

Lemma calls_failed_attempts (c : Call) (errors : list JsError) (t : Z) :
  calls (failed_attempts c t 2 errors) = replicate (length errors) c.
Proof.
  revert t. induction errors as [|e errors IH]; intros t; [reflexivity|].
  cbn. f_equal. apply IH.
Qed.

Lemma calls_app (t1 t2 : list Event) : calls (t1 ++ t2) = calls t1 ++ calls t2.
Proof. unfold calls. apply omap_app. Qed.

End RetryFacts.

(** C4, as amended.  A submitted request is sent six times at most: once,
    and once more after each of up to five rate-limit rejections.  The
    waits between the attempts are 1000 ms, 2000 ms, 4000 ms and so on.
    The trace is these rejected attempts, each with its wait, and a last
    attempt; the answers are those of the remote system to as many
    sendings.  When the last attempt succeeds its value is the result;
    when it is rejected with an error that is not a rate-limit one, that
    very error is the result; it is rejected with a rate-limit error only
    after five retries, and the result is then the main error of the six
    rejections: the last of them whose message occurs most often among
    the six, which is the last rejection when all six carry the same
    message. *)
Theorem retry_policy {W : Type} (remote : Call -> W -> (JsError + Response) * W)
    (c : Call) (w : W) :
  exists errors last,
    trace (throttleAwsRequestRequest remote c w)
      = failed_attempts c 1000 2 errors ++ [EvCall c last]
    /\ (length errors <= 5)%nat
    /\ Forall (fun e => rate_limited e = true) errors
    /\ (match last with
        | inr v => outcome (throttleAwsRequestRequest remote c w) = Ok v
        | inl e =>
            if rate_limited e then
              length errors = 5%nat
              /\ exists main,
                   outcome (throttleAwsRequestRequest remote c w) = Throw main
                   /\ most_frequent_last (errors ++ [e]) main
                   /\ (Forall (fun x => message x = message e) errors -> main = e)
            else outcome (throttleAwsRequestRequest remote c w) = Throw e
        end)
    /\ answers remote c w (S (length errors))
       = (map inl errors ++ [last], final (throttleAwsRequestRequest remote c w))
    /\ (length (calls (trace (throttleAwsRequestRequest remote c w))) <= 6)%nat.
Proof.
  rewrite throttle_unfold.
  destruct (pRetry_from_spec remote c 5 [] 1000 w)
    as (errors & last & Ht & Hlen & Hall & Hout & Hlast & Hans).
  exists errors, last. rewrite Hout. unfold settled_with. cbn [app].
  repeat split; try done.
  - destruct last as [e|v]; [|done]. destruct (rate_limited e); [|done].
    split; [by apply Hlast|].
    pose proof (mainError_spec (errors ++ [e])) as Hmain.
    destruct (mainError (errors ++ [e])) as [main|]; [|by destruct errors].
    exists main. split; [done|]. split; [done|].
    intros Hsame. by apply (most_frequent_last_same errors).
  - rewrite Ht, calls_app, calls_failed_attempts, length_app, length_replicate. cbn. lia.
Qed.

(** C4, as stated, fails twice.  A request rejected five times for the
    rate limit is sent a sixth time, and the success of the sixth attempt
    is the result.  And when the sixth attempt is rejected for the rate
    limit too, with another message than the five before it, the result
    is not that last error: it is the fifth, the last one with the message
    that occurred most often. *)
Lemma sixth_attempt :
  (let script := replicate 5 (inl Sample.rateExceeded) ++ [inr RespEmpty] in
   let r := throttleAwsRequestRequest scripted (getResources "api") script in
   outcome r = Ok RespEmpty
   /\ length (calls (trace r)) = 6%nat
   /\ ~ (length (calls (trace r)) <= 5)%nat
   /\ backoffs (trace r) = [1000; 2000; 4000; 8000; 16000])
  /\ (let script := replicate 5 (inl Sample.rateExceeded) ++ [inl Sample.tooManyRequests] in
      let r := throttleAwsRequestRequest scripted (getResources "api") script in
      last (results (trace r)) = Some (inl Sample.tooManyRequests)
      /\ rate_limited Sample.tooManyRequests = true
      /\ outcome r = Throw Sample.rateExceeded
      /\ outcome r <> Throw Sample.tooManyRequests).
Proof. cbv zeta. repeat split; by_evaluation. Qed.

Example four_failures_then_success :
  let script := replicate 4 (inl Sample.rateExceeded) ++ [inr (RespItems [Sample.root])] in
  let r := throttleAwsRequestRequest scripted (getResources "api") script in
  outcome r = Ok (RespItems [Sample.root])
  /\ backoffs (trace r) = [1000; 2000; 4000; 8000].
Proof. cbv zeta. repeat split; by_evaluation. Qed.

Example other_failure_never_retried :
  let r := throttleAwsRequestRequest scripted (getResources "api")
             [inl Sample.internalFailure; inr RespEmpty] in
  outcome r = Throw Sample.internalFailure
  /\ calls (trace r) = [getResources "api"]
  /\ final r = [inr RespEmpty].
Proof. cbv zeta. repeat split; by_evaluation. Qed.

Example six_failures :
  let r := throttleAwsRequestRequest scripted (getResources "api")
             (replicate 7 (inl Sample.rateExceeded)) in
  outcome r = Throw Sample.rateExceeded
  /\ length (calls (trace r)) = 6%nat
  /\ final r = [inl Sample.rateExceeded].
Proof. cbv zeta. repeat split; by_evaluation. Qed.

(** ** Runs without a handler *)

Section FailFast.
Context {W : Type} (remote : Call -> W -> (JsError + Response) * W).

Lemma stops_silent {A} (r : Run W A) : trace r = [] -> stops_at_failure r.
Proof. intros Hr t c e t' Ht. rewrite Hr in Ht. by destruct t. Qed.

Lemma stops_bind {A B} (m : M W A) (k : A -> M W B) (w : W) :
  stops_at_failure (m w) ->
  (forall a, outcome (m w) = Ok a -> stops_at_failure (k a (final (m w)))) ->
  stops_at_failure (bind m k w).
Proof.
  intros Hm Hk t c e t' Ht He. unfold bind in *.
  destruct (outcome (m w)) as [a| |] eqn:Ho; cbn [trace outcome] in *.
  - specialize (Hk a eq_refl).
    apply app_eq_app in Ht as [l [[Hl1 Hl2]|[Hl1 Hl2]]].
    + destruct l as [|ev l].
      * rewrite app_nil_r in Hl1. cbn in Hl2. symmetry in Hl2.
        by apply (Hk [] c e t').
      * cbn in Hl2. injection Hl2 as <- ->.
        destruct (Hm _ _ _ _ Hl1 He) as [_ Hthrow]. congruence.
    + by apply (Hk l c e t').
  - destruct (Hm _ _ _ _ Ht He) as [-> Hthrow]. split; [done|congruence].
  - destruct (Hm _ _ _ _ Ht He) as [-> Hthrow]. congruence.
Qed.

Lemma failed_attempts_last (c : Call) (errors : list JsError) :
  Forall (fun e => rate_limited e = true) errors ->
  forall timeout x t c' e t',
    failed_attempts c timeout 2 errors ++ [x] = t ++ EvCall c' (inl e) :: t' ->
    rate_limited e = false ->
    t' = [] /\ x = EvCall c' (inl e).
Proof.
  induction 1 as [|e1 errors He1 _ IH]; intros timeout x t c' e t' Ht He.
  - destruct t as [|a t]; cbn in Ht.
    + by injection Ht as -> <-.
    + injection Ht as _ Ht. by destruct t.
  - cbn in Ht. destruct t as [|a [|b t]]; cbn in Ht.
    + injection Ht as _ <- _. congruence.
    + injection Ht as _ Ht _. discriminate.
    + injection Ht as _ _ Ht. by apply (IH _ _ _ _ _ _ Ht).
Qed.

Lemma stops_throttle (c : Call) (w : W) :
  stops_at_failure (throttleAwsRequestRequest remote c w).
Proof.
  intros t c' e t' Ht He.
  destruct (pRetry_from_spec remote c 5 [] 1000 w)
    as (errors & last & Htr & _ & Hall & Hout & _).
  rewrite throttle_unfold, Htr in *.
  destruct (failed_attempts_last c errors Hall _ _ _ _ _ _ Ht He) as [-> Hx].
  injection Hx as _ Hlast. split; [done|]. by rewrite Hout, Hlast, settled_with_other.
Qed.

Lemma throttle_settles (c : Call) (w : W) :
  outcome (throttleAwsRequestRequest remote c w) <> Diverge.
Proof.
  destruct (pRetry_from_spec remote c 5 [] 1000 w)
    as (errors & last & _ & _ & _ & Hout & _).
  rewrite throttle_unfold, Hout. by destruct (settled_with _ last).
Qed.

Lemma stops_getPathId (apiId : string) (endpoint : option object) (w : W) :
  stops_at_failure (getPathId remote apiId endpoint w).
Proof.
  unfold getPathId. apply stops_bind; [apply stops_throttle|].
  intros resp _. destruct (resp_items resp) as [items|]; [|by apply stops_silent].
  destruct endpoint as [endpoint|].
  - destruct (List.find _ items); by apply stops_silent.
  - destruct (List.find _ items); by apply stops_silent.
Qed.

Lemma stops_createPath (fuel : nat) (apiId : string) :
  forall (endpoint : object) (w : W),
    stops_at_failure (createPath remote fuel apiId endpoint w).
Proof.
  induction fuel as [|fuel IH]; intros endpoint w; cbn [createPath].
  - by apply stops_silent.
  - apply stops_bind; [apply stops_getPathId|].
    intros pathId _. destruct (truthy pathId); [by apply stops_silent|].
    destruct (field endpoint "path") as [| | | |path|]; try by apply stops_silent.
    destruct (pop (split "/" path)) as [pathParts pathPart].
    apply stops_bind.
    + destruct (strict_eq _ _); [apply stops_getPathId | apply IH].
    + intros parentId _. apply stops_bind; [apply stops_throttle|].
      intros created _. by apply stops_silent.
Qed.

End FailFast.

(** C5, as amended.  [createPath] has no handler for a failure of the
    creation request: when that request is rejected because the node
    already exists, or for any other reason than the rate limit (which the
    retry wrapper retries), nothing is sent after it, the listing is not
    queried again, and [createPath] is rejected with that very error. *)
Theorem createPath_create_failure {W : Type} (remote : Call -> W -> (JsError + Response) * W)
    (fuel : nat) (apiId : string) (endpoint : object) (w : W)
    (t t' : list Event) (pathPart parentId : prim) (restApiId : string) (e : JsError) :
  trace (createPath remote fuel apiId endpoint w)
    = t ++ EvCall (createResource pathPart parentId restApiId) (inl e) :: t' ->
  rate_limited e = false ->
  t' = [] /\ outcome (createPath remote fuel apiId endpoint w) = Throw e.
Proof. apply stops_createPath. Qed.

Lemma createPath_create_failure_witness :
  rate_limited Gateway.conflict = false
  /\ outcome (createPath scripted 2 "api" (Sample.endpoint "GET" "/a") Sample.lostRace)
     = Throw Gateway.conflict.
Proof.
  split; [reflexivity|].
  apply (createPath_create_failure scripted 2 "api" (Sample.endpoint "GET" "/a")
           Sample.lostRace
           [EvCall (getResources "api") (inr (RespItems [Sample.root]));
            EvCall (getResources "api") (inr (RespItems [Sample.root]))]
           [] (PStr "a") (PStr "root") "api" Gateway.conflict).
  - by_evaluation.
  - reflexivity.
Defined.

(** C5, as stated, fails: when the creation of [/a] is rejected because
    the node exists, [createPath] is rejected with that error; the creation
    is its last request, and the listing that shows the node of the winner
    is never asked for. *)
Lemma createPath_race_not_tolerated :
  let r := createPath scripted 2 "api" (Sample.endpoint "GET" "/a") Sample.lostRace in
  outcome r = Throw Gateway.conflict
  /\ outcome r <> Ok (PStr "a")
  /\ calls (trace r)
     = [getResources "api"; getResources "api"; createResource (PStr "a") (PStr "root") "api"]
  /\ final r = [inr (RespItems [Sample.root; mkResource "a" "/a" (Some "root") None])].
Proof. cbv zeta. repeat split; by_evaluation. Qed.

Example createPath_chain :
  let r := createPath Gateway.react 3 "api" (Sample.endpoint "GET" "/users/all") Sample.api in
  outcome r = Ok (PStr "/users/all")
  /\ calls (trace r)
     = [getResources "api"; getResources "api"; getResources "api";
        createResource (PStr "users") (PStr "root") "api";
        createResource (PStr "all") (PStr "/users") "api"].
Proof. cbv zeta. repeat split; by_evaluation. Qed.

(** ** Integrations *)

Section Integration.
Context {W : Type} (remote : Call -> W -> (JsError + Response) * W).

Lemma createIntegration_S (fuel : nat) (apiId : string) (endpoint : object) :
  createIntegration remote (S fuel) apiId endpoint
  = ((if truthy (field endpoint "function") then
        match field endpoint "function" with
        | PStr _ => ret tt
        | _ => throw (TypeError "endpoint.function.split is not a function")
        end
      else ret tt) ;;;
     r <- settle (throttleAwsRequestRequest remote
                    (putIntegration (integrationParams apiId endpoint))) ;;
     match r with
     | inl e =>
         if has_code e "ConflictException" then
           emit (EvSleep 2000) ;;; createIntegration remote fuel apiId endpoint
         else throw (ErrorOf e)
     | inr _ =>
         (if truthy (field endpoint "function") then
            try_catch
              (perform remote (addPermission (permissionsParams apiId endpoint)) ;;; ret tt)
              (fun e =>
                 if negb (has_code e "ResourceConflictException") then throw (ErrorOf e)
                 else ret tt)
          else ret tt) ;;;
         ret endpoint
     end).
Proof. reflexivity. Qed.

Lemma function_read (endpoint : object) (w : W) :
  function_readable endpoint = true ->
  (if truthy (field endpoint "function") then
     match field endpoint "function" with
     | PStr _ => ret tt
     | _ => throw (TypeError "endpoint.function.split is not a function")
     end
   else ret tt) w = mkRun (Ok tt) w [].
Proof.
  unfold function_readable.
  destruct (field endpoint "function") as [| |b|n|s|a]; cbn; try done.
  - destruct b; done.
  - destruct (n =? 0)%Z; done.
  - by destruct (String.eqb s EmptyString).
Qed.

(** A rejection of the put that is not a conflict is fatal. *)
Lemma createIntegration_fatal (fuel : nat) (apiId : string) (endpoint : object) (w : W)
    (e : JsError) :
  function_readable endpoint = true ->
  outcome (throttleAwsRequestRequest remote (putIntegration (integrationParams apiId endpoint)) w)
    = Throw e ->
  has_code e "ConflictException" = false ->
  outcome (createIntegration remote (S fuel) apiId endpoint w) = Throw (ErrorOf e)
  /\ trace (createIntegration remote (S fuel) apiId endpoint w)
     = trace (throttleAwsRequestRequest remote
                (putIntegration (integrationParams apiId endpoint)) w).
Proof.
  intros Hf Hout Hc. rewrite createIntegration_S.
  rewrite (bind_run_ok _ _ _ _ _ _ (function_read endpoint w Hf)).
  rewrite (bind_run_ok _ _ _ _ _ _ (settle_throw _ _ _ Hout)).
  rewrite Hc. cbn [outcome final trace throw app]. by rewrite app_nil_r.
Qed.

End Integration.

Lemma throttle_scripted_conflict (c : Call) (script : list (JsError + Response)) :
  throttleAwsRequestRequest scripted c (inl Gateway.conflict :: script)
  = mkRun (Throw Gateway.conflict) script [EvCall c (inl Gateway.conflict)].
Proof. reflexivity. Qed.

Lemma throttle_scripted_done (c : Call) :
  throttleAwsRequestRequest scripted c [] = mkRun (Ok RespEmpty) [] [EvCall c (inr RespEmpty)].
Proof. reflexivity. Qed.

Lemma grant_scripted_done (apiId : string) (endpoint : object) :
  ((if truthy (field endpoint "function") then
      try_catch
        (perform scripted (addPermission (permissionsParams apiId endpoint)) ;;; ret tt)
        (fun e =>
           if negb (has_code e "ResourceConflictException") then throw (ErrorOf e)
           else ret tt)
    else ret tt) ;;; ret endpoint) []
  = mkRun (Ok endpoint) []
      (if truthy (field endpoint "function")
       then [EvCall (addPermission (permissionsParams apiId endpoint)) (inr RespEmpty)]
       else []).
Proof. destruct (truthy (field endpoint "function")); reflexivity. Qed.

(** After [n] conflicts in a row the put is sent once more each time. *)
Lemma createIntegration_conflicts (n : nat) :
  forall (fuel : nat) (apiId : string) (endpoint : object),
    (n < fuel)%nat ->
    function_readable endpoint = true ->
    outcome (createIntegration scripted fuel apiId endpoint (replicate n (inl Gateway.conflict)))
      = Ok endpoint
    /\ length (List.filter is_putIntegration
                 (calls (trace (createIntegration scripted fuel apiId endpoint
                                  (replicate n (inl Gateway.conflict)))))) = S n
    /\ sleeps (trace (createIntegration scripted fuel apiId endpoint
                        (replicate n (inl Gateway.conflict)))) = replicate n 2000.
Proof.
  induction n as [|n IH]; intros fuel apiId endpoint Hfuel Hf;
    destruct fuel as [|fuel]; try lia; rewrite createIntegration_S;
    rewrite (bind_run_ok _ _ _ _ _ _ (function_read endpoint _ Hf)); cbn [replicate].
  - rewrite (bind_run_ok _ _ _ _ _ _ (settle_ok _ _ _ (f_equal outcome (throttle_scripted_done _)))).
    rewrite throttle_scripted_done. cbn [outcome final trace].
    rewrite grant_scripted_done. cbn [outcome final trace].
    destruct (truthy (field endpoint "function")); repeat split; reflexivity.
  - rewrite (bind_run_ok _ _ _ _ _ _
               (settle_throw _ _ _ (f_equal outcome (throttle_scripted_conflict _ _)))).
    rewrite throttle_scripted_conflict. cbn [outcome final trace].
    change (has_code Gateway.conflict "ConflictException") with true. cbn iota.
    rewrite (bind_run_ok _ _ _ _ _ _ (eq_refl : emit (EvSleep 2000) _ = mkRun (Ok tt) _ _)).
    destruct (IH fuel apiId endpoint ltac:(lia) Hf) as (Hout & Hputs & Hsleeps).
    cbn [outcome final trace app].
    repeat split; [done | |].
    + change (calls (EvCall ?c ?r :: EvSleep ?ms :: ?t)) with (c :: calls t).
      cbn [List.filter is_putIntegration length]. by rewrite Hputs.
    + change (sleeps (EvCall ?c ?r :: EvSleep ?ms :: ?t)) with (ms :: sleeps t).
      by rewrite Hsleeps.
Qed.

(** C6, as amended.  When the put of the integration is rejected with a
    conflict, [createIntegration] waits 2000 ms and calls itself, and so
    again after each further conflict, without a bound of its own: against
    a remote system that reports [n] conflicts in a row it waits [n] times,
    sends the put [n + 1] times and returns the endpoint.  A rejection of
    the put that is not a conflict ends it at once with an error built
    around that rejection. *)
Theorem createIntegration_retries (n fuel : nat) (apiId : string) (endpoint : object) :
  (n < fuel)%nat ->
  function_readable endpoint = true ->
  (outcome (createIntegration scripted fuel apiId endpoint (replicate n (inl Gateway.conflict)))
     = Ok endpoint
   /\ length (List.filter is_putIntegration
                (calls (trace (createIntegration scripted fuel apiId endpoint
                                 (replicate n (inl Gateway.conflict)))))) = S n
   /\ sleeps (trace (createIntegration scripted fuel apiId endpoint
                       (replicate n (inl Gateway.conflict)))) = replicate n 2000)
  /\ (forall (W : Type) (remote : Call -> W -> (JsError + Response) * W) (w : W) (e : JsError),
        outcome (throttleAwsRequestRequest remote
                   (putIntegration (integrationParams apiId endpoint)) w) = Throw e ->
        has_code e "ConflictException" = false ->
        outcome (createIntegration remote fuel apiId endpoint w) = Throw (ErrorOf e)
        /\ sleeps (trace (createIntegration remote fuel apiId endpoint w)) = []).
Proof.
  intros Hfuel Hf. split; [by apply createIntegration_conflicts|].
  intros W remote w e Hout Hc. destruct fuel as [|fuel]; [lia|].
  destruct (createIntegration_fatal remote fuel apiId endpoint w e Hf Hout Hc) as [Ho Ht].
  split; [exact Ho|]. rewrite Ht.
  destruct (pRetry_from_spec remote (putIntegration (integrationParams apiId endpoint)) 5 []
              1000 w) as (errors & last & Htr & _).
  rewrite throttle_unfold, Htr. clear. unfold sleeps. rewrite omap_app. cbn.
  generalize 1000. induction errors as [|e errors IH]; intros t; [reflexivity|].
  cbn. apply IH.
Qed.

Lemma createIntegration_retries_witness :
  (outcome (createIntegration scripted 3 "api" (Sample.endpoint "GET" "/items")
              (replicate 2 (inl Gateway.conflict))) = Ok (Sample.endpoint "GET" "/items")
   /\ length (List.filter is_putIntegration
                (calls (trace (createIntegration scripted 3 "api" (Sample.endpoint "GET" "/items")
                                 (replicate 2 (inl Gateway.conflict)))))) = 3%nat
   /\ sleeps (trace (createIntegration scripted 3 "api" (Sample.endpoint "GET" "/items")
                       (replicate 2 (inl Gateway.conflict)))) = replicate 2 2000)
  /\ (forall (W : Type) (remote : Call -> W -> (JsError + Response) * W) (w : W) (e : JsError),
        outcome (throttleAwsRequestRequest remote
                   (putIntegration (integrationParams "api" (Sample.endpoint "GET" "/items"))) w)
          = Throw e ->
        has_code e "ConflictException" = false ->
        outcome (createIntegration remote 3 "api" (Sample.endpoint "GET" "/items") w)
          = Throw (ErrorOf e)
        /\ sleeps (trace (createIntegration remote 3 "api" (Sample.endpoint "GET" "/items") w))
           = []).
Proof.
  apply (createIntegration_retries 2 3 "api" (Sample.endpoint "GET" "/items")).
  - lia.
  - by_evaluation.
Defined.

(** C6, as stated, fails: after two conflicts in a row there are two
    waits and a third put, and the third put decides the result. *)
Lemma second_retry :
  let r := createIntegration scripted 3 "api" (Sample.endpoint "GET" "/items")
             [inl Gateway.conflict; inl Gateway.conflict] in
  outcome r = Ok (Sample.endpoint "GET" "/items")
  /\ sleeps (trace r) = [2000; 2000]
  /\ ~ (length (sleeps (trace r)) <= 1)%nat
  /\ length (List.filter is_putIntegration (calls (trace r))) = 3%nat.
Proof. cbv zeta. repeat split; by_evaluation. Qed.

(** ** Ownership check *)

(** C10.  When the listing has the path of the endpoint and the lookup of
    the method is rejected with an error that is not the not-found one,
    [endpointExists] catches the error and returns [undefined];
    [validateEndpoint] then returns the validated endpoint without the
    ownership check, whatever the recorded state. *)
Theorem endpointExists_swallows {W : Type} (remote : Call -> W -> (JsError + Response) * W)
    (apiId stage region : string) (endpoint : jsval) (validated : object)
    (state : State) (w : W) (resourceId : prim) (e : JsError) :
  validateEndpointObject endpoint apiId stage region = inr validated ->
  outcome (getPathId remote apiId (Some validated) w) = Ok resourceId ->
  truthy resourceId = true ->
  outcome (throttleAwsRequestRequest remote
             (getMethod (field validated "method") resourceId apiId)
             (final (getPathId remote apiId (Some validated) w))) = Throw e ->
  has_code e "NotFoundException" = false ->
  outcome (endpointExists remote apiId validated w) = Ok PUndefined
  /\ truthy PUndefined = false
  /\ outcome (validateEndpoint remote apiId endpoint state stage region w) = Ok validated.
Proof.
  intros Hv Hid Ht Hm Hc.
  assert (outcome (endpointExists remote apiId validated w) = Ok PUndefined) as Hex.
  { unfold endpointExists. rewrite (bind_ok _ _ _ _ Hid). cbn [outcome]. rewrite Ht.
    cbn [negb]. unfold try_catch. rewrite (bind_throw _ _ _ _ Hm). cbn [outcome].
    rewrite Hc. reflexivity. }
  split; [exact Hex|]. split; [reflexivity|].
  unfold validateEndpoint. rewrite Hv. rewrite (bind_ok _ _ _ _ Hex). reflexivity.
Qed.

Lemma endpointExists_swallows_witness :
  outcome (endpointExists scripted "api"
             (validatedEndpoint "api" "dev" "us-east-1" "/items" "GET"
                ∪ Sample.endpoint "get" "items/")
             Sample.brokenLookup) = Ok PUndefined
  /\ truthy PUndefined = false
  /\ outcome (validateEndpoint scripted "api" (JObject (Sample.endpoint "get" "items/"))
                (mkState None) "dev" "us-east-1" Sample.brokenLookup)
     = Ok (validatedEndpoint "api" "dev" "us-east-1" "/items" "GET"
             ∪ Sample.endpoint "get" "items/").
Proof.
  apply (endpointExists_swallows scripted "api" "dev" "us-east-1"
           (JObject (Sample.endpoint "get" "items/")) _ (mkState None) Sample.brokenLookup
           (PStr "items") Sample.internalFailure); by_evaluation.
Defined.

Example foreign_endpoint_refused :
  outcome (validateEndpoint Gateway.react "api" (JObject (Sample.endpoint "get" "items/"))
             (mkState None) "dev" "us-east-1" Sample.api)
  = Throw (ErrorMsg "endpoint GET /items already exists in provider").
Proof. by_evaluation. Qed.

(** ** Garbage collection: the passes of [removeResources] *)

Section TraceFacts.

Lemma latest_listing_app (t1 t2 : list Event) :
  forall listing,
    latest_listing listing (t1 ++ t2) = latest_listing (latest_listing listing t1) t2.
Proof.
  induction t1 as [|ev t1 IH]; intros listing; [reflexivity|].
  destruct ev as [[] [|[]]| |]; cbn; apply IH.
Qed.

Lemma deletions_justified_app (t1 t2 : list Event) :
  forall listing,
    deletions_justified listing (t1 ++ t2)
    = deletions_justified listing t1 && deletions_justified (latest_listing listing t1) t2.
Proof.
  induction t1 as [|ev t1 IH]; intros listing; [reflexivity|].
  destruct ev as [[] [|[]]| |]; cbn; rewrite ?IH, ?andb_assoc; reflexivity.
Qed.

Lemma failed_attempts_listing (c : Call) (errors : list JsError) :
  forall timeout listing,
    latest_listing listing (failed_attempts c timeout 2 errors) = listing.
Proof.
  induction errors as [|e errors IH]; intros timeout listing; [reflexivity|].
  cbn [failed_attempts]. destruct c; cbn; apply IH.
Qed.

Lemma failed_attempts_justified (c : Call) (errors : list JsError) :
  (forall restApiId rid, c = deleteResource restApiId rid -> False) ->
  forall timeout listing,
    deletions_justified listing (failed_attempts c timeout 2 errors) = true.
Proof.
  intros Hc. induction errors as [|e errors IH]; intros timeout listing; [reflexivity|].
  cbn [failed_attempts]. destruct c; cbn; try apply IH. by destruct (Hc restApiId resourceId).
Qed.

Lemma failed_deletions_justified (restApiId : string) (rid : prim) (errors : list JsError)
    (listing : list Resource) :
  bare listing rid = true ->
  forall timeout,
    deletions_justified listing (failed_attempts (deleteResource restApiId rid) timeout 2 errors)
    = true.
Proof.
  intros Hb. induction errors as [|e errors IH]; intros timeout; [reflexivity|].
  cbn. rewrite Hb. apply IH.
Qed.

End TraceFacts.

Section Passes.
Context {W : Type} (remote : Call -> W -> (JsError + Response) * W).

(** The listing request: no deletion, and its answer is the listing from
    then on. *)
Lemma throttle_listing (apiId : string) (w : W) (listing : list Resource) :
  deletions_justified listing (trace (throttleAwsRequestRequest remote (getResources apiId) w))
  = true
  /\ latest_listing listing (trace (throttleAwsRequestRequest remote (getResources apiId) w))
     = match outcome (throttleAwsRequestRequest remote (getResources apiId) w) with
       | Ok (RespItems items) => items
       | _ => listing
       end.
Proof.
  destruct (pRetry_from_spec remote (getResources apiId) 5 [] 1000 w)
    as (errors & last & Ht & _ & _ & Hout & _).
  rewrite throttle_unfold, Ht, Hout, deletions_justified_app, latest_listing_app,
    failed_attempts_listing.
  rewrite failed_attempts_justified by discriminate. unfold settled_with.
  destruct last as [e|[]]; [destruct (rate_limited e)|..]; cbn; done.
Qed.

(** The deletion of a bare node, with its retries. *)
Lemma throttle_deletion (apiId : string) (rid : prim) (w : W) (listing : list Resource) :
  bare listing rid = true ->
  deletions_justified listing
    (trace (throttleAwsRequestRequest remote (deleteResource apiId rid) w)) = true
  /\ latest_listing listing
       (trace (throttleAwsRequestRequest remote (deleteResource apiId rid) w)) = listing.
Proof.
  intros Hb.
  destruct (pRetry_from_spec remote (deleteResource apiId rid) 5 [] 1000 w)
    as (errors & last & Ht & _).
  rewrite throttle_unfold, Ht, deletions_justified_app, latest_listing_app,
    failed_attempts_listing.
  rewrite failed_deletions_justified by done. cbn. rewrite Hb. done.
Qed.

Lemma round_Await {A} (c : Call) (k : JsError + Response -> Task A) (rest : list (Task A)) :
  round remote (Await c k :: rest)
  = (r <- settle (throttleAwsRequestRequest remote c) ;;
     rest' <- round remote rest ;;
     ret (k r :: rest')).
Proof. reflexivity. Qed.

Lemma drain_S {A} (n : nat) (rejected : option JsError) (tasks : list (Task A)) :
  drain remote (S n) rejected tasks
  = (if forallb settled tasks
     then ret (match rejected with Some e => Some e | None => first_rejected tasks end, tasks)
     else tasks' <- round remote tasks ;;
          drain remote n (match rejected with Some e => Some e | None => first_rejected tasks end)
            tasks').
Proof. reflexivity. Qed.

Lemma drain_settled {A} (rounds : nat) (rejected : option JsError) (tasks : list (Task A))
    (w : W) :
  forallb settled tasks = true ->
  trace (drain remote rounds rejected tasks w) = []
  /\ outcome (drain remote rounds rejected tasks w) <> Diverge.
Proof. intros H. destruct rounds; cbn [drain]; rewrite H; done. Qed.

Lemma round_removal_cons (apiId : string) (e : object) (rest : list (Task object)) (w : W) :
  exists task,
    settled task = true
    /\ forall tasks,
        outcome (round remote rest
                   (final (throttleAwsRequestRequest remote
                             (deleteResource apiId (field e "id")) w))) = Ok tasks ->
        round remote (removeResource apiId e :: rest) w
        = mkRun (Ok (task :: tasks))
            (final (round remote rest
                      (final (throttleAwsRequestRequest remote
                                (deleteResource apiId (field e "id")) w))))
            (trace (throttleAwsRequestRequest remote (deleteResource apiId (field e "id")) w)
             ++ trace (round remote rest
                         (final (throttleAwsRequestRequest remote
                                   (deleteResource apiId (field e "id")) w)))).
Proof.
  destruct (settle_never_throws (throttleAwsRequestRequest remote
              (deleteResource apiId (field e "id"))) w (throttle_settles _ _ _))
    as (r & Hr & Htr & Hfin).
  eexists. split; [|intros tasks Hout].
  2:{ unfold removeResource. rewrite round_Await.
      rewrite (bind_ok _ _ _ _ Hr), Htr, Hfin.
      rewrite (bind_ok _ _ _ _ Hout). cbn [outcome final trace ret].
      rewrite app_nil_r. reflexivity. }
  destruct r as [err|v]; [destruct (has_code err _)|]; reflexivity.
Qed.

(** One turn of the queue for the deletions of bare nodes. *)
Lemma round_removals (apiId : string) (targets : list object) (listing : list Resource) :
  Forall (fun e => bare listing (field e "id") = true) targets ->
  forall w,
    (exists tasks, outcome (round remote (map (removeResource apiId) targets) w) = Ok tasks
                   /\ forallb settled tasks = true)
    /\ deletions_justified listing (trace (round remote (map (removeResource apiId) targets) w))
       = true
    /\ latest_listing listing (trace (round remote (map (removeResource apiId) targets) w))
       = listing.
Proof.
  induction 1 as [|e targets Hb _ IH]; intros w.
  - split; [by exists []|done].
  - cbn [map].
    destruct (round_removal_cons apiId e (map (removeResource apiId) targets) w)
      as (task & Htask & Hrun).
    destruct (IH (final (throttleAwsRequestRequest remote
                           (deleteResource apiId (field e "id")) w)))
      as ((tasks & Hout & Hset) & Hj & Hl).
    rewrite (Hrun tasks Hout). cbn [outcome final trace].
    destruct (throttle_deletion apiId (field e "id") w listing Hb) as [Hj1 Hl1].
    rewrite deletions_justified_app, latest_listing_app, Hj1, Hl1, Hj, Hl.
    split; [|done]. eexists. split; [reflexivity|]. cbn [forallb]. by rewrite Htask, Hset.
Qed.

Lemma promiseAll_removals (apiId : string) (targets : list object) (listing : list Resource)
    (w : W) :
  Forall (fun e => bare listing (field e "id") = true) targets ->
  outcome (promiseAll remote 1 (map (removeResource apiId) targets) w) <> Diverge
  /\ deletions_justified listing
       (trace (promiseAll remote 1 (map (removeResource apiId) targets) w)) = true
  /\ latest_listing listing
       (trace (promiseAll remote 1 (map (removeResource apiId) targets) w)) = listing.
Proof.
  intros Hb. unfold promiseAll.
  assert (forall (d : M W (option JsError * list (Task object))),
             outcome (d w) <> Diverge ->
             outcome ((r <- d ;; match fst r with
                                 | Some e => throw e
                                 | None => ret (values (snd r))
                                 end) w) <> Diverge
             /\ trace ((r <- d ;; match fst r with
                                  | Some e => throw e
                                  | None => ret (values (snd r))
                                  end) w) = trace (d w)) as Hfin.
  { intros d Hd. unfold bind. destruct (outcome (d w)) as [[[e|] ts]| |]; cbn;
      rewrite ?app_nil_r; done. }
  rewrite drain_S. destruct (forallb settled (map (removeResource apiId) targets)) eqn:Hs.
  - edestruct Hfin as [Ho Ht]; [|split; [exact Ho|rewrite Ht]]; done.
  - destruct (round_removals apiId targets listing Hb w) as ((tasks & Hout & Hset) & Hj & Hl).
    destruct (drain_settled 0
                (match None with
                 | Some e => Some e
                 | None => first_rejected (map (removeResource apiId) targets)
                 end) tasks
                (final (round remote (map (removeResource apiId) targets) w)) Hset)
      as [Hdt Hdo].
    edestruct Hfin as [Ho Ht]; [|split; [exact Ho|rewrite Ht]].
    + rewrite (bind_ok _ _ _ _ Hout). cbn [outcome]. exact Hdo.
    + rewrite (bind_ok _ _ _ _ Hout). cbn [trace]. rewrite Hdt, app_nil_r. done.
Qed.

(** The test of the source implies bareness as the claim words it. *)
Lemma removable_bare (items : list Resource) (endpoint : object) :
  removable items endpoint = true -> bare items (field endpoint "id") = true.
Proof.
  unfold removable, bare.
  destruct (List.find _ items) as [r|] eqn:Hfind; [|done].
  intros [Hm Hc]%andb_true_iff. apply andb_true_iff. split.
  - apply existsb_exists. exists r. apply find_some in Hfind as [Hin Hid].
    split; [done|]. by rewrite Hid, Hm.
  - apply Nat.eqb_eq, length_zero_iff_nil in Hc.
    apply forallb_forall. intros c Hin.
    destruct (strict_eq (opt_prim (res_parentId c)) (field endpoint "id")) eqn:Hp; [|done].
    assert (In c (List.filter (fun resourceItem =>
                strict_eq (opt_prim (res_parentId resourceItem)) (field endpoint "id")) items))
      as Hin' by (apply filter_In; done).
    rewrite Hc in Hin'. done.
Qed.

Lemma filter_removable_bare (items : list Resource) (endpoints : list object) :
  Forall (fun e => bare items (field e "id") = true) (List.filter (removable items) endpoints).
Proof.
  apply Forall_forall. intros e [_ He]%list_elem_of_In%filter_In. by apply removable_bare.
Qed.

Lemma removeResources_S (fuel : nat) (apiId : string) (endpoints : list object) :
  removeResources remote (S fuel) apiId endpoints
  = (resources <- throttleAwsRequestRequest remote (getResources apiId) ;;
     match endpoints, resp_items resources with
     | _ :: _, None => throw (TypeError "Cannot read property 'find' of undefined")
     | _, items =>
         let promises :=
           map (removeResource apiId)
             (List.filter (removable (default [] items)) endpoints) in
         if (length promises =? 0)%nat then ret []
         else promiseAll remote 1 promises ;;; removeResources remote fuel apiId endpoints
     end).
Proof. reflexivity. Qed.

(** All the passes, from any listing received before. *)
Lemma removeResources_passes (fuel : nat) (apiId : string) (endpoints : list object) :
  forall (listing : list Resource) (w : W),
    deletions_justified listing (trace (removeResources remote fuel apiId endpoints w)) = true
    /\ match outcome (removeResources remote fuel apiId endpoints w) with
       | Ok removed =>
           removed = []
           /\ List.filter
                (removable
                   (latest_listing listing (trace (removeResources remote fuel apiId endpoints w))))
                endpoints = []
       | _ => True
       end.
Proof.
  induction fuel as [|fuel IH]; intros listing w; [done|].
  rewrite removeResources_S.
  destruct (throttle_listing apiId w listing) as [Hj0 Hl0].
  destruct (outcome (throttleAwsRequestRequest remote (getResources apiId) w))
    as [resources| |] eqn:Ho.
  2:{ rewrite (bind_throw _ _ _ _ Ho). done. }
  2:{ by destruct (throttle_settles remote (getResources apiId) w). }
  rewrite (bind_ok _ _ _ _ Ho). cbn [outcome final trace].
  set (w1 := final (throttleAwsRequestRequest remote (getResources apiId) w)) in *.
  set (t0 := trace (throttleAwsRequestRequest remote (getResources apiId) w)) in *.
  assert (forall items,
             latest_listing listing t0 = items ->
             let promises := map (removeResource apiId) (List.filter (removable items) endpoints) in
             let r := (if (length promises =? 0)%nat then ret []
                       else promiseAll remote 1 promises ;;;
                            removeResources remote fuel apiId endpoints) w1 in
             deletions_justified listing (t0 ++ trace r) = true
             /\ match outcome r with
                | Ok removed =>
                    removed = []
                    /\ List.filter (removable (latest_listing listing (t0 ++ trace r))) endpoints
                       = []
                | _ => True
                end) as Hpass.
  { intros items Hitems. cbn zeta.
    destruct (length (map (removeResource apiId) (List.filter (removable items) endpoints))
              =? 0)%nat eqn:Hlen.
    - cbn [ret outcome trace]. rewrite app_nil_r, Hitems. split; [done|]. split; [done|].
      apply Nat.eqb_eq in Hlen. rewrite length_map in Hlen.
      by apply length_zero_iff_nil.
    - destruct (promiseAll_removals apiId (List.filter (removable items) endpoints)
                  items w1 (filter_removable_bare _ _)) as (Hnd & Hj & Hl).
      destruct (outcome (promiseAll remote 1
                  (map (removeResource apiId) (List.filter (removable items) endpoints)) w1))
        as [done_| |] eqn:Hp; [|rewrite (bind_throw _ _ _ _ Hp)|done].
      + rewrite (bind_ok _ _ _ _ Hp). cbn [outcome final trace].
        rewrite !deletions_justified_app, !latest_listing_app, Hj0, Hitems, Hj, Hl.
        apply IH.
      + cbn [outcome trace]. by rewrite deletions_justified_app, Hj0, Hitems, Hj. }
  destruct endpoints as [|e endpoints'].
  - cbn [List.filter map length Nat.eqb ret outcome trace].
    rewrite app_nil_r. done.
  - destruct resources as [items| |]; cbn [resp_items default].
    + apply Hpass. by rewrite Hl0.
    + cbn [throw outcome trace]. by rewrite app_nil_r.
    + cbn [throw outcome trace]. by rewrite app_nil_r.
Qed.

End Passes.

(** ** Tasks under [Promise.all] *)

Section Rounds.
Context {W : Type} (remote : Call -> W -> (JsError + Response) * W).

Lemma within_zero {A} (t : Task A) : within 0 t -> settled t = true.
Proof. by inversion 1. Qed.

Lemma round_within {A} (n : nat) (tasks : list (Task A)) :
  Forall (within (S n)) tasks ->
  forall w, exists tasks',
    outcome (round remote tasks w) = Ok tasks' /\ Forall (within n) tasks'.
Proof.
  induction 1 as [|t tasks Ht _ IH]; intros w; [by exists []|].
  destruct t as [a|e|c k].
  - cbn [round]. destruct (IH w) as (tasks' & Hout & Hall).
    rewrite (bind_ok _ _ _ _ Hout). cbn [outcome ret]. eexists. split; [reflexivity|].
    constructor; [by apply within_settled | done].
  - cbn [round]. destruct (IH w) as (tasks' & Hout & Hall).
    rewrite (bind_ok _ _ _ _ Hout). cbn [outcome ret]. eexists. split; [reflexivity|].
    constructor; [by apply within_settled | done].
  - rewrite round_Await.
    destruct (settle_never_throws (throttleAwsRequestRequest remote c) w
                (throttle_settles _ _ _)) as (r & Hr & _ & _).
    rewrite (bind_ok _ _ _ _ Hr). cbn [outcome final].
    destruct (IH (final (settle (throttleAwsRequestRequest remote c) w)))
      as (tasks' & Hout & Hall).
    rewrite (bind_ok _ _ _ _ Hout). cbn [outcome ret]. eexists. split; [reflexivity|].
    constructor; [|done]. inversion Ht as [? ? Hs|? ? ? Hk]; subst; [discriminate|].
    apply Hk.
Qed.

Lemma drain_within {A} (n : nat) :
  forall (rejected : option JsError) (tasks : list (Task A)) (w : W),
    Forall (within n) tasks ->
    outcome (drain remote n rejected tasks w) <> Diverge.
Proof.
  induction n as [|n IH]; intros rejected tasks w Hall.
  - apply drain_settled. apply forallb_forall. intros t Hin.
    apply within_zero. by apply (proj1 (Forall_forall _ _) Hall), list_elem_of_In.
  - rewrite drain_S. destruct (forallb settled tasks); [done|].
    destruct (round_within n tasks Hall w) as (tasks' & Hout & Hall').
    rewrite (bind_ok _ _ _ _ Hout). cbn [outcome]. by apply IH.
Qed.

(** [Promise.all] settles when the rounds cover the longest task. *)
Lemma promiseAll_settles {A} (n : nat) (tasks : list (Task A)) (w : W) :
  Forall (within n) tasks ->
  outcome (promiseAll remote n tasks w) <> Diverge.
Proof.
  intros Hall. unfold promiseAll, bind.
  pose proof (drain_within n None tasks w Hall) as Hd.
  destruct (outcome (drain remote n None tasks w)) as [[[e|] ts]| |]; done.
Qed.

Lemma removeMethod_within (apiId : string) (e : object) : within 1 (removeMethod apiId e).
Proof.
  apply within_await. intros [err|v]; apply within_settled; [|done].
  by destruct (has_code err _).
Qed.

Lemma removeAuthorizer_within (apiId : string) (e : object) :
  within 2 (removeAuthorizer apiId e).
Proof.
  unfold removeAuthorizer. destruct (truthy _); [|by apply within_settled].
  apply within_await. intros [err|v]; [by apply within_settled|].
  apply within_await. intros [err|v']; by apply within_settled.
Qed.

Lemma removeMethods_settles (apiId : string) (endpoints : list object) (w : W) :
  outcome (removeMethods remote apiId endpoints w) <> Diverge.
Proof.
  apply promiseAll_settles, Forall_forall. intros t [e [<- _]]%list_elem_of_In%in_map_iff.
  apply removeMethod_within.
Qed.

Lemma removeAuthorizers_settles (apiId : string) (endpoints : list object) (w : W) :
  outcome (removeAuthorizers remote apiId endpoints w) <> Diverge.
Proof.
  unfold removeAuthorizers, bind.
  assert (outcome (promiseAll remote 2 (map (removeAuthorizer apiId) endpoints) w) <> Diverge)
    as Hp.
  { apply promiseAll_settles, Forall_forall.
    intros t [e [<- _]]%list_elem_of_In%in_map_iff. apply removeAuthorizer_within. }
  destruct (outcome (promiseAll remote 2 _ w)); done.
Qed.

End Rounds.

Section Phases.
Context {W : Type} (remote : Call -> W -> (JsError + Response) * W).

Lemma all_calls_app (P : Call -> Prop) (t1 t2 : list Event) :
  all_calls P t1 -> all_calls P t2 -> all_calls P (t1 ++ t2).
Proof. unfold all_calls. intros. by apply Forall_app. Qed.

Lemma all_calls_weaken (P Q : Call -> Prop) (t : list Event) :
  (forall c, P c -> Q c) -> all_calls P t -> all_calls Q t.
Proof.
  intros HPQ H. unfold all_calls in *. eapply Forall_impl; [exact H|].
  intros [c r| |]; auto.
Qed.

Lemma throttle_calls (P : Call -> Prop) (c : Call) (w : W) :
  P c -> all_calls P (trace (throttleAwsRequestRequest remote c w)).
Proof.
  intros Hc.
  destruct (pRetry_from_spec remote c 5 [] 1000 w) as (errors & last & Ht & _).
  rewrite throttle_unfold, Ht. apply all_calls_app; [|by repeat constructor].
  generalize 1000. clear Ht. induction errors as [|e errors IH]; intros t; [constructor|].
  cbn. repeat constructor; [done|]. apply IH.
Qed.

Lemma bind_calls {A B} (P : Call -> Prop) (m : M W A) (k : A -> M W B) (w : W) :
  all_calls P (trace (m w)) ->
  (forall a, outcome (m w) = Ok a -> all_calls P (trace (k a (final (m w))))) ->
  all_calls P (trace (bind m k w)).
Proof.
  intros Hm Hk. unfold bind. destruct (outcome (m w)) as [a| |]; cbn [trace]; [|done..].
  apply all_calls_app; [done|]. by apply Hk.
Qed.

Lemma settle_calls {A} (P : Call -> Prop) (m : M W A) (w : W) :
  all_calls P (trace (m w)) -> all_calls P (trace (settle m w)).
Proof. intros H. unfold settle. by destruct (outcome (m w)). Qed.

Lemma round_calls {A} (P : Call -> Prop) (tasks : list (Task A)) :
  Forall (requests P) tasks ->
  forall w,
    all_calls P (trace (round remote tasks w))
    /\ (forall tasks', outcome (round remote tasks w) = Ok tasks' -> Forall (requests P) tasks').
Proof.
  induction 1 as [|t tasks Ht Hall IH]; intros w.
  - split; [constructor|]. by intros tasks' [= <-].
  - destruct t as [a|e|c k].
    + cbn [round]. destruct (IH w) as [Hc Hk]. unfold bind.
      destruct (outcome (round remote tasks w)) as [tasks1| |] eqn:Ho; cbn [trace outcome ret].
      * rewrite app_nil_r. split; [done|]. intros tasks' [= <-]. constructor; auto.
      * done.
      * done.
    + cbn [round]. destruct (IH w) as [Hc Hk]. unfold bind.
      destruct (outcome (round remote tasks w)) as [tasks1| |] eqn:Ho; cbn [trace outcome ret].
      * rewrite app_nil_r. split; [done|]. intros tasks' [= <-]. constructor; auto.
      * done.
      * done.
    + rewrite round_Await. inversion Ht as [? Hs|? ? Hc Hk]; subst; [discriminate|].
      destruct (settle_never_throws (throttleAwsRequestRequest remote c) w
                  (throttle_settles _ _ _)) as (r & Hr & Htr & Hfin).
      rewrite (bind_ok _ _ _ _ Hr), Htr. cbn [outcome final trace].
      destruct (IH (final (settle (throttleAwsRequestRequest remote c) w))) as [Hc' Hk'].
      unfold bind.
      destruct (outcome (round remote tasks _)) as [tasks1| |] eqn:Ho; cbn [trace outcome ret].
      * rewrite app_nil_r. split.
        -- apply all_calls_app; [by apply throttle_calls | done].
        -- intros tasks' [= <-]. constructor; auto.
      * split; [|done]. apply all_calls_app; [by apply throttle_calls | done].
      * split; [|done]. apply all_calls_app; [by apply throttle_calls | done].
Qed.

Lemma drain_calls {A} (P : Call -> Prop) (n : nat) :
  forall (rejected : option JsError) (tasks : list (Task A)) (w : W),
    Forall (requests P) tasks ->
    all_calls P (trace (drain remote n rejected tasks w)).
Proof.
  induction n as [|n IH]; intros rejected tasks w Hall.
  - cbn [drain]. destruct (forallb settled tasks); constructor.
  - rewrite drain_S. destruct (forallb settled tasks); [constructor|].
    destruct (round_calls P tasks Hall w) as [Hc Hk].
    apply bind_calls; [done|]. intros tasks' Ho. apply IH. by apply Hk.
Qed.

(** The requests under [Promise.all] are those of its tasks. *)
Lemma promiseAll_calls {A} (P : Call -> Prop) (n : nat) (tasks : list (Task A)) (w : W) :
  Forall (requests P) tasks ->
  all_calls P (trace (promiseAll remote n tasks w)).
Proof.
  intros Hall. unfold promiseAll. apply bind_calls; [by apply drain_calls|].
  intros [[e|] ts] _; constructor.
Qed.

End Phases.

Section PhaseRequests.
Context {W : Type} (remote : Call -> W -> (JsError + Response) * W).

Lemma removeResources_calls (fuel : nat) (apiId : string) (endpoints : list object) :
  forall w, all_calls (node_request apiId) (trace (removeResources remote fuel apiId endpoints w)).
Proof.
  induction fuel as [|fuel IH]; intros w; [constructor|].
  rewrite removeResources_S. apply bind_calls.
  - apply throttle_calls. by left.
  - intros resources _.
    assert (forall items w',
               all_calls (node_request apiId)
                 (trace ((let promises :=
                            map (removeResource apiId)
                              (List.filter (removable items) endpoints) in
                          if (length promises =? 0)%nat then ret []
                          else promiseAll remote 1 promises ;;;
                               removeResources remote fuel apiId endpoints) w'))) as Hbody.
    { intros items w'. cbn zeta. destruct (length _ =? 0)%nat; [constructor|].
      apply bind_calls; [|intros; apply IH].
      apply promiseAll_calls, Forall_forall.
      intros t [e [<- _]]%list_elem_of_In%in_map_iff.
      apply requests_await; [right; eauto|].
      intros [err|v]; apply requests_settled; [|done]. by destruct (has_code err _). }
    destruct endpoints as [|e endpoints']; [apply Hbody|].
    destruct (resp_items resources); [apply Hbody | constructor].
Qed.

Lemma removeMethods_calls (apiId : string) (endpoints : list object) (w : W) :
  all_calls (method_request apiId endpoints) (trace (removeMethods remote apiId endpoints w)).
Proof.
  apply promiseAll_calls, Forall_forall.
  intros t [e [<- Hin]]%list_elem_of_In%in_map_iff.
  apply requests_await; [exists e; split; [by apply list_elem_of_In|done]|].
  intros [err|v]; apply requests_settled; [|done]. by destruct (has_code err _).
Qed.

Lemma removeAuthorizers_calls (apiId : string) (endpoints : list object) (w : W) :
  all_calls (authorizer_request apiId endpoints)
    (trace (removeAuthorizers remote apiId endpoints w)).
Proof.
  unfold removeAuthorizers. apply bind_calls; [|intros; constructor].
  apply promiseAll_calls, Forall_forall.
  intros t [e [<- Hin%list_elem_of_In]]%list_elem_of_In%in_map_iff.
  unfold removeAuthorizer. destruct (truthy (field e "authorizerId")) eqn:Ha;
    [|by apply requests_settled].
  apply requests_await; [exists e; auto|].
  intros [err|v]; [by apply requests_settled|].
  apply requests_await; [exists e; auto|].
  intros [err|v']; by apply requests_settled.
Qed.

(** The trace of [removeOutdatedEndpoints] is the node pass on the stale
    endpoints, then their method removals, then the detaching. *)
Lemma removeOutdatedEndpoints_phases (fuel : nat) (apiId : string)
    (desired recorded : list object) (w : W) :
  exists nodes methods authorizers,
    trace (removeOutdatedEndpoints remote fuel apiId desired recorded w)
      = nodes ++ methods ++ authorizers
    /\ all_calls (node_request apiId) nodes
    /\ all_calls (method_request apiId (fst (outdated desired recorded))) methods
    /\ all_calls (authorizer_request apiId (snd (outdated desired recorded))) authorizers.
Proof.
  unfold removeOutdatedEndpoints. destruct (outdated desired recorded) as [stale detached].
  cbn [fst snd].
  pose proof (removeResources_calls fuel apiId stale w) as H1.
  unfold bind at 1.
  destruct (outcome (removeResources remote fuel apiId stale w)) as [r1| |];
    cbn [trace];
    [|exists (trace (removeResources remote fuel apiId stale w)), [], [];
      rewrite !app_nil_r; repeat split; (done || constructor)..].
  set (w1 := final (removeResources remote fuel apiId stale w)).
  pose proof (removeMethods_calls apiId stale w1) as H2.
  unfold bind at 1.
  destruct (outcome (removeMethods remote apiId stale w1)) as [r2| |];
    cbn [trace];
    [|exists (trace (removeResources remote fuel apiId stale w)),
        (trace (removeMethods remote apiId stale w1)), [];
      rewrite !app_nil_r; repeat split; (done || constructor)..].
  set (w2 := final (removeMethods remote apiId stale w1)).
  pose proof (removeAuthorizers_calls apiId detached w2) as H3.
  exists (trace (removeResources remote fuel apiId stale w)),
    (trace (removeMethods remote apiId stale w1)),
    (trace (removeAuthorizers remote apiId detached w2)).
  repeat split; try done. do 2 f_equal.
  unfold bind. destruct (outcome (removeAuthorizers remote apiId detached w2));
    cbn [trace ret]; by rewrite ?app_nil_r.
Qed.

End PhaseRequests.

(** ** The passes against the gateway kept in memory *)

Section GatewayFacts.
Import Gateway.

Lemma react_never_rate_limited (c : Call) (api api' : Api) (e : JsError) :
  react c api = (inl e, api') -> rate_limited e = false.
Proof.
  destruct c; cbn [react];
    repeat match goal with
           | |- context [if ?b then _ else _] => destruct b
           | |- context [match ?o with Some _ => _ | None => _ end] => destruct o
           end;
    intros [= <- <-] || intros [=]; reflexivity.
Qed.

Lemma throttle_react (c : Call) (api : Api) :
  throttleAwsRequestRequest react c api
  = mkRun (settlement (fst (react c api))) (snd (react c api)) [EvCall c (fst (react c api))].
Proof.
  rewrite throttle_unfold, pRetry_from_step.
  destruct (react c api) as [[e|v] api'] eqn:Hr; [|reflexivity].
  by rewrite (react_never_rate_limited _ _ _ _ Hr).
Qed.

Lemma filter_length_lt {A} (f g : A -> bool) (l : list A) :
  (forall x, g x = true -> f x = false) ->
  existsb g l = true -> (length (List.filter f l) < length l)%nat.
Proof.
  intros Hgf. induction l as [|a l IH]; cbn; [done|].
  pose proof (filter_length_le f l).
  destruct (g a) eqn:Hg; cbn.
  - rewrite (Hgf a Hg). lia.
  - intros H'. apply IH in H'. destruct (f a); cbn; lia.
Qed.

(** A deletion never adds a node, removes the node when it is there, and
    is rejected as not found only. *)
Lemma react_deleteResource (apiId : string) (rid : prim) (api : Api) :
  (length (resources (snd (react (deleteResource apiId rid) api)))
   <= length (resources api))%nat
  /\ (existsb (has_id rid) (resources api) = true ->
      (length (resources (snd (react (deleteResource apiId rid) api)))
       < length (resources api))%nat)
  /\ (forall e, fst (react (deleteResource apiId rid) api) = inl e ->
                has_code e "NotFoundException" = true).
Proof.
  cbn [react]. destruct (existsb (has_id rid) (resources api)) eqn:He; cbn [fst snd resources].
  - split; [apply filter_length_le|]. split; [|done]. intros _.
    apply (filter_length_lt _ (has_id rid)); [|exact He].
    by intros r ->.
  - split; [lia|]. split; [done|]. by intros e [= <-].
Qed.

Lemma removable_listed (items : list Resource) (endpoint : object) :
  removable items endpoint = true -> existsb (has_id (field endpoint "id")) items = true.
Proof.
  unfold removable. destruct (List.find _ items) as [r|] eqn:Hf; [|done]. intros _.
  apply find_some in Hf as [Hin Hid]. apply existsb_exists. by exists r.
Qed.

Lemma round_removal_react_cons (apiId : string) (e : object) (rest : list (Task object))
    (api : Api) (tasks : list (Task object)) :
  outcome (round react rest (snd (react (deleteResource apiId (field e "id")) api))) = Ok tasks ->
  exists v t,
    round react (removeResource apiId e :: rest) api
    = mkRun (Ok (Resolve v :: tasks))
        (final (round react rest (snd (react (deleteResource apiId (field e "id")) api)))) t.
Proof.
  intros Hout. unfold removeResource. rewrite round_Await.
  pose proof (react_deleteResource apiId (field e "id") api) as (_ & _ & Hnf).
  unfold bind at 1, settle. rewrite throttle_react. cbn [outcome final trace].
  destruct (fst (react (deleteResource apiId (field e "id")) api)) as [err|v];
    cbn [settlement outcome final trace];
    rewrite (bind_ok _ _ _ _ Hout); cbn [outcome final trace ret].
  - rewrite (Hnf err eq_refl). cbn [negb]. eauto.
  - eauto.
Qed.

Lemma round_removals_react (apiId : string) (targets : list object) :
  forall api,
    exists tasks,
      outcome (round react (map (removeResource apiId) targets) api) = Ok tasks
      /\ first_rejected tasks = None
      /\ forallb settled tasks = true
      /\ (length (resources (final (round react (map (removeResource apiId) targets) api)))
          <= length (resources api))%nat
      /\ (match targets with
          | e :: _ =>
              existsb (has_id (field e "id")) (resources api) = true ->
              (length (resources (final (round react (map (removeResource apiId) targets) api)))
               < length (resources api))%nat
          | [] => True
          end).
Proof.
  induction targets as [|e targets IH]; intros api.
  - exists []. cbn. repeat split; done.
  - cbn [map].
    pose proof (react_deleteResource apiId (field e "id") api) as (Hle & Hlt & _).
    destruct (IH (snd (react (deleteResource apiId (field e "id")) api)))
      as (tasks & Hout & Hrej & Hset & Hle' & _).
    destruct (round_removal_react_cons apiId e _ api tasks Hout) as (v & t & ->).
    cbn [outcome final]. eexists. split; [reflexivity|].
    cbn [first_rejected forallb settled andb].
    repeat split; try done; [lia|]. intros Hex. specialize (Hlt Hex). lia.
Qed.

Lemma removals_pending (apiId : string) (targets : list object) :
  first_rejected (map (removeResource apiId) targets) = None
  /\ (targets <> [] -> forallb settled (map (removeResource apiId) targets) = false).
Proof.
  induction targets as [|e targets [IH _]]; [done|]. split; [exact IH|done].
Qed.

Lemma promiseAll_removals_react (apiId : string) (targets : list object) (api : Api) :
  targets <> [] ->
  exists removed,
    outcome (promiseAll react 1 (map (removeResource apiId) targets) api) = Ok removed
    /\ final (promiseAll react 1 (map (removeResource apiId) targets) api)
       = final (round react (map (removeResource apiId) targets) api).
Proof.
  intros Hne. unfold promiseAll. rewrite drain_S.
  destruct (removals_pending apiId targets) as [-> Hpending]. rewrite (Hpending Hne).
  destruct (round_removals_react apiId targets api) as (tasks & Hout & Hrej & Hset & _).
  assert (drain react 0 None tasks
            (final (round react (map (removeResource apiId) targets) api))
          = mkRun (Ok (None, tasks))
              (final (round react (map (removeResource apiId) targets) api)) []) as Hdrain.
  { cbn [drain]. by rewrite Hrej, Hset. }
  cbn iota.
  assert ((tasks' <- round react (map (removeResource apiId) targets) ;;
           drain react 0 None tasks') api
          = mkRun (Ok (None, tasks))
              (final (round react (map (removeResource apiId) targets) api))
              (trace (round react (map (removeResource apiId) targets) api) ++ [])) as Hinner.
  { by rewrite (bind_ok _ _ _ _ Hout), Hdrain. }
  rewrite (bind_run_ok _ _ _ _ _ _ Hinner). cbn [outcome final trace fst snd ret]. eauto.
Qed.

(** Each pass that deletes at all leaves the gateway with fewer nodes, so
    more passes than there are nodes are never needed. *)
Lemma removeResources_react_returns (fuel : nat) (apiId : string) (endpoints : list object) :
  forall api,
    (length (resources api) < fuel)%nat ->
    outcome (removeResources react fuel apiId endpoints api) = Ok [].
Proof.
  induction fuel as [|fuel IH]; intros api Hfuel; [lia|].
  rewrite removeResources_S.
  rewrite (bind_run_ok _ _ _ _ _ _ (throttle_react (getResources apiId) api)).
  cbn [react fst snd settlement outcome resp_items default].
  assert (outcome
            ((let promises :=
                map (removeResource apiId)
                  (List.filter (removable (resources api)) endpoints) in
              if (length promises =? 0)%nat then ret []
              else promiseAll react 1 promises ;;;
                   removeResources react fuel apiId endpoints) api) = Ok []) as Hbody.
  { cbn zeta. rewrite length_map.
    destruct (List.filter (removable (resources api)) endpoints) as [|e targets] eqn:Hf;
      [reflexivity|].
    cbn [length Nat.eqb].
    destruct (promiseAll_removals_react apiId (e :: targets) api ltac:(done))
      as (removed & Hout & Hfin).
    rewrite (bind_ok _ _ _ _ Hout). cbn [outcome]. apply IH. rewrite Hfin.
    destruct (round_removals_react apiId (e :: targets) api) as (_ & _ & _ & _ & _ & Hlt).
    assert (removable (resources api) e = true) as He.
    { assert (In e (List.filter (removable (resources api)) endpoints)) as Hin
        by (rewrite Hf; by left).
      by apply filter_In in Hin as [_ ?]. }
    specialize (Hlt (removable_listed _ _ He)). lia. }
  destruct endpoints; exact Hbody.
Qed.

End GatewayFacts.

Example branch_pruned_bottom_up :
  let targets := [Sample.recorded "GET" "/a" "a" "none"; Sample.recorded "GET" "/a/b" "b" "none"] in
  let r := removeResources Gateway.react 4 "api" targets Sample.branch in
  calls (trace r)
  = [getResources "api"; deleteResource "api" (PStr "b");
     getResources "api"; deleteResource "api" (PStr "a");
     getResources "api"]
  /\ Gateway.resources (final r) = [Sample.root].
Proof. cbv zeta. repeat split; by_evaluation. Qed.

Example absent_node_removed :
  let r := runTask Gateway.react (removeResource "api" (Sample.recorded "GET" "/gone" "gone" "none"))
             Sample.api in
  outcome r = Ok ∅
  /\ trace r = [EvCall (deleteResource "api" (PStr "gone")) (inl Gateway.notFound)].
Proof. cbv zeta. split; by_evaluation. Qed.

(** ** Garbage collection: [removeOutdatedEndpoints] *)

Lemma find_existsb {A} (f : A -> bool) (l : list A) : is_Some_b (List.find f l) = existsb f l.
Proof. induction l as [|a l IH]; cbn; [done|]. destruct (f a); cbn; done. Qed.

(** The two lists the loop fills. *)
Lemma outdated_filters (desired recorded : list object) :
  outdated desired recorded
  = (List.filter (fun e => negb (endpoint_in_use desired e)) recorded,
     List.filter (fun e => endpoint_in_use desired e && negb (authorizer_in_use desired e))
       recorded).
Proof.
  induction recorded as [|e recorded IH]; [reflexivity|].
  cbn [outdated List.filter]. rewrite IH, !find_existsb.
  fold (endpoint_in_use desired e). fold (authorizer_in_use desired e).
  destruct (endpoint_in_use desired e), (authorizer_in_use desired e); reflexivity.
Qed.

(** C1: the code runs the node pass before it removes the methods.
    Against any remote system the trace of [removeOutdatedEndpoints] is
    the listings and node deletions first, the method deletions second
    and the authorizer requests last.  On the gateway with [GET /old],
    that endpoint recorded and nothing desired, the listing so finds the
    method still on [/old] and no node is deleted; the method is deleted
    next; [/old] is left behind without a method. *)
Theorem resources_before_methods {W : Type} (remote : Call -> W -> (JsError + Response) * W)
    (fuel : nat) (apiId : string) (desired recorded : list object) (w : W) :
  (exists nodes methods authorizers,
     trace (removeOutdatedEndpoints remote fuel apiId desired recorded w)
       = nodes ++ methods ++ authorizers
     /\ all_calls (node_request apiId) nodes
     /\ all_calls (method_request apiId (fst (outdated desired recorded))) methods
     /\ all_calls (authorizer_request apiId (snd (outdated desired recorded))) authorizers)
  /\ (let r := removeOutdatedEndpoints Gateway.react 3 "api" [] [Sample.staleWithAuthorizer]
                 Sample.api in
      outcome r = Ok [Sample.staleWithAuthorizer]
      /\ calls (trace r) = [getResources "api"; deleteMethod "api" (PStr "old") (PStr "GET")]
      /\ Gateway.resources (final r)
         = [Sample.root; mkResource "old" "/old" (Some "root") (Some []); Sample.items]).
Proof.
  split; [apply removeOutdatedEndpoints_phases|].
  cbv zeta. repeat split; by_evaluation.
Qed.

Example methods_then_resources :
  let r := (removeMethods Gateway.react "api" [Sample.staleWithAuthorizer] ;;;
            removeResources Gateway.react 3 "api" [Sample.staleWithAuthorizer]) Sample.api in
  calls (trace r)
  = [deleteMethod "api" (PStr "old") (PStr "GET"); getResources "api";
     deleteResource "api" (PStr "old"); getResources "api"]
  /\ Gateway.resources (final r) = [Sample.root; Sample.items].
Proof. cbv zeta. repeat split; by_evaluation. Qed.

(** C3, as stated, fails: the recorded endpoint [GET /old] is stale and
    its authorizer is that of no desired endpoint, yet it is not in the
    list to detach; no request touches the authorizer, which stays. *)
Lemma stale_authorizer_kept :
  let r := removeOutdatedEndpoints Gateway.react 3 "api" [] [Sample.staleWithAuthorizer]
             Sample.api in
  List.filter (fun e => negb (authorizer_in_use [] e)) [Sample.staleWithAuthorizer]
    = [Sample.staleWithAuthorizer]
  /\ snd (outdated [] [Sample.staleWithAuthorizer]) = []
  /\ outcome r = Ok [Sample.staleWithAuthorizer]
  /\ Gateway.authorizers (final r) = ["auth1"]
  /\ calls (trace r) = [getResources "api"; deleteMethod "api" (PStr "old") (PStr "GET")].
Proof. cbv zeta. repeat split; by_evaluation. Qed.

Example unused_authorizer_detached :
  let kept := Sample.recorded "GET" "/items" "items" "auth1" in
  let desired := [Sample.recorded "GET" "/items" "items" "auth2"] in
  let r := removeOutdatedEndpoints Gateway.react 3 "api" desired [kept] Sample.api in
  calls (trace r)
  = [getResources "api";
     updateMethod (PStr "GET") (PStr "items") "api" [replaceAuthorizationType "NONE"];
     deleteAuthorizer "api" (PStr "auth1")]
  /\ Gateway.authorizers (final r) = [].
Proof. cbv zeta. repeat split; by_evaluation. Qed.

Example detaching_in_queue_order :
  let first := Sample.recorded "GET" "/items" "items" "auth1" in
  let second := Sample.recorded "GET" "/old" "old" "auth1" in
  calls (trace (removeAuthorizers Gateway.react "api" [first; second] Sample.api))
  = [updateMethod (PStr "GET") (PStr "items") "api" [replaceAuthorizationType "NONE"];
     updateMethod (PStr "GET") (PStr "old") "api" [replaceAuthorizationType "NONE"];
     deleteAuthorizer "api" (PStr "auth1");
     deleteAuthorizer "api" (PStr "auth1")].
Proof. cbv zeta. by_evaluation. Qed.

(** ** The request queue *)

Module SchedulerFacts.
Import Scheduler.

Lemma invariant_initial : invariant initial.
Proof. split; cbn; done || lia. Qed.

(** A run of [processNextQueueElement] no earlier than [MIN_DELAY] after
    the latest start keeps the invariant. *)
Lemma invariant_process (q : Queue) :
  invariant q ->
  match started q with
  | [] => True
  | (_, t) :: _ => t + MIN_DELAY <= now q
  end ->
  invariant (processNextQueueElement q).
Proof.
  intros [Hc Hm Hs Hg] Hnow. unfold processNextQueueElement.
  destruct (requestQueue q) as [|next rest].
  - split; cbn; try done.
  - destruct (concurrency q <? MAX_CONCURRENCY)%nat eqn:Hlt.
    + apply Nat.ltb_lt in Hlt.
      split; cbn.
      * rewrite length_app. cbn. lia.
      * unfold MAX_CONCURRENCY in *. lia.
      * destruct (started q) as [|[op t] l]; [done|]. split; [done|]. exact Hs.
      * unfold timer_guards. cbn. lia.
    + split; cbn; try done. unfold timer_guards. cbn.
      destruct (started q) as [|[op t] l]; [done|]. unfold MIN_DELAY in *. lia.
Qed.

Lemma invariant_step (q q' : Queue) : invariant q -> step q q' -> invariant q'.
Proof.
  intros Hinv Hstep.
  destruct Hstep as [q d Hd|q operation|q due Hdue Hnow|q operation before after Hrun].
  - destruct Hinv as [Hc Hm Hs Hg]. split; cbn; try done.
    unfold timer_guards in *. cbn. destruct (started q) as [|[op t] l]; [done|].
    destruct (timeout q); lia.
  - unfold submit. cbn [timeout].
    destruct (timeout q) as [due|] eqn:Ht.
    + destruct Hinv as [Hc Hm Hs Hg]. split; cbn; try done.
      unfold timer_guards in *. cbn. by rewrite Ht in *.
    + apply invariant_process.
      * destruct Hinv as [Hc Hm Hs Hg]. split; cbn; try done.
        unfold timer_guards in *. cbn. by rewrite Ht in *.
      * cbn. destruct Hinv as [_ _ _ Hg]. unfold timer_guards in Hg. rewrite Ht in Hg.
        by destruct (started q) as [|[]].
  - apply invariant_process; [done|].
    destruct Hinv as [_ _ _ Hg]. unfold timer_guards in Hg. rewrite Hdue in Hg.
    destruct (started q) as [|[op t] l]; [done|]. lia.
  - destruct Hinv as [Hc Hm Hs Hg]. split; cbn; try done.
    + rewrite Hc, Hrun, !length_app. cbn. lia.
    + lia.
Qed.

Lemma invariant_reachable (q : Queue) : reachable q -> invariant q.
Proof.
  induction 1 as [|q q' _ IH Hstep]; [apply invariant_initial|].
  by apply (invariant_step q).
Qed.

Lemma busyQueue_reachable : reachable Sample.busyQueue.
Proof.
  assert (reachable (mkQueue 0 [] 1 (Some 200) [0%nat] [(0%nat, 0)])) as H1.
  { apply (reach_step _ _ reach_initial (step_submit _ 0)). }
  assert (reachable (mkQueue 0 [1%nat] 1 (Some 200) [0%nat] [(0%nat, 0)])) as H2.
  { apply (reach_step _ _ H1 (step_submit _ 1)). }
  assert (reachable (mkQueue 0 [1%nat; 2%nat] 1 (Some 200) [0%nat] [(0%nat, 0)])) as H3.
  { apply (reach_step _ _ H2 (step_submit _ 2)). }
  assert (reachable (mkQueue 200 [1%nat; 2%nat] 1 (Some 200) [0%nat] [(0%nat, 0)])) as H4.
  { apply (reach_step _ _ H3 (step_time _ 200 ltac:(lia))). }
  assert (reachable (mkQueue 200 [1%nat; 2%nat] 0 (Some 200) [] [(0%nat, 0)])) as H5.
  { match type of H4 with
    | reachable ?q => exact (reach_step q _ H4 (step_settle q 0%nat [] [] eq_refl))
    end. }
  match type of H5 with
  | reachable ?q =>
      exact (reach_step q _ H5 (step_timer q 200 eq_refl ltac:(cbn; lia)))
  end.
Qed.

End SchedulerFacts.

(** C9.  In every state the queue can reach, by submissions, timers,
    settlements and the passing of time in any order, the operations that
    are started and not settled are at most [MAX_CONCURRENCY] (one), and
    any two consecutive starts are at least [MIN_DELAY] (200 ms) apart.
    Time is the clock of the model: a callback runs to its end at one
    instant and a timer fires no earlier than it is due. *)
Theorem scheduler_throttles (q : Scheduler.Queue) :
  Scheduler.reachable q ->
  (length (Scheduler.running q) <= Scheduler.MAX_CONCURRENCY)%nat
  /\ Scheduler.spaced (Scheduler.started q).
Proof.
  intros [Hc Hm Hs _]%SchedulerFacts.invariant_reachable. split; [lia|done].
Qed.

Lemma scheduler_throttles_witness :
  (length (Scheduler.running Sample.busyQueue) <= Scheduler.MAX_CONCURRENCY)%nat
  /\ Scheduler.spaced (Scheduler.started Sample.busyQueue).
Proof.
  apply (scheduler_throttles Sample.busyQueue SchedulerFacts.busyQueue_reachable).
Defined.

(** * Further facts *)

(** ** Sequencing and tasks, by equations *)

Section BatchFacts.
Context {W : Type} (remote : Call -> W -> (JsError + Response) * W).

Lemma becomes_trans {A} (tr : list Event) (t1 t2 t3 : Task A) :
  becomes tr t1 t2 -> becomes tr t2 t3 -> becomes tr t1 t3.
Proof.
  induction 1 as [t|c k r t Hr H IH]; [done|]. intros H3.
  eapply becomes_await; [exact Hr|]. by apply IH.
Qed.

Lemma becomes_mono {A} (tr tr' : list Event) (t1 t2 : Task A) :
  (forall ev, ev ∈ tr -> ev ∈ tr') -> becomes tr t1 t2 -> becomes tr' t1 t2.
Proof.
  intros Hsub. induction 1 as [t|c k r t Hr H IH]; [constructor|].
  eapply becomes_await; [by apply Hsub | done].
Qed.

Lemma becomes_settled {A} (tr : list Event) (t1 t2 : Task A) :
  becomes tr t1 t2 -> settled t1 = true -> t2 = t1.
Proof. by destruct 1. Qed.

Lemma bind_unfold {A B} (m : M W A) (k : A -> M W B) (w : W) :
  bind m k w
  = match outcome (m w) with
    | Ok a => mkRun (outcome (k a (final (m w)))) (final (k a (final (m w))))
                (trace (m w) ++ trace (k a (final (m w))))
    | Throw e => mkRun (Throw e) (final (m w)) (trace (m w))
    | Diverge => mkRun Diverge (final (m w)) (trace (m w))
    end.
Proof. reflexivity. Qed.

Lemma try_catch_unfold {A} (m : M W A) (h : JsError -> M W A) (w : W) :
  try_catch m h w
  = match outcome (m w) with
    | Throw e => mkRun (outcome (h e (final (m w)))) (final (h e (final (m w))))
                   (trace (m w) ++ trace (h e (final (m w))))
    | _ => m w
    end.
Proof. reflexivity. Qed.

Lemma settle_unfold {A} (m : M W A) (w : W) :
  settle m w
  = match outcome (m w) with
    | Ok a => mkRun (Ok (inr a)) (final (m w)) (trace (m w))
    | Throw e => mkRun (Ok (inl e)) (final (m w)) (trace (m w))
    | Diverge => mkRun Diverge (final (m w)) (trace (m w))
    end.
Proof. reflexivity. Qed.

Lemma failed_attempts_answers (c : Call) (errors : list JsError) (last r : JsError + Response) :
  forall t,
    r ∈ map inl errors ++ [last] ->
    EvCall c r ∈ failed_attempts c t 2 errors ++ [EvCall c last].
Proof.
  induction errors as [|e errors IH]; intros t; cbn.
  - intros ->%list_elem_of_singleton. left.
  - intros [-> | Hin]%elem_of_cons; [left|]. right. right. by apply IH.
Qed.

(** The run of a throttled request: it ends as one of its attempts was
    settled, and every attempt is of that request. *)
Lemma throttle_run (c : Call) (w : W) :
  exists r w1 t1,
    throttleAwsRequestRequest remote c w = mkRun (settlement r) w1 t1
    /\ EvCall c r ∈ t1
    /\ (forall c', c' ∈ calls t1 -> c' = c).
Proof.
  destruct (pRetry_from_spec remote c 5 [] 1000 w)
    as (errors & last & Ht & _ & _ & Hout & _).
  pose proof (throttle_calls remote (fun x => x = c) c w eq_refl) as Hall.
  rewrite <- throttle_unfold in Ht, Hout.
  destruct (throttleAwsRequestRequest remote c w) as [o w1 t1]. cbn [outcome trace] in *.
  exists (settled_with ([] ++ errors) last), w1, t1. subst o. split; [done|]. split.
  - rewrite Ht. apply failed_attempts_answers, settled_with_attempt.
  - intros c' Hc. unfold calls in Hc. apply list_elem_of_omap in Hc as (ev & Hev & Hsome).
    destruct ev as [c1 r1| |]; try discriminate. injection Hsome as ->.
    unfold all_calls in Hall. by apply (proj1 (Forall_forall _ _) Hall) in Hev.
Qed.

(** A task that waits for a request, run on its own. *)
Lemma runTask_Await {A} (c : Call) (k : JsError + Response -> Task A) (w : W) :
  exists r w1 t1,
    throttleAwsRequestRequest remote c w = mkRun (settlement r) w1 t1
    /\ EvCall c r ∈ t1
    /\ runTask remote (Await c k) w
       = mkRun (outcome (runTask remote (k r) w1)) (final (runTask remote (k r) w1))
           (t1 ++ trace (runTask remote (k r) w1)).
Proof.
  destruct (throttle_run c w) as (r & w1 & t1 & HT & Hin & _).
  exists r, w1, t1. split; [done|]. split; [done|].
  cbn [runTask]. rewrite bind_unfold, settle_unfold, HT.
  by destruct r as [e|v].
Qed.

(** One turn of the queue for a waiting task at the head. *)
Lemma round_Await_run {A} (c : Call) (k : JsError + Response -> Task A)
    (rest : list (Task A)) (w : W) :
  exists r w1 t1,
    EvCall c r ∈ t1 /\ (forall c', c' ∈ calls t1 -> c' = c)
    /\ round remote (Await c k :: rest) w
       = match outcome (round remote rest w1) with
         | Ok rest' => mkRun (Ok (k r :: rest')) (final (round remote rest w1))
                         (t1 ++ trace (round remote rest w1))
         | Throw e => mkRun (Throw e) (final (round remote rest w1))
                        (t1 ++ trace (round remote rest w1))
         | Diverge => mkRun Diverge (final (round remote rest w1))
                        (t1 ++ trace (round remote rest w1))
         end.
Proof.
  destruct (throttle_run c w) as (r & w1 & t1 & HT & Hin & Hcalls).
  exists r, w1, t1. split; [done|]. split; [done|].
  rewrite round_Await, bind_unfold, settle_unfold, HT.
  destruct r as [e|v]; cbn [settlement outcome final trace].
  - rewrite bind_unfold. destruct (round remote rest w1) as [[rest'|e'|] w2 t2];
      cbn [outcome final trace ret]; by rewrite ?app_nil_r.
  - rewrite bind_unfold. destruct (round remote rest w1) as [[rest'|e'|] w2 t2];
      cbn [outcome final trace ret]; by rewrite ?app_nil_r.
Qed.

(** One turn of the queue for a settled task at the head. *)
Lemma round_settled_run {A} (t : Task A) (rest : list (Task A)) (w : W) :
  settled t = true ->
  round remote (t :: rest) w
  = match outcome (round remote rest w) with
    | Ok rest' => mkRun (Ok (t :: rest')) (final (round remote rest w))
                    (trace (round remote rest w))
    | Throw e => mkRun (Throw e) (final (round remote rest w)) (trace (round remote rest w))
    | Diverge => mkRun Diverge (final (round remote rest w)) (trace (round remote rest w))
    end.
Proof.
  intros Hs. destruct t as [a|e|c k]; [| |done].
  - cbn [round]. rewrite bind_unfold. destruct (round remote rest w) as [[rest'|e'|] w2 t2];
      cbn [outcome final trace ret]; by rewrite ?app_nil_r.
  - cbn [round]. rewrite bind_unfold. destruct (round remote rest w) as [[rest'|e'|] w2 t2];
      cbn [outcome final trace ret]; by rewrite ?app_nil_r.
Qed.

Lemma round_ok {A} (tasks : list (Task A)) :
  forall w, exists tasks', outcome (round remote tasks w) = Ok tasks'.
Proof.
  induction tasks as [|t tasks IH]; intros w; [by exists []|].
  destruct (settled t) eqn:Hs.
  - rewrite (round_settled_run _ _ _ Hs). destruct (IH w) as (tasks' & Hout).
    rewrite Hout. by eexists.
  - destruct t as [a|e|c k]; try discriminate.
    destruct (round_Await_run c k tasks w) as (r & w1 & t1 & _ & _ & ->).
    destruct (IH w1) as (tasks' & Hout). rewrite Hout. by eexists.
Qed.

(** A turn of the queue takes every task to what it goes on to. *)
Lemma round_becomes {A} (tasks : list (Task A)) :
  forall w tasks',
    outcome (round remote tasks w) = Ok tasks' ->
    Forall2 (becomes (trace (round remote tasks w))) tasks tasks'.
Proof.
  induction tasks as [|t tasks IH]; intros w tasks'.
  - intros [= <-]. constructor.
  - destruct (settled t) eqn:Hs.
    + rewrite (round_settled_run _ _ _ Hs). destruct (round_ok tasks w) as (tasks1 & Hout).
      specialize (IH w tasks1 Hout). rewrite Hout. cbn [outcome trace]. intros [= <-].
      constructor; [constructor | done].
    + destruct t as [a|e|c k]; try discriminate.
      destruct (round_Await_run c k tasks w) as (r & w1 & t1 & Hin & _ & ->).
      destruct (round_ok tasks w1) as (tasks1 & Hout).
      specialize (IH w1 tasks1 Hout). rewrite Hout. cbn [outcome trace]. intros [= <-].
      constructor.
      * eapply becomes_await; [|constructor]. apply elem_of_app. by left.
      * eapply Forall2_impl; [exact IH|]. intros x y.
        apply becomes_mono. intros ev Hev. apply elem_of_app. by right.
Qed.

(** The requests of a turn of the queue are those of the waiting tasks. *)
Lemma round_requests {A} (tasks : list (Task A)) :
  forall w c, c ∈ calls (trace (round remote tasks w)) -> exists k, Await c k ∈ tasks.
Proof.
  induction tasks as [|t tasks IH]; intros w c.
  - by intros ?%elem_of_nil.
  - destruct (settled t) eqn:Hs.
    + rewrite (round_settled_run _ _ _ Hs). destruct (round_ok tasks w) as (tasks1 & Hout).
      rewrite Hout. cbn [trace]. intros (k & Hk)%IH. exists k. by right.
    + destruct t as [a|e|c0 k]; try discriminate.
      destruct (round_Await_run c0 k tasks w) as (r & w1 & t1 & _ & Hcalls & ->).
      destruct (round_ok tasks w1) as (tasks1 & Hout). rewrite Hout. cbn [trace].
      rewrite calls_app. intros [Hc | Hc]%elem_of_app.
      * apply Hcalls in Hc as ->. exists k. by left.
      * apply IH in Hc as (k' & Hk'). exists k'. by right.
Qed.

(** A turn of the queue sends the request of every waiting task. *)
Lemma round_sends {A} (tasks : list (Task A)) :
  forall w c k, Await c k ∈ tasks -> c ∈ calls (trace (round remote tasks w)).
Proof.
  induction tasks as [|t tasks IH]; intros w c k Hin; [by apply elem_of_nil in Hin|].
  destruct (settled t) eqn:Hs.
  - rewrite (round_settled_run _ _ _ Hs). destruct (round_ok tasks w) as (tasks1 & Hout).
    rewrite Hout. cbn [trace]. apply elem_of_cons in Hin as [<- | Hin]; [done|].
    by eapply IH.
  - destruct t as [a|e|c0 k0]; try discriminate.
    destruct (round_Await_run c0 k0 tasks w) as (r & w1 & t1 & Hev & _ & ->).
    destruct (round_ok tasks w1) as (tasks1 & Hout). rewrite Hout. cbn [trace].
    rewrite calls_app. apply elem_of_app. apply elem_of_cons in Hin as [[= -> _] | Hin].
    + left. unfold calls. apply list_elem_of_omap. by exists (EvCall c0 r).
    + right. by eapply IH.
Qed.

Lemma first_rejected_elem {A} (tasks : list (Task A)) (e : JsError) :
  first_rejected tasks = Some e -> Reject e ∈ tasks.
Proof.
  induction tasks as [|t tasks IH]; [done|]. destruct t as [a|e'|c k]; cbn.
  - intros H. right. by apply IH.
  - intros [= ->]. left.
  - intros H. right. by apply IH.
Qed.

Lemma settled_values {A} (tasks : list (Task A)) :
  forallb settled tasks = true -> first_rejected tasks = None ->
  Forall2 (fun t a => t = Resolve a) tasks (values tasks).
Proof.
  induction tasks as [|t tasks IH]; [constructor|]. destruct t as [a|e|c k]; cbn; try done.
  intros Hs Hr. constructor; [done|]. by apply IH.
Qed.

Lemma Forall2_becomes_trans {A} (tr : list Event) (l1 l2 l3 : list (Task A)) :
  Forall2 (becomes tr) l1 l2 -> Forall2 (becomes tr) l2 l3 -> Forall2 (becomes tr) l1 l3.
Proof.
  intros H. revert l3. induction H as [|t1 t2 l1 l2 Ht _ IH]; intros l3 H3.
  - by inversion H3.
  - inversion H3; subst. constructor; [by eapply becomes_trans | by apply IH].
Qed.

Lemma Forall2_becomes_elem {A} (tr : list Event) (l1 l2 : list (Task A)) (t2 : Task A) :
  Forall2 (becomes tr) l1 l2 -> t2 ∈ l2 -> exists t1, t1 ∈ l1 /\ becomes tr t1 t2.
Proof.
  induction 1 as [|a b l1 l2 Hab _ IH]; [by intros ?%elem_of_nil|].
  intros [-> | Hin]%elem_of_cons.
  - exists a. split; [left | done].
  - destruct (IH Hin) as (t1 & H1 & Hb). exists t1. split; [by right | done].
Qed.

Lemma Forall2_becomes_refl {A} (tr : list Event) (l : list (Task A)) :
  Forall2 (becomes tr) l l.
Proof. induction l; constructor; [constructor | done]. Qed.

(** What [drain] ends with: every task settled, each what the task it was
    has come to; the rejection is the one handed in, or that of a task;
    and every request sent was the pending one of a task. *)
Lemma drain_ends {A} (n : nat) :
  forall (rejected : option JsError) (tasks : list (Task A)) (w : W) rej ts,
    outcome (drain remote n rejected tasks w) = Ok (rej, ts) ->
    let tr := trace (drain remote n rejected tasks w) in
    Forall2 (becomes tr) tasks ts
    /\ forallb settled ts = true
    /\ match rej with
       | Some x => rejected = Some x
                   \/ (rejected = None /\ exists t, t ∈ tasks /\ becomes tr t (Reject x))
       | None => rejected = None /\ first_rejected ts = None
       end.
Proof.
  induction n as [|n IH]; intros rejected tasks w rej ts.
  - cbn [drain]. destruct (forallb settled tasks) eqn:Hs; [|discriminate].
    cbn [outcome trace ret]. intros [= <- <-]. split; [|split; [done|]].
    { apply Forall2_becomes_refl. }
    destruct rejected as [x|]; [by left|].
    destruct (first_rejected tasks) as [x|] eqn:Hf; [|done].
    right. split; [done|]. exists (Reject x). split; [by apply first_rejected_elem | constructor].
  - rewrite drain_S. destruct (forallb settled tasks) eqn:Hs.
    + cbn [outcome trace ret]. intros [= <- <-]. split; [|split; [done|]].
      { apply Forall2_becomes_refl. }
      destruct rejected as [x|]; [by left|].
      destruct (first_rejected tasks) as [x|] eqn:Hf; [|done].
      right. split; [done|]. exists (Reject x). split; [by apply first_rejected_elem | constructor].
    + destruct (round_ok tasks w) as (tasks1 & Hout).
      rewrite (bind_ok _ _ _ _ Hout). cbn [outcome trace]. intros Hd.
      apply IH in Hd as (Hb & Hset & Hrej).
      pose proof (round_becomes _ _ _ Hout) as Hb1.
      set (tr1 := trace (round remote tasks w)) in *.
      set (tr2 := trace (drain remote n _ tasks1 _)) in *.
      assert (forall t1 t2 : Task A, becomes tr1 t1 t2 -> becomes (tr1 ++ tr2) t1 t2) as Hl.
      { intros t1 t2. apply becomes_mono. intros ev Hev. apply elem_of_app. by left. }
      assert (forall t1 t2 : Task A, becomes tr2 t1 t2 -> becomes (tr1 ++ tr2) t1 t2) as Hr.
      { intros t1 t2. apply becomes_mono. intros ev Hev. apply elem_of_app. by right. }
      split; [|split; [done|]].
      { eapply Forall2_becomes_trans; (eapply Forall2_impl; [eassumption|]); done. }
      destruct rej as [x|].
      * destruct rejected as [y|].
        { destruct Hrej as [Hrej | [Hrej _]]; [left; congruence | discriminate]. }
        right. split; [done|].
        destruct Hrej as [Hrej | [Hrej (t & Hin & Hbt)]].
        -- exists (Reject x). split; [by apply first_rejected_elem | constructor].
        -- destruct (Forall2_becomes_elem _ _ _ _ Hb1 Hin) as (t0 & Hin0 & Hb0).
           exists t0. split; [done|]. eapply becomes_trans; [by apply Hl | by apply Hr].
      * destruct Hrej as [Hrej Hnone]. destruct rejected; [discriminate|]. done.
Qed.

Lemma drain_never_throws {A} (n : nat) :
  forall (rejected : option JsError) (tasks : list (Task A)) (w : W) e,
    outcome (drain remote n rejected tasks w) <> Throw e.
Proof.
  induction n as [|n IH]; intros rejected tasks w e.
  - cbn [drain]. by destruct (forallb settled tasks).
  - rewrite drain_S. destruct (forallb settled tasks); [done|].
    destruct (round_ok tasks w) as (tasks1 & Hout).
    rewrite (bind_ok _ _ _ _ Hout). cbn [outcome]. apply IH.
Qed.

(** Every request [drain] sends is the pending one of what a task has
    come to. *)
Lemma drain_requests {A} (n : nat) :
  forall (rejected : option JsError) (tasks : list (Task A)) (w : W) c,
    let tr := trace (drain remote n rejected tasks w) in
    c ∈ calls tr -> exists t k, t ∈ tasks /\ becomes tr t (Await c k).
Proof.
  induction n as [|n IH]; intros rejected tasks w c; cbv zeta.
  - cbn [drain]. destruct (forallb settled tasks); by intros ?%elem_of_nil.
  - rewrite drain_S. destruct (forallb settled tasks); [by intros ?%elem_of_nil|].
    destruct (round_ok tasks w) as (tasks1 & Hout).
    rewrite (bind_ok _ _ _ _ Hout). cbn [trace].
    pose proof (round_becomes _ _ _ Hout) as Hb1.
    set (tr1 := trace (round remote tasks w)) in *.
    rewrite calls_app. intros [Hc | Hc]%elem_of_app.
    + apply round_requests in Hc as (k & Hk). exists (Await c k), k. split; [done|constructor].
    + apply IH in Hc as (t & k & Hin & Hb).
      destruct (Forall2_becomes_elem _ _ _ _ Hb1 Hin) as (t0 & Hin0 & Hb0).
      exists t0, k. split; [done|]. eapply becomes_trans.
      * eapply becomes_mono; [|exact Hb0]. intros ev Hev. apply elem_of_app. by left.
      * eapply becomes_mono; [|exact Hb]. intros ev Hev. apply elem_of_app. by right.
Qed.

Lemma promiseAll_trace {A} (n : nat) (tasks : list (Task A)) (w : W) :
  trace (promiseAll remote n tasks w) = trace (drain remote n None tasks w).
Proof.
  unfold promiseAll, bind.
  destruct (outcome (drain remote n None tasks w)) as [[[e|] ts]| |]; cbn [trace]; try done.
  - cbn [fst throw trace]. apply app_nil_r.
  - cbn [fst ret trace]. apply app_nil_r.
Qed.

(** [Promise.all] resolves to what its tasks have resolved to, in their
    order. *)
Lemma promiseAll_resolves {A} (n : nat) (tasks : list (Task A)) (w : W) (l : list A) :
  outcome (promiseAll remote n tasks w) = Ok l ->
  Forall2 (fun t a => becomes (trace (promiseAll remote n tasks w)) t (Resolve a)) tasks l.
Proof.
  rewrite promiseAll_trace. unfold promiseAll, bind.
  destruct (outcome (drain remote n None tasks w)) as [[rej ts]| |] eqn:Hd; [|done..].
  apply drain_ends in Hd as (Hb & Hs & Hrej). cbn [fst snd].
  destruct rej as [x|]; [done|]. cbn [outcome ret]. intros [= <-].
  destruct Hrej as [_ Hnone]. pose proof (settled_values ts Hs Hnone) as Hv.
  clear Hs Hnone. revert Hv. generalize (values ts) as vs.
  revert Hb. generalize (trace (drain remote n None tasks w)) as tr. intros tr Hb.
  induction Hb as [|t t' l1 l2 Ht _ IH]; intros vs Hv; inversion Hv; subst; constructor.
  - done.
  - by apply IH.
Qed.

(** [Promise.all] is rejected only with the rejection of one of its
    tasks. *)
Lemma promiseAll_rejects {A} (n : nat) (tasks : list (Task A)) (w : W) (x : JsError) :
  outcome (promiseAll remote n tasks w) = Throw x ->
  exists t, t ∈ tasks /\ becomes (trace (promiseAll remote n tasks w)) t (Reject x).
Proof.
  rewrite promiseAll_trace. unfold promiseAll, bind.
  destruct (outcome (drain remote n None tasks w)) as [[rej ts]|e|] eqn:Hd.
  - apply drain_ends in Hd as (Hb & Hs & Hrej). cbn [fst snd].
    destruct rej as [y|]; [|done]. cbn [outcome throw]. intros [= <-].
    destruct Hrej as [Hrej | [_ Hrej]]; [discriminate | done].
  - by apply drain_never_throws in Hd.
  - done.
Qed.

(** Every request under [Promise.all] is the pending one of what a task
    has come to. *)
Lemma promiseAll_requests {A} (n : nat) (tasks : list (Task A)) (w : W) (c : Call) :
  c ∈ calls (trace (promiseAll remote n tasks w)) ->
  exists t k, t ∈ tasks /\ becomes (trace (promiseAll remote n tasks w)) t (Await c k).
Proof. rewrite promiseAll_trace. apply drain_requests. Qed.

(** The first request of every task is sent, whatever the others come
    to. *)
Lemma promiseAll_sends {A} (n : nat) (tasks : list (Task A)) (w : W) c k :
  Await c k ∈ tasks -> c ∈ calls (trace (promiseAll remote (S n) tasks w)).
Proof.
  intros Hin. rewrite promiseAll_trace, drain_S.
  destruct (forallb settled tasks) eqn:Hs.
  { apply list_elem_of_In in Hin. by apply (proj1 (forallb_forall _ _) Hs) in Hin. }
  destruct (round_ok tasks w) as (tasks1 & Hout).
  rewrite (bind_ok _ _ _ _ Hout). cbn [trace]. rewrite calls_app. apply elem_of_app. left.
  by eapply round_sends.
Qed.

End BatchFacts.

(** ** Validation *)

Section LetterCase.

Lemma upper_ascii_idem (c : ascii) : upper_ascii (upper_ascii c) = upper_ascii c.
Proof. destruct c as [[] [] [] [] [] [] [] []]; reflexivity. Qed.

Lemma toUpperCase_idem (s : string) : toUpperCase (toUpperCase s) = toUpperCase s.
Proof.
  induction s as [|c s IH]; [reflexivity|]. cbn [toUpperCase].
  by rewrite upper_ascii_idem, IH.
Qed.

Lemma truthy_upper (s : string) : truthy (PStr (toUpperCase s)) = truthy (PStr s).
Proof. by destruct s. Qed.

Lemma field_insert (o : object) (k : string) (v : prim) : field (<[ k := v ]> o) k = v.
Proof. unfold field. by rewrite lookup_insert_eq. Qed.

Lemma field_insert_ne (o : object) (k k' : string) (v : prim) :
  k <> k' -> field (<[ k := v ]> o) k' = field o k'.
Proof. intros Hk. unfold field. by rewrite lookup_insert_ne. Qed.

End LetterCase.

(** X1.  The letter case of the declared method does not matter: a
    declaration and the same declaration with its method in upper case
    validate to the same object, or are both refused, for the same reason:
    the two errors have the same text before the declaration each of them
    quotes. *)
Theorem validateEndpointObject_method_case (o : object) (apiId stage region method : string) :
  let given := JObject (<[ "method" := PStr method ]> o) in
  let upper := JObject (<[ "method" := PStr (toUpperCase method) ]> o) in
  match validateEndpointObject given apiId stage region,
        validateEndpointObject upper apiId stage region with
  | inr validated, inr validated' => validated' = validated
  | inl e, inl e' => exists reason, e = ErrorAbout reason given /\ e' = ErrorAbout reason upper
  | _, _ => False
  end.
Proof.
  cbv zeta. unfold validateEndpointObject.
  rewrite !field_insert, !(field_insert_ne _ "method" "path") by done.
  rewrite truthy_upper, toUpperCase_idem.
  destruct (truthy (PStr method)); [|by eexists]. cbn [negb].
  destruct (strict_eq (field o "path") (PStr EmptyString)); [by eexists|].
  destruct (truthy (field o "path")); [|by eexists]. cbn [negb].
  destruct (field o "path") as [| | | |path|]; try by eexists.
  destruct (negb (bool_decide (toUpperCase method ∈ validMethods))); [by eexists|].
  apply map_eq. intros k. rewrite !lookup_union.
  destruct (decide (k = "method")) as [->|Hk].
  - unfold validatedEndpoint. rewrite !lookup_insert_ne by done.
    rewrite lookup_singleton_eq, !lookup_insert_eq. done.
  - by rewrite !(lookup_insert_ne o) by done.
Qed.

Section ValidationRuns.
Context {W : Type} (remote : Call -> W -> (JsError + Response) * W).

(** [getPathId] for an endpoint, from the run of its listing request. *)
Lemma getPathId_run (apiId : string) (endpoint : object) (w : W) :
  getPathId remote apiId (Some endpoint) w
  = let r := throttleAwsRequestRequest remote (getResources apiId) w in
    mkRun
      match outcome r with
      | Ok resourcesResponse =>
          match resp_items resourcesResponse with
          | Some existingEndpoints =>
              Ok match List.find (fun existingEndpoint =>
                            strict_eq (PStr (res_path existingEndpoint)) (field endpoint "path"))
                         existingEndpoints with
                 | Some endpointFound => PStr (res_id endpointFound)
                 | None => PNull
                 end
          | None => Throw (TypeError "Cannot read property 'find' of undefined")
          end
      | Throw e => Throw e
      | Diverge => Diverge
      end (final r) (trace r).
Proof.
  unfold getPathId. rewrite bind_unfold. cbv zeta.
  destruct (throttleAwsRequestRequest remote (getResources apiId) w) as [[resp|e|] w1 t1];
    cbn [outcome final trace]; [|done..].
  destruct (resp_items resp) as [items|]; cbn [outcome final trace throw].
  - destruct (List.find _ items); cbn [outcome final trace ret]; by rewrite app_nil_r.
  - by rewrite app_nil_r.
Qed.

(** [endpointExists], from the runs of its two requests. *)
Lemma endpointExists_run (apiId : string) (endpoint : object) (w : W) :
  endpointExists remote apiId endpoint w
  = let r := getPathId remote apiId (Some endpoint) w in
    match outcome r with
    | Ok resourceId =>
        if negb (truthy resourceId) then mkRun (Ok (PBool false)) (final r) (trace r)
        else
          let r' := throttleAwsRequestRequest remote
                      (getMethod (field endpoint "method") resourceId apiId) (final r) in
          mkRun
            match outcome r' with
            | Ok _ => Ok (PBool true)
            | Throw e => Ok (if has_code e "NotFoundException" then PBool false else PUndefined)
            | Diverge => Diverge
            end (final r') (trace r ++ trace r')
    | Throw e => mkRun (Throw e) (final r) (trace r)
    | Diverge => mkRun Diverge (final r) (trace r)
    end.
Proof.
  unfold endpointExists. rewrite bind_unfold. cbv zeta.
  destruct (getPathId remote apiId (Some endpoint) w) as [[resourceId|e|] w1 t1];
    cbn [outcome final trace]; [|done..].
  destruct (negb (truthy resourceId)); cbn [outcome final trace ret]; [by rewrite app_nil_r|].
  rewrite try_catch_unfold, bind_unfold.
  destruct (throttleAwsRequestRequest remote _ w1) as [[resp|e|] w2 t2];
    cbn [outcome final trace ret]; [by rewrite app_nil_r| |done].
  destruct (has_code e "NotFoundException"); cbn [outcome final trace ret];
    by rewrite app_nil_r.
Qed.

(** [validateEndpoint], from the runs of its two requests. *)
Lemma validateEndpoint_run (apiId : string) (endpoint : jsval) (state : State)
    (stage region : string) (w : W) :
  validateEndpoint remote apiId endpoint state stage region w
  = match validateEndpointObject endpoint apiId stage region with
    | inl e => mkRun (Throw e) w []
    | inr validatedEndpoint =>
        let rejection :=
          ErrorMsg ("endpoint " +:+ to_text (field validatedEndpoint "method") +:+ " "
                    +:+ to_text (field validatedEndpoint "path")
                    +:+ " already exists in provider") in
        let r := throttleAwsRequestRequest remote (getResources apiId) w in
        match outcome r with
        | Ok resourcesResponse =>
            match resp_items resourcesResponse with
            | Some existingEndpoints =>
                let resourceId :=
                  match List.find (fun existingEndpoint =>
                            strict_eq (PStr (res_path existingEndpoint))
                              (field validatedEndpoint "path")) existingEndpoints with
                  | Some endpointFound => PStr (res_id endpointFound)
                  | None => PNull
                  end in
                if negb (truthy resourceId) then mkRun (Ok validatedEndpoint) (final r) (trace r)
                else
                  let r' := throttleAwsRequestRequest remote
                              (getMethod (field validatedEndpoint "method") resourceId apiId)
                              (final r) in
                  mkRun
                    match outcome r' with
                    | Ok _ => if negb (myEndpoint state validatedEndpoint)
                              then Throw rejection else Ok validatedEndpoint
                    | Throw _ => Ok validatedEndpoint
                    | Diverge => Diverge
                    end (final r') (trace r ++ trace r')
            | None =>
                mkRun (Throw (TypeError "Cannot read property 'find' of undefined"))
                  (final r) (trace r)
            end
        | Throw e => mkRun (Throw e) (final r) (trace r)
        | Diverge => mkRun Diverge (final r) (trace r)
        end
    end.
Proof.
  unfold validateEndpoint.
  destruct (validateEndpointObject endpoint apiId stage region) as [e|v]; [reflexivity|].
  rewrite bind_unfold, endpointExists_run, getPathId_run.
  generalize (throttleAwsRequestRequest remote). intros throttled. cbv zeta.
  destruct (throttled (getResources apiId) w) as [[resp|e|] w1 t1];
    cbn [outcome final trace]; [|done..].
  destruct (resp_items resp) as [items|]; cbn [outcome final trace]; [|done].
  destruct (negb (truthy _)); cbn [outcome final trace truthy ret]; [by rewrite app_nil_r|].
  destruct (throttled _ w1) as [[resp'|e|] w2 t2];
    cbn [outcome final trace truthy]; [| |done].
  - destruct (negb (myEndpoint state v)); cbn [outcome final trace ret throw];
      by rewrite app_nil_r.
  - destruct (has_code e "NotFoundException"); cbn [truthy outcome final trace ret];
      by rewrite app_nil_r.
Qed.

(** The task of [validateEndpoints] for one endpoint, run on its own, is
    [validateEndpoint]. *)
Lemma validateEndpointTask_run (apiId : string) (endpoint : jsval) (state : State)
    (stage region : string) (w : W) :
  runTask remote (validateEndpointTask apiId endpoint state stage region) w
  = validateEndpoint remote apiId endpoint state stage region w.
Proof.
  rewrite validateEndpoint_run. unfold validateEndpointTask.
  destruct (validateEndpointObject endpoint apiId stage region) as [e|v]; [reflexivity|].
  cbv zeta.
  match goal with
  | |- runTask _ (Await ?c ?k) _ = _ =>
      destruct (runTask_Await remote c k w) as (r & w1 & t1 & HT & _ & ->)
  end.
  rewrite HT. cbn [outcome final trace].
  destruct r as [e|resp]; cbn [settlement outcome final trace];
    [cbn [runTask throw outcome final trace]; by rewrite app_nil_r|].
  destruct (resp_items resp) as [items|]; cbn [outcome final trace];
    [|cbn [runTask throw outcome final trace]; by rewrite app_nil_r].
  destruct (negb (truthy _));
    [cbn [truthy runTask outcome final trace ret]; by rewrite app_nil_r|].
  match goal with
  | |- context [runTask _ (Await ?c ?k) w1] =>
      destruct (runTask_Await remote c k w1) as (r' & w2 & t2 & HT' & _ & ->)
  end.
  rewrite HT'. cbn [outcome final trace].
  destruct r' as [e|resp']; cbn [settlement outcome final trace].
  - destruct (has_code e "NotFoundException"); cbn [truthy runTask ret outcome final trace];
      by rewrite app_nil_r.
  - cbn [truthy]. destruct (negb (myEndpoint state v));
      cbn [runTask ret throw outcome final trace]; by rewrite app_nil_r.
Qed.

End ValidationRuns.

(** X2.  [validateEndpointObject] accepts exactly the declarations that
    are objects with a string [method] that is one of the eight methods
    in some letter case, and a string [path] that is not empty; anything
    else is refused. *)
Theorem validateEndpointObject_accepts (endpoint : jsval) (apiId stage region : string) :
  (exists validated, validateEndpointObject endpoint apiId stage region = inr validated)
  <-> (exists o method path,
         endpoint = JObject o /\ field o "method" = PStr method /\ field o "path" = PStr path
         /\ path <> EmptyString /\ toUpperCase method ∈ validMethods).
Proof.
  split.
  - intros (v & Hv). apply validate_inv in Hv as (o & method & path & H1 & H2 & H3 & H4 & H5 & _).
    by exists o, method, path.
  - intros (o & method & path & -> & Hm & Hp & Hne & Hv). eexists. by eapply validate_ok.
Qed.

(** X3.  The object [validateEndpointObject] returns has the [url] built
    from the API, the region, the stage and the path it returns, and
    every property of the declaration other than [url], [path] and
    [method] as it was declared. *)
Theorem validateEndpointObject_spread (o : object) (apiId stage region : string)
    (validated : object) :
  validateEndpointObject (JObject o) apiId stage region = inr validated ->
  field validated "url"
  = PStr ("https://" +:+ apiId +:+ ".execute-api." +:+ region +:+ ".amazonaws.com/"
          +:+ stage +:+ to_text (field validated "path"))
  /\ forall k, k <> "url" -> k <> "path" -> k <> "method" -> validated !! k = o !! k.
Proof.
  intros Hv. apply validate_inv in Hv as (o' & method & path & [= <-] & _ & _ & _ & _ & ->).
  rewrite validated_path. split.
  - unfold field, validatedEndpoint.
    erewrite lookup_union_Some_l; [reflexivity|]. apply lookup_insert_eq.
  - intros k Hu Hp Hm. apply lookup_union_r. unfold validatedEndpoint.
    rewrite !lookup_insert_ne by done. by apply lookup_singleton_ne.
Qed.

Lemma validateEndpointObject_spread_witness :
  field (validatedEndpoint "api" "dev" "us-east-1" "/items" "GET"
           ∪ <[ "function" := PStr "arn" ]> (Sample.endpoint "get" "items/")) "url"
  = PStr ("https://" +:+ "api" +:+ ".execute-api." +:+ "us-east-1" +:+ ".amazonaws.com/"
          +:+ "dev"
          +:+ to_text (field (validatedEndpoint "api" "dev" "us-east-1" "/items" "GET"
                                ∪ <[ "function" := PStr "arn" ]> (Sample.endpoint "get" "items/"))
                         "path"))
  /\ forall k, k <> "url" -> k <> "path" -> k <> "method" ->
       (validatedEndpoint "api" "dev" "us-east-1" "/items" "GET"
          ∪ <[ "function" := PStr "arn" ]> (Sample.endpoint "get" "items/")) !! k
       = (<[ "function" := PStr "arn" ]> (Sample.endpoint "get" "items/")) !! k.
Proof.
  apply (validateEndpointObject_spread
           (<[ "function" := PStr "arn" ]> (Sample.endpoint "get" "items/"))
           "api" "dev" "us-east-1").
  by_evaluation.
Defined.

Section OwnershipFacts.
Context {W : Type} (remote : Call -> W -> (JsError + Response) * W).

Lemma method_found_app (t1 t2 : list Event) :
  method_found (t1 ++ t2) = method_found t1 || method_found t2.
Proof. apply existsb_app. Qed.

Lemma method_found_listing (apiId : string) (w : W) :
  method_found (trace (throttleAwsRequestRequest remote (getResources apiId) w)) = false.
Proof.
  pose proof (throttle_calls remote (fun c => c = getResources apiId) _ w eq_refl) as H.
  unfold method_found. induction H as [|ev t Hev _ IH]; [done|]. cbn [existsb]. rewrite IH.
  destruct ev as [c r| |]; [|done..]. by rewrite Hev.
Qed.

Lemma method_found_rejected (c : Call) (w : W) (e : JsError) :
  outcome (throttleAwsRequestRequest remote c w) = Throw e ->
  method_found (trace (throttleAwsRequestRequest remote c w)) = false.
Proof.
  destruct (pRetry_from_spec remote c 5 [] 1000 w)
    as (errors & last & Ht & _ & _ & Hout & _).
  rewrite throttle_unfold, Ht, Hout. intros Hl. destruct last as [e'|v]; [|discriminate].
  rewrite method_found_app. apply orb_false_iff. split; [|by destruct c].
  generalize 1000. clear. unfold method_found.
  induction errors as [|e1 errors IH]; intros t; [done|].
  cbn [failed_attempts existsb]. rewrite IH. by destruct c.
Qed.

End OwnershipFacts.

(** X4.  [validateEndpoint] lets a declaration through only as the object
    [validateEndpointObject] makes of it, and only when the recorded state
    has an endpoint of its method and path or no lookup of the method was
    answered: a method that is found on the gateway and is not on record
    is never accepted. *)
Theorem validateEndpoint_accepts {W : Type} (remote : Call -> W -> (JsError + Response) * W)
    (apiId : string) (endpoint : jsval) (state : State) (stage region : string) (w : W)
    (validated : object) :
  outcome (validateEndpoint remote apiId endpoint state stage region w) = Ok validated ->
  validateEndpointObject endpoint apiId stage region = inr validated
  /\ (myEndpoint state validated = true
      \/ method_found (trace (validateEndpoint remote apiId endpoint state stage region w))
         = false).
Proof.
  rewrite validateEndpoint_run.
  destruct (validateEndpointObject endpoint apiId stage region) as [e|v]; [done|].
  pose proof (method_found_listing remote apiId w) as Hl. cbv zeta.
  destruct (throttleAwsRequestRequest remote (getResources apiId) w) as [[resp|e|] w1 t1];
    cbn [outcome final trace] in *; [|done..].
  destruct (resp_items resp) as [items|]; [|done].
  set (resourceId := match List.find _ items with Some f => PStr (res_id f) | None => PNull end).
  destruct (negb (truthy resourceId)).
  { cbn [outcome trace]. intros [= <-]. split; [done|]. by right. }
  pose proof (method_found_rejected remote (getMethod (field v "method") resourceId apiId) w1)
    as Hm.
  destruct (throttleAwsRequestRequest remote (getMethod _ _ _) w1) as [[resp'|e|] w2 t2];
    cbn [outcome final trace] in *; [| |done].
  - destruct (myEndpoint state v) eqn:Hmy; cbn [negb]; [|done].
    intros [= <-]. split; [done|]. by left.
  - intros [= <-]. split; [done|]. right.
    rewrite method_found_app, Hl. exact (Hm e eq_refl).
Qed.

Lemma validateEndpoint_accepts_witness :
  validateEndpointObject (JObject (Sample.endpoint "get" "items/")) "api" "dev" "us-east-1"
  = inr (validatedEndpoint "api" "dev" "us-east-1" "/items" "GET"
           ∪ Sample.endpoint "get" "items/")
  /\ (myEndpoint (mkState (Some [Sample.recorded "GET" "/items" "items" "auth1"]))
        (validatedEndpoint "api" "dev" "us-east-1" "/items" "GET"
           ∪ Sample.endpoint "get" "items/") = true
      \/ method_found
           (trace (validateEndpoint Gateway.react "api"
                     (JObject (Sample.endpoint "get" "items/"))
                     (mkState (Some [Sample.recorded "GET" "/items" "items" "auth1"]))
                     "dev" "us-east-1" Sample.api))
         = false).
Proof.
  apply (validateEndpoint_accepts Gateway.react "api" (JObject (Sample.endpoint "get" "items/"))
           (mkState (Some [Sample.recorded "GET" "/items" "items" "auth1"]))
           "dev" "us-east-1" Sample.api).
  by_evaluation.
Defined.

Section ValidationBatch.
Context {W : Type} (remote : Call -> W -> (JsError + Response) * W).

Lemma validateEndpointTask_within (apiId : string) (endpoint : jsval) (state : State)
    (stage region : string) :
  within 2 (validateEndpointTask apiId endpoint state stage region).
Proof.
  unfold validateEndpointTask.
  destruct (validateEndpointObject endpoint apiId stage region) as [e|v];
    [by apply within_settled|].
  assert (forall n found,
            within n (if truthy found
                      then if negb (myEndpoint state v)
                           then Reject (ErrorMsg ("endpoint " +:+ to_text (field v "method")
                                                  +:+ " " +:+ to_text (field v "path")
                                                  +:+ " already exists in provider"))
                           else Resolve v
                      else Resolve v)) as Hchecked.
  { intros n found. apply within_settled.
    destruct (truthy found); [|done]. by destruct (negb _). }
  apply within_await. intros [e|resp]; [by apply within_settled|].
  destruct (resp_items resp) as [items|]; [|by apply within_settled].
  destruct (negb (truthy _)); [apply Hchecked|].
  apply within_await. intros [e|resp']; [|apply Hchecked].
  destruct (has_code e _); apply Hchecked.
Qed.

Lemma validateEndpointTask_resolved (tr : list Event) (apiId : string) (endpoint : jsval)
    (state : State) (stage region : string) (validated : object) :
  becomes tr (validateEndpointTask apiId endpoint state stage region) (Resolve validated) ->
  validateEndpointObject endpoint apiId stage region = inr validated.
Proof.
  unfold validateEndpointTask.
  destruct (validateEndpointObject endpoint apiId stage region) as [e|v].
  { by intros ?%becomes_settled. }
  assert (forall t : Task object,
            settled t = true -> (forall v', t = Resolve v' -> v' = v) ->
            becomes tr t (Resolve validated) -> @inr JsError object v = inr validated)
    as Hleaf.
  { intros t Hs Hv Hb. apply becomes_settled in Hb; [|done]. f_equal. symmetry. by apply Hv. }
  assert (forall found,
            let t := if truthy found
                     then if negb (myEndpoint state v)
                          then Reject (ErrorMsg ("endpoint " +:+ to_text (field v "method")
                                                 +:+ " " +:+ to_text (field v "path")
                                                 +:+ " already exists in provider"))
                          else Resolve v
                     else Resolve v in
            settled t = true /\ (forall v', t = Resolve v' -> v' = v)) as Hchecked.
  { intros found. cbv zeta. destruct (truthy found); [|split; [done|congruence]].
    destruct (negb _); split; try done; congruence. }
  inversion 1 as [|c k r t Hr Hk]; subst. destruct r as [e|resp].
  { by apply becomes_settled in Hk. }
  destruct (resp_items resp) as [items|]; [|by apply becomes_settled in Hk].
  destruct (negb (truthy match List.find _ items with
                         | Some f => PStr (res_id f) | None => PNull end)).
  { destruct (Hchecked (PBool false)) as [Hs Hv]. exact (Hleaf _ Hs Hv Hk). }
  inversion Hk as [|c' k' r' t' Hr' Hk']; subst. destruct r' as [e|resp'].
  - destruct (has_code e "NotFoundException").
    + destruct (Hchecked (PBool false)) as [Hs Hv]. exact (Hleaf _ Hs Hv Hk').
    + destruct (Hchecked PUndefined) as [Hs Hv]. exact (Hleaf _ Hs Hv Hk').
  - destruct (Hchecked (PBool true)) as [Hs Hv]. exact (Hleaf _ Hs Hv Hk').
Qed.

(** The rejection [drain] starts with, or the first one among its tasks,
    is the one it ends with. *)
Lemma drain_first_rejected {A} (n : nat) :
  forall (rejected : option JsError) (tasks : list (Task A)) (w : W) rej ts e,
    outcome (drain remote n rejected tasks w) = Ok (rej, ts) ->
    match rejected with Some x => Some x | None => first_rejected tasks end = Some e ->
    rej = Some e.
Proof.
  induction n as [|n IH]; intros rejected tasks w rej ts e.
  - cbn [drain]. destruct (forallb settled tasks); [|done]. cbn [outcome ret].
    by intros [= <- <-].
  - rewrite drain_S. destruct (forallb settled tasks).
    + cbn [outcome ret]. by intros [= <- <-].
    + destruct (round_ok remote tasks w) as (tasks1 & Hout).
      rewrite (bind_ok _ _ _ _ Hout). cbn [outcome]. intros Hd He.
      eapply IH; [exact Hd|]. by rewrite He.
Qed.

End ValidationBatch.

(** X5.  When [validateEndpoints] resolves, it is to the objects
    [validateEndpointObject] makes of the declarations, one for each and
    in their order. *)
Theorem validateEndpoints_results {W : Type} (remote : Call -> W -> (JsError + Response) * W)
    (apiId : string) (endpoints : list jsval) (state : State) (stage region : string) (w : W)
    (validated : list object) :
  outcome (validateEndpoints remote apiId endpoints state stage region w) = Ok validated ->
  Forall2 (fun endpoint v => validateEndpointObject endpoint apiId stage region = inr v)
    endpoints validated.
Proof.
  intros Ho. apply promiseAll_resolves in Ho. revert Ho.
  generalize (trace (promiseAll remote 2
                       (map (fun endpoint => validateEndpointTask apiId endpoint state stage region)
                          endpoints) w)) as tr.
  intros tr. revert validated. induction endpoints as [|e es IH]; intros l Hl.
  - inversion Hl. constructor.
  - inversion Hl as [|t a ts l' Ht Hts]; subst. constructor; [|by apply IH].
    by eapply validateEndpointTask_resolved.
Qed.

Lemma validateEndpoints_results_witness :
  Forall2 (fun endpoint v => validateEndpointObject endpoint "api" "dev" "us-east-1" = inr v)
    [JObject (Sample.endpoint "get" "items/"); JObject (Sample.endpoint "post" "new")]
    [validatedEndpoint "api" "dev" "us-east-1" "/items" "GET" ∪ Sample.endpoint "get" "items/";
     validatedEndpoint "api" "dev" "us-east-1" "/new" "POST" ∪ Sample.endpoint "post" "new"].
Proof.
  apply (validateEndpoints_results Gateway.react "api"
           [JObject (Sample.endpoint "get" "items/"); JObject (Sample.endpoint "post" "new")]
           (mkState (Some [Sample.recorded "GET" "/items" "items" "auth1"]))
           "dev" "us-east-1" Sample.api).
  by_evaluation.
Defined.

(** X6.  The declarations are checked when [validateEndpoints] starts
    them, before any request is answered: when one of them is refused by
    [validateEndpointObject], the batch is rejected with the error of the
    first such declaration in the list, whatever the remote system
    answers about the others. *)
Theorem validateEndpoints_first_invalid {W : Type}
    (remote : Call -> W -> (JsError + Response) * W)
    (apiId : string) (valid : list jsval) (invalid : jsval) (rest : list jsval)
    (state : State) (stage region : string) (w : W) (e : JsError) :
  Forall (fun endpoint => exists v, validateEndpointObject endpoint apiId stage region = inr v)
    valid ->
  validateEndpointObject invalid apiId stage region = inl e ->
  outcome (validateEndpoints remote apiId (valid ++ invalid :: rest) state stage region w)
  = Throw e.
Proof.
  intros Hvalid Hinvalid. unfold validateEndpoints.
  set (tasks := map _ (valid ++ invalid :: rest)).
  assert (first_rejected tasks = Some e) as Hfirst.
  { subst tasks. induction Hvalid as [|x valid [v Hv] _ IH]; cbn [app map first_rejected].
    - unfold validateEndpointTask at 1. by rewrite Hinvalid.
    - unfold validateEndpointTask at 1. by rewrite Hv. }
  assert (Forall (within 2) tasks) as Hwithin.
  { apply Forall_forall. intros t (x & -> & _)%list_elem_of_fmap.
    apply validateEndpointTask_within. }
  unfold promiseAll, bind.
  pose proof (drain_within remote 2 None tasks w Hwithin) as Hd.
  pose proof (drain_never_throws remote 2 None tasks w) as Hn.
  destruct (outcome (drain remote 2 None tasks w)) as [[rej ts]|x|] eqn:Ho;
    [|by destruct (Hn x)|done].
  by rewrite (drain_first_rejected remote _ _ _ _ _ _ e Ho Hfirst).
Qed.

Lemma validateEndpoints_first_invalid_witness :
  outcome (validateEndpoints Gateway.react "api"
             ([JObject (Sample.endpoint "get" "items/")]
              ++ JObject (Sample.endpoint "fetch" "new") :: [JPrim PNull])
             (mkState None) "dev" "us-east-1" Sample.api)
  = Throw (ErrorAbout "invalid method for endpoint" (JObject (Sample.endpoint "fetch" "new"))).
Proof.
  apply (validateEndpoints_first_invalid Gateway.react "api"
           [JObject (Sample.endpoint "get" "items/")]
           (JObject (Sample.endpoint "fetch" "new")) [JPrim PNull]
           (mkState None) "dev" "us-east-1" Sample.api).
  - constructor; [|constructor].
    exists (validatedEndpoint "api" "dev" "us-east-1" "/items" "GET"
              ∪ Sample.endpoint "get" "items/").
    by_evaluation.
  - by_evaluation.
Defined.

(** ** Paths *)

Section Paths.
#[local] Arguments String.append : simpl nomatch.

Lemma string_app_nil_r (s : string) : s +:+ EmptyString = s.
Proof. induction s as [|c s IH]; simpl; [reflexivity|]. by rewrite IH. Qed.

Lemma split_aux_nonempty (sep : ascii) (s cur : string) : split_aux sep s cur <> [].
Proof.
  revert cur. induction s as [|c s IH]; intros cur; simpl; [done|].
  destruct (Ascii.eqb c sep); [done | apply IH].
Qed.

Lemma join_cons (sep p : string) (rest : list string) :
  rest <> [] -> join sep (p :: rest) = p +:+ sep +:+ join sep rest.
Proof. by destruct rest. Qed.

Lemma join_snoc (sep x : string) (l : list string) :
  l <> [] -> join sep (l ++ [x]) = join sep l +:+ sep +:+ x.
Proof.
  induction l as [|p l IH]; [done|]. intros _. destruct l as [|q l]; [reflexivity|].
  change ((p :: q :: l) ++ [x]) with (p :: ((q :: l) ++ [x])).
  rewrite join_cons by done. rewrite IH by done. rewrite (join_cons sep p (q :: l)) by done.
  by rewrite !string_app_assoc.
Qed.

(** Joining the parts of a split with the separator gives the string
    back. *)
Lemma join_split_aux (sep : ascii) (s cur : string) :
  join (String sep EmptyString) (split_aux sep s cur) = cur +:+ s.
Proof.
  revert cur. induction s as [|c s IH]; intros cur; simpl.
  - by rewrite string_app_nil_r.
  - destruct (Ascii.eqb_spec c sep) as [->|Hne].
    + rewrite join_cons by apply split_aux_nonempty. rewrite IH. reflexivity.
    + rewrite IH. rewrite string_app_assoc. reflexivity.
Qed.

Lemma join_split (sep : ascii) (s : string) :
  join (String sep EmptyString) (split sep s) = s.
Proof. unfold split. by rewrite join_split_aux. Qed.

(** What [createPath] takes a path into: the part after its last slash
    and the path before it. *)
Lemma pop_split (path : string) :
  exists pathPart,
    snd (pop (split "/" path)) = Some pathPart
    /\ path = match fst (pop (split "/" path)) with
              | [] => pathPart
              | pathParts => join "/" pathParts +:+ "/" +:+ pathPart
              end.
Proof.
  unfold pop. cbn [fst snd].
  destruct (last (split "/" path)) as [pathPart|] eqn:Hlast.
  - exists pathPart. split; [done|]. apply last_Some in Hlast as [l Hl].
    rewrite Hl, removelast_last. pose proof (join_split "/" path) as Hj. rewrite Hl in Hj.
    destruct l as [|p l]; [done|]. rewrite join_snoc in Hj by done. done.
  - apply last_None in Hlast. by apply split_aux_nonempty in Hlast.
Qed.

Lemma list_ascii_app (s1 s2 : string) :
  list_ascii_of_string (s1 +:+ s2) = list_ascii_of_string s1 ++ list_ascii_of_string s2.
Proof. induction s1 as [|c s1 IH]; simpl; [reflexivity|]. by rewrite IH. Qed.

(** No part of a split holds the separator. *)
Lemma split_aux_parts (sep : ascii) (s cur : string) :
  ~ In sep (list_ascii_of_string cur) ->
  Forall (fun part => ~ In sep (list_ascii_of_string part)) (split_aux sep s cur).
Proof.
  revert cur. induction s as [|c s IH]; intros cur Hcur; simpl.
  - by constructor.
  - destruct (Ascii.eqb_spec c sep) as [->|Hne].
    + constructor; [done|]. apply IH. simpl. tauto.
    + apply IH. rewrite list_ascii_app. simpl. rewrite in_app_iff. simpl. intuition congruence.
Qed.

(** The parent path is empty or shorter than the path. *)
Lemma parent_shorter (path : string) :
  join "/" (removelast (split "/" path)) = EmptyString
  \/ (String.length (join "/" (removelast (split "/" path))) < String.length path)%nat.
Proof.
  destruct (pop_split path) as (pathPart & _ & Hpath). unfold pop in Hpath. cbn [fst] in Hpath.
  destruct (removelast (split "/" path)) as [|p l]; [by left|]. right.
  rewrite Hpath, !string_app_length. cbn [String.length]. lia.
Qed.

Lemma field_singleton (k : string) (v : prim) : field {[ k := v ]} k = v.
Proof. unfold field. by rewrite lookup_singleton_eq. Qed.

End Paths.

Section PathRuns.
Context {W : Type} (remote : Call -> W -> (JsError + Response) * W).

Lemma bind_settles {A B} (m : M W A) (k : A -> M W B) (w : W) :
  outcome (m w) <> Diverge ->
  (forall a, outcome (m w) = Ok a -> outcome (k a (final (m w))) <> Diverge) ->
  outcome (bind m k w) <> Diverge.
Proof.
  intros Hm Hk. unfold bind. destruct (outcome (m w)) as [a| |]; cbn [outcome]; [|done..].
  by apply Hk.
Qed.

Lemma getPathId_settles (apiId : string) (endpoint : option object) (w : W) :
  outcome (getPathId remote apiId endpoint w) <> Diverge.
Proof.
  unfold getPathId. apply bind_settles; [apply throttle_settles|].
  intros resp _. destruct (resp_items resp) as [items|]; [|done].
  destruct endpoint; by destruct (List.find _ items).
Qed.

Lemma getPathId_calls (P : Call -> Prop) (apiId : string) (endpoint : option object) (w : W) :
  P (getResources apiId) -> all_calls P (trace (getPathId remote apiId endpoint w)).
Proof.
  intros HP. unfold getPathId. apply bind_calls; [by apply throttle_calls|].
  intros resp _. destruct (resp_items resp) as [items|]; [|constructor].
  destruct endpoint; destruct (List.find _ items); constructor.
Qed.

End PathRuns.

(** X7.  [createPath] only reads and adds: every request it sends, at
    any depth of the recursion and whatever the answers, is a listing of
    the resources of the API or the creation of a resource in it; it
    never deletes or changes one. *)
Theorem createPath_requests {W : Type} (remote : Call -> W -> (JsError + Response) * W)
    (fuel : nat) (apiId : string) (endpoint : object) (w : W) :
  all_calls (fun c => c = getResources apiId
                      \/ exists pathPart parentId, c = createResource pathPart parentId apiId)
    (trace (createPath remote fuel apiId endpoint w)).
Proof.
  revert endpoint w. induction fuel as [|fuel IH]; intros endpoint w; cbn [createPath].
  - constructor.
  - apply bind_calls; [apply getPathId_calls; by left|].
    intros pathId _. destruct (truthy pathId); [constructor|].
    destruct (field endpoint "path") as [| | | |path|]; try constructor.
    destruct (pop (split "/" path)) as [pathParts pathPart].
    apply bind_calls.
    + destruct (strict_eq _ _); [apply getPathId_calls; by left | apply IH].
    + intros parentId _. apply bind_calls; [apply throttle_calls; right; by eexists _, _|].
      intros created _. constructor.
Qed.

(** X8.  [createPath] ends: the path of the parent endpoint it calls
    itself with is shorter than the path it was given, so the recursion
    is no deeper than the path is long, whatever the remote system
    answers. *)
Theorem createPath_terminates {W : Type} (remote : Call -> W -> (JsError + Response) * W)
    (fuel : nat) (apiId : string) (endpoint : object) (path : string) (w : W) :
  field endpoint "path" = PStr path ->
  (String.length path < fuel)%nat ->
  outcome (createPath remote fuel apiId endpoint w) <> Diverge.
Proof.
  revert endpoint path w. induction fuel as [|fuel IH]; intros endpoint path w Hp Hlen; [lia|].
  cbn [createPath]. apply bind_settles; [apply getPathId_settles|].
  intros pathId _. destruct (truthy pathId); [done|]. rewrite Hp.
  destruct (pop (split "/" path)) as [pathParts pathPart] eqn:Hpop.
  unfold pop in Hpop. injection Hpop as <- <-.
  apply bind_settles.
  - rewrite field_singleton. unfold strict_eq. case_bool_decide as Hparent.
    + apply getPathId_settles.
    + apply (IH _ (join "/" (removelast (split "/" path)))); [apply field_singleton|].
      destruct (parent_shorter path) as [He | Hlt]; [congruence | lia].
  - intros parentId _. apply bind_settles; [apply throttle_settles | done].
Qed.

Lemma createPath_terminates_witness :
  outcome (createPath Gateway.react 5 "api" (Sample.endpoint "GET" "/a/b") Sample.api)
  <> Diverge.
Proof.
  apply (createPath_terminates Gateway.react 5 "api" (Sample.endpoint "GET" "/a/b") "/a/b").
  - by_evaluation.
  - vm_compute. lia.
Defined.

(** X9.  The path of the parent and the path part that [createPath]
    takes from a path make up that path again: the part has no slash and
    is what follows the last slash of the path, the parent path is what
    precedes that slash; a path without a slash is its own part, under an
    empty parent path. *)
Theorem createPath_parts (path : string) :
  exists pathPart,
    snd (pop (split "/" path)) = Some pathPart
    /\ ~ In "/"%char (list_ascii_of_string pathPart)
    /\ path = match fst (pop (split "/" path)) with
              | [] => pathPart
              | pathParts => join "/" pathParts +:+ "/" +:+ pathPart
              end.
Proof.
  destruct (pop_split path) as (pathPart & Hlast & Hpath). exists pathPart.
  split; [done|]. split; [|done].
  unfold pop in Hlast. cbn [snd] in Hlast. apply last_Some in Hlast as [l Hl].
  pose proof (split_aux_parts "/" path EmptyString) as Hparts.
  unfold split in Hl. rewrite Hl in Hparts.
  assert (~ In "/"%char (list_ascii_of_string EmptyString)) as Hnil by (simpl; tauto).
  apply Hparts in Hnil. apply Forall_app in Hnil as [_ Hx]. by inversion Hx.
Qed.

(** X10.  [createPaths] takes the endpoints one after the other and has no
    handler: a request that is rejected, other than for the rate limit,
    is the last thing that happens, the endpoints after it get no
    request, and [createPaths] is rejected with that very error. *)
Theorem createPaths_stops_at_failure {W : Type}
    (remote : Call -> W -> (JsError + Response) * W)
    (fuel : nat) (apiId : string) (endpoints : list object) (w : W) :
  stops_at_failure (createPaths remote fuel apiId endpoints w).
Proof.
  revert w. induction endpoints as [|endpoint rest IH]; intros w; cbn [createPaths].
  - by apply stops_silent.
  - apply stops_bind; [apply stops_createPath|]. intros id _.
    apply stops_bind; [apply IH|]. intros created _. by apply stops_silent.
Qed.

(** X11.  When [createPaths] resolves, it is to the endpoints it was
    given, as many and in their order, each with an [id] and with every
    other property unchanged. *)
Theorem createPaths_results {W : Type} (remote : Call -> W -> (JsError + Response) * W)
    (fuel : nat) (apiId : string) (endpoints createdEndpoints : list object) (w : W) :
  outcome (createPaths remote fuel apiId endpoints w) = Ok createdEndpoints ->
  Forall2 (fun endpoint created =>
             exists id, created = <[ "id" := id ]> endpoint
                        /\ forall k, k <> "id" -> created !! k = endpoint !! k)
    endpoints createdEndpoints.
Proof.
  revert createdEndpoints w.
  induction endpoints as [|endpoint rest IH]; intros created w; cbn [createPaths].
  - intros [= <-]. constructor.
  - rewrite bind_unfold.
    destruct (createPath remote fuel apiId endpoint w) as [[id|e|] w1 t1];
      cbn [outcome final trace]; [|done..].
    rewrite bind_unfold. pose proof (fun l => IH l w1) as IH1.
    destruct (createPaths remote fuel apiId rest w1) as [[l|e|] w2 t2];
      cbn [outcome final trace ret] in *; [|done..].
    intros [= <-]. constructor; [|by apply IH1].
    exists id. split; [done|]. intros k Hk. by apply lookup_insert_ne.
Qed.

Lemma createPaths_results_witness :
  Forall2 (fun endpoint created =>
             exists id, created = <[ "id" := id ]> endpoint
                        /\ forall k, k <> "id" -> created !! k = endpoint !! k)
    [Sample.endpoint "GET" "/a/b"; Sample.endpoint "GET" "/items"]
    [<[ "id" := PStr "/a/b" ]> (Sample.endpoint "GET" "/a/b");
     <[ "id" := PStr "items" ]> (Sample.endpoint "GET" "/items")].
Proof.
  apply (createPaths_results Gateway.react 5 "api"
           [Sample.endpoint "GET" "/a/b"; Sample.endpoint "GET" "/items"] _ Sample.api).
  by_evaluation.
Defined.

(** ** Integrations *)

Section IntegrationRuns.
Context {W : Type} (remote : Call -> W -> (JsError + Response) * W).

Lemma bind_silent {A B} (m : M W A) (k : A -> M W B) (w : W) (a : A) :
  m w = mkRun (Ok a) w [] -> bind m k w = k a w.
Proof.
  intros Hm. rewrite bind_unfold, Hm. cbn [outcome final trace app]. by destruct (k a w).
Qed.

Lemma bind_emit {B} (ev : Event) (k : unit -> M W B) (w : W) :
  bind (emit ev) k w = mkRun (outcome (k tt w)) (final (k tt w)) (ev :: trace (k tt w)).
Proof. reflexivity. Qed.

End IntegrationRuns.

(** X12.  All the requests of [createIntegration] are attempts to put
    the one integration of the endpoint, except that the last request may
    be the permission grant: it is sent once at most, only for an
    endpoint with a function, and only right after a put that
    succeeded.  A proxy endpoint gets no grant, and a put that fails is
    never followed by one. *)
Theorem createIntegration_requests {W : Type} (remote : Call -> W -> (JsError + Response) * W)
    (fuel : nat) (apiId : string) (endpoint : object) (w : W) :
  exists puts grant,
    trace (createIntegration remote fuel apiId endpoint w) = puts ++ grant
    /\ all_calls (fun c => c = putIntegration (integrationParams apiId endpoint)) puts
    /\ (grant = []
        \/ (truthy (field endpoint "function") = true
            /\ exists attempts v r,
                 puts = attempts
                        ++ [EvCall (putIntegration (integrationParams apiId endpoint)) (inr v)]
                 /\ grant = [EvCall (addPermission (permissionsParams apiId endpoint)) r])).
Proof.
  revert w. induction fuel as [|fuel IH]; intros w.
  { exists [], []. split; [done|]. split; [constructor | by left]. }
  rewrite createIntegration_S.
  destruct (function_readable endpoint) eqn:Hread; cycle 1.
  { exists [], []. split; [|split; [constructor | by left]].
    unfold function_readable in Hread. rewrite bind_unfold.
    destruct (field endpoint "function") as [| |b|n|s|a]; try done.
    - by destruct b.
    - cbn [truthy] in *. by destruct (negb (n =? 0)%Z). }
  rewrite (bind_silent _ _ _ _ (function_read endpoint w Hread)).
  pose proof (throttle_calls remote
                (fun c => c = putIntegration (integrationParams apiId endpoint)) _ w eq_refl)
    as Hputs.
  destruct (pRetry_from_spec remote (putIntegration (integrationParams apiId endpoint)) 5 []
              1000 w) as (errors & last & Ht & _ & _ & Hout & _).
  rewrite <- throttle_unfold in Ht, Hout. rewrite bind_unfold, settle_unfold.
  destruct (throttleAwsRequestRequest remote _ w) as [o w1 t1].
  cbn [outcome final trace] in *. subst o.
  destruct (settled_with ([] ++ errors) last) as [e|v] eqn:Hsettled;
    [|apply settled_with_value in Hsettled; subst last];
    cbn [settlement outcome final trace].
  - destruct (has_code e "ConflictException").
    + rewrite bind_emit. cbn [outcome final trace].
      destruct (IH w1) as (puts & grant & Htr & Hall & Hgrant).
      exists (t1 ++ EvSleep 2000 :: puts), grant. split; [|split].
      * rewrite Htr. by rewrite <- app_assoc.
      * apply all_calls_app; [done|]. by constructor.
      * destruct Hgrant as [-> | (Hf & attempts & v & r & -> & ->)]; [by left|]. right.
        split; [done|]. exists (t1 ++ EvSleep 2000 :: attempts), v, r.
        split; [|done]. by rewrite <- app_assoc.
    + exists t1, []. cbn [throw outcome final trace]. rewrite !app_nil_r.
      split; [done|]. split; [done | by left].
  - rewrite bind_unfold. destruct (truthy (field endpoint "function")) eqn:Hf.
    + rewrite try_catch_unfold, bind_unfold. unfold perform.
      destruct (remote (addPermission (permissionsParams apiId endpoint)) w1) as [[e|v'] w2];
        cbn [outcome final trace ret].
      * exists t1, [EvCall (addPermission (permissionsParams apiId endpoint)) (inl e)].
        split; [|split; [done|]].
        -- destruct (negb (has_code e "ResourceConflictException"));
             cbn [outcome final trace ret throw]; by rewrite ?app_nil_r.
        -- right. split; [done|]. eexists _, v, _. split; [exact Ht | done].
      * exists t1, [EvCall (addPermission (permissionsParams apiId endpoint)) (inr v')].
        split; [by rewrite ?app_nil_r|]. split; [done|].
        right. split; [done|]. eexists _, v, _. split; [exact Ht | done].
    + exists t1, []. cbn [outcome final trace ret]. rewrite !app_nil_r.
      split; [done|]. split; [done | by left].
Qed.

(** ** Removal *)

Section RemovalFacts.
Context {W : Type} (remote : Call -> W -> (JsError + Response) * W).

Lemma removeMethod_becomes (tr : list Event) (apiId : string) (endpoint : object)
    (t : Task object) :
  becomes tr (removeMethod apiId endpoint) t ->
  t = removeMethod apiId endpoint
  \/ t = Resolve ∅
  \/ exists e, t = Reject (ErrorOf e) /\ has_code e "NotFoundException" = false
               /\ EvCall (deleteMethod apiId (field endpoint "id") (field endpoint "method"))
                    (inl e) ∈ tr.
Proof.
  unfold removeMethod at 1. inversion 1 as [|c k r t' Hr Hk]; subst; [by left|]. right.
  destruct r as [e|v].
  - destruct (has_code e "NotFoundException") eqn:Hc; cbn [negb] in Hk.
    + left. by apply becomes_settled in Hk.
    + right. exists e. by apply becomes_settled in Hk.
  - left. by apply becomes_settled in Hk.
Qed.

End RemovalFacts.

(** X13.  [removeMethods] resolves to one empty object for each endpoint,
    in whatever state the methods were; when it is rejected, it is with an
    [Error] built around the rejection of one of its deletion requests,
    and that rejection was not a [NotFoundException]: a method that is
    already gone never fails the batch. *)
Theorem removeMethods_settlement {W : Type} (remote : Call -> W -> (JsError + Response) * W)
    (apiId : string) (endpoints : list object) (w : W) :
  match outcome (removeMethods remote apiId endpoints w) with
  | Ok removed => removed = map (fun _ => ∅) endpoints
  | Throw x =>
      exists endpoint e,
        endpoint ∈ endpoints /\ x = ErrorOf e /\ has_code e "NotFoundException" = false
        /\ EvCall (deleteMethod apiId (field endpoint "id") (field endpoint "method")) (inl e)
           ∈ trace (removeMethods remote apiId endpoints w)
  | Diverge => False
  end.
Proof.
  destruct (outcome (removeMethods remote apiId endpoints w)) as [l|x|] eqn:Ho.
  - apply promiseAll_resolves in Ho. revert Ho.
    generalize (trace (promiseAll remote 1 (map (removeMethod apiId) endpoints) w)) as tr.
    intros tr. revert l. induction endpoints as [|e es IH]; intros l Hl.
    + by inversion Hl.
    + inversion Hl as [|t a ts l' Ht Hts]; subst. cbn [map]. f_equal; [|by apply IH].
      apply removeMethod_becomes in Ht as [Ht | [Ht | (err & Ht & _)]]; try discriminate.
      by injection Ht.
  - apply promiseAll_rejects in Ho as (t & Hin & Hb).
    apply list_elem_of_fmap in Hin as (endpoint & -> & Hin).
    apply removeMethod_becomes in Hb as [Hb | [Hb | (err & Hb & Hc & Hev)]]; try discriminate.
    exists endpoint, err. injection Hb as ->. done.
  - by apply removeMethods_settles in Ho.
Qed.

(** X14.  Under [Promise.all] a rejection stops nothing: the deletion
    request of every endpoint handed to [removeMethods] is sent, whatever
    the remote system answers to the others. *)
Theorem removeMethods_attempts_all {W : Type} (remote : Call -> W -> (JsError + Response) * W)
    (apiId : string) (endpoints : list object) (w : W) :
  Forall (fun endpoint =>
            deleteMethod apiId (field endpoint "id") (field endpoint "method")
            ∈ calls (trace (removeMethods remote apiId endpoints w)))
    endpoints.
Proof.
  apply Forall_forall. intros endpoint Hin. unfold removeMethods.
  eapply promiseAll_sends. apply list_elem_of_fmap. exists endpoint. split; [reflexivity | done].
Qed.

Section AuthorizerFacts.
Context {W : Type} (remote : Call -> W -> (JsError + Response) * W).

Lemma app_eq_app_cons {A} (l1 l2 a b : list A) (x : A) :
  l1 ++ x :: l2 = a ++ b -> x ∉ a -> exists l, l1 = a ++ l /\ b = l ++ x :: l2.
Proof.
  intros H Hx. apply app_eq_app in H as [l [[H1 H2] | [H1 H2]]].
  - by exists l.
  - destruct l as [|y l].
    + exists []. cbn in H2. subst. by rewrite !app_nil_r.
    + injection H2 as <- _. exfalso. apply Hx. rewrite H1. apply elem_of_app. right. by left.
Qed.

(** The two turns of the queue under [Promise.all] for tasks of two
    requests: the requests of the second are those the tasks went on to
    after the first. *)
Lemma promiseAll_two_rounds {A} (tasks : list (Task A)) (w : W) :
  exists tasks1 tr2,
    outcome (round remote tasks w) = Ok tasks1
    /\ trace (promiseAll remote 2 tasks w)
       = (if forallb settled tasks then [] else trace (round remote tasks w) ++ tr2)
    /\ (forall c, c ∈ calls tr2 -> exists k, Await c k ∈ tasks1).
Proof.
  destruct (round_ok remote tasks w) as (tasks1 & Hout). rewrite promiseAll_trace, drain_S.
  destruct (forallb settled tasks).
  { exists tasks1, []. split; [done|]. split; [done|]. by intros c ?%elem_of_nil. }
  rewrite (bind_ok _ _ _ _ Hout). cbn [trace]. rewrite drain_S.
  destruct (forallb settled tasks1).
  { exists tasks1, []. split; [done|]. split; [done|]. by intros c ?%elem_of_nil. }
  destruct (round_ok remote tasks1 (final (round remote tasks w))) as (tasks2 & Hout2).
  rewrite (bind_ok _ _ _ _ Hout2). cbn [trace].
  exists tasks1, (trace (round remote tasks1 (final (round remote tasks w)))).
  split; [done|]. split.
  - f_equal. cbn [drain].
    destruct (forallb settled tasks2); cbn [trace ret diverge]; apply app_nil_r.
  - intros c. apply round_requests.
Qed.

Lemma removeAuthorizers_trace (apiId : string) (endpoints : list object) (w : W) :
  trace (removeAuthorizers remote apiId endpoints w)
  = trace (promiseAll remote 2 (map (removeAuthorizer apiId) endpoints) w).
Proof.
  unfold removeAuthorizers, bind.
  destruct (outcome (promiseAll remote 2 _ w)); cbn [trace ret]; [apply app_nil_r | done..].
Qed.

End AuthorizerFacts.

(** X15.  [removeAuthorizers] asks for the deletion of an authorizer only
    after the request that detaches it from the method of an endpoint has
    succeeded: every deletion request in the trace is for the authorizer
    of one of the endpoints, and an answered patch of that endpoint's
    method lies before it.  When the patch is rejected the authorizer is
    left in place. *)
Theorem removeAuthorizers_patch_first {W : Type}
    (remote : Call -> W -> (JsError + Response) * W)
    (apiId : string) (endpoints : list object) (w : W)
    (before after : list Event) (restApiId : string) (authorizerId : prim)
    (r : JsError + Response) :
  trace (removeAuthorizers remote apiId endpoints w)
  = before ++ EvCall (deleteAuthorizer restApiId authorizerId) r :: after ->
  exists endpoint v,
    endpoint ∈ endpoints /\ restApiId = apiId
    /\ field endpoint "authorizerId" = authorizerId /\ truthy authorizerId = true
    /\ EvCall (updateMethod (field endpoint "method") (field endpoint "id") apiId
                 [replaceAuthorizationType "NONE"]) (inr v) ∈ before.
Proof.
  rewrite removeAuthorizers_trace.
  destruct (promiseAll_two_rounds remote (map (removeAuthorizer apiId) endpoints) w)
    as (tasks1 & tr2 & Hout & -> & Hreq).
  destruct (forallb settled _); [by destruct before|]. intros Htr. symmetry in Htr.
  pose proof (round_becomes remote _ _ _ Hout) as Hb.
  set (tr1 := trace (round remote _ w)) in *.
  assert (EvCall (deleteAuthorizer restApiId authorizerId) r ∉ tr1) as Hnot.
  { intros Hin.
    assert (deleteAuthorizer restApiId authorizerId ∈ calls tr1) as Hc.
    { unfold calls. apply list_elem_of_omap. by eexists. }
    apply round_requests in Hc as (k & Hk).
    apply list_elem_of_fmap in Hk as (e & He & _). unfold removeAuthorizer in He.
    by destruct (truthy (field e "authorizerId")). }
  apply app_eq_app_cons in Htr as (l & -> & ->); [|done].
  destruct (Hreq (deleteAuthorizer restApiId authorizerId)) as (k & Hk).
  { rewrite calls_app. apply elem_of_app. right. by left. }
  destruct (Forall2_becomes_elem _ _ _ _ Hb Hk) as (t0 & Hin0 & Hb0).
  apply list_elem_of_fmap in Hin0 as (e & -> & Hin). unfold removeAuthorizer in Hb0.
  destruct (truthy (field e "authorizerId")) eqn:Ht.
  - inversion Hb0 as [|c k0 r0 t' Hr0 Hk0]; subst. destruct r0 as [err|v].
    + by apply becomes_settled in Hk0.
    + inversion Hk0 as [|c1 k1 r1 t1 Hr1 Hk1]; subst.
      * exists e, v. repeat split; try done. apply elem_of_app. by left.
      * destruct r1; by apply becomes_settled in Hk1.
  - by apply becomes_settled in Hb0.
Qed.

Lemma removeAuthorizers_patch_first_witness :
  exists endpoint v,
    endpoint ∈ [Sample.staleWithAuthorizer] /\ "api" = "api"
    /\ field endpoint "authorizerId" = PStr "auth1" /\ truthy (PStr "auth1") = true
    /\ EvCall (updateMethod (field endpoint "method") (field endpoint "id") "api"
                 [replaceAuthorizationType "NONE"]) (inr v)
       ∈ [EvCall (updateMethod (PStr "GET") (PStr "old") "api" [replaceAuthorizationType "NONE"])
            (inr RespEmpty)].
Proof.
  apply (removeAuthorizers_patch_first Gateway.react "api" [Sample.staleWithAuthorizer]
           Sample.api _ [] "api" (PStr "auth1") (inr RespEmpty)).
  by_evaluation.
Defined.

Section Unchanged.
Context {W : Type} (remote : Call -> W -> (JsError + Response) * W).

Lemma outdated_none (desired recorded : list object) :
  Forall (fun e => endpoint_in_use desired e = true /\ authorizer_in_use desired e = true)
    recorded ->
  outdated desired recorded = ([], []).
Proof.
  induction 1 as [|e recorded [Hu Ha] _ IH]; [done|]. cbn [outdated]. rewrite IH.
  unfold endpoint_in_use in Hu. unfold authorizer_in_use in Ha.
  rewrite <- find_existsb in Hu. rewrite <- find_existsb in Ha.
  by rewrite Hu, Ha.
Qed.

Lemma removeMethods_none (apiId : string) (w : W) :
  removeMethods remote apiId [] w = mkRun (Ok []) w [].
Proof. reflexivity. Qed.

Lemma removeAuthorizers_none (apiId : string) (w : W) :
  removeAuthorizers remote apiId [] w = mkRun (Ok []) w [].
Proof. reflexivity. Qed.

End Unchanged.

(** X16.  When every recorded endpoint is still declared, by its method
    and path and by its authorizer, [removeOutdatedEndpoints] sends one
    listing request and nothing else, deletes nothing and returns the
    empty list, or is rejected with the error of the listing. *)
Theorem removeOutdatedEndpoints_nothing_stale {W : Type}
    (remote : Call -> W -> (JsError + Response) * W)
    (fuel : nat) (apiId : string) (desired recorded : list object) (w : W) :
  Forall (fun e => endpoint_in_use desired e = true /\ authorizer_in_use desired e = true)
    recorded ->
  removeOutdatedEndpoints remote (S fuel) apiId desired recorded w
  = let r := throttleAwsRequestRequest remote (getResources apiId) w in
    mkRun match outcome r with
          | Ok _ => Ok []
          | Throw e => Throw e
          | Diverge => Diverge
          end (final r) (trace r).
Proof.
  intros Hall. unfold removeOutdatedEndpoints. rewrite (outdated_none _ _ Hall).
  rewrite bind_unfold, removeResources_S, bind_unfold. cbv zeta.
  destruct (throttleAwsRequestRequest remote (getResources apiId) w) as [[resp|e|] w1 t1];
    cbn [outcome final trace]; [|done..].
  cbn [List.filter map length Nat.eqb ret outcome final trace].
  rewrite bind_unfold, removeMethods_none. cbn [outcome final trace].
  rewrite bind_unfold, removeAuthorizers_none. cbn [outcome final trace ret].
  by rewrite !app_nil_r.
Qed.

Lemma removeOutdatedEndpoints_nothing_stale_witness :
  removeOutdatedEndpoints Gateway.react 1 "api" [Sample.staleWithAuthorizer]
    [Sample.staleWithAuthorizer] Sample.api
  = let r := throttleAwsRequestRequest Gateway.react (getResources "api") Sample.api in
    mkRun match outcome r with
          | Ok _ => Ok []
          | Throw e => Throw e
          | Diverge => Diverge
          end (final r) (trace r).
Proof.
  apply (removeOutdatedEndpoints_nothing_stale Gateway.react 0 "api"
           [Sample.staleWithAuthorizer] [Sample.staleWithAuthorizer] Sample.api).
  constructor; [|constructor]. split; reflexivity.
Defined.

Section WaitFacts.

Lemma waited_app (t1 t2 : list Event) : waited (t1 ++ t2) = waited t1 + waited t2.
Proof.
  unfold waited, backoffs. rewrite omap_app, foldr_app.
  generalize (omap (fun ev => match ev with EvBackoff ms => Some ms | _ => None end) t2) as l2.
  intros l2. induction (omap _ t1) as [|x l IH]; cbn [foldr]; lia.
Qed.

Lemma waited_failed_attempts (c : Call) (errors : list JsError) :
  forall timeout,
    waited (failed_attempts c timeout 2 errors)
    = timeout * (2 ^ Z.of_nat (length errors) - 1).
Proof.
  induction errors as [|e errors IH]; intros timeout.
  - cbn. lia.
  - cbn [failed_attempts length].
    change (waited (EvCall c (inl e) :: EvBackoff timeout
                    :: failed_attempts c (timeout * 2) 2 errors))
      with (timeout + waited (failed_attempts c (timeout * 2) 2 errors)).
    rewrite IH, Nat2Z.inj_succ, Z.pow_succ_r by lia. lia.
Qed.

End WaitFacts.

(** X17.  A throttled request spends 31 seconds at most in the waits
    between its attempts: five waits at most, of one second doubling to
    sixteen. *)
Theorem throttle_waits {W : Type} (remote : Call -> W -> (JsError + Response) * W)
    (c : Call) (w : W) :
  (length (backoffs (trace (throttleAwsRequestRequest remote c w))) <= 5)%nat
  /\ 0 <= waited (trace (throttleAwsRequestRequest remote c w)) <= 31000.
Proof.
  destruct (pRetry_from_spec remote c 5 [] 1000 w) as (errors & last & Ht & Hlen & _).
  rewrite throttle_unfold, Ht. split.
  - unfold backoffs. rewrite omap_app. cbn [omap]. rewrite app_nil_r.
    clear Ht. revert Hlen. generalize 1000. generalize 5%nat.
    induction errors as [|e errors IH]; intros n t Hn; cbn; [lia|].
    destruct n as [|n]; [cbn in Hn; lia|]. cbn in Hn.
    specialize (IH n (t * 2) ltac:(lia)). unfold backoffs in *. lia.
  - rewrite waited_app, waited_failed_attempts.
    change (waited [EvCall c last]) with 0.
    assert (1 <= 2 ^ Z.of_nat (length errors) <= 2 ^ 5) as Hpow.
    { split; [apply Z.pow_le_mono_r with (b := 0); lia | apply Z.pow_le_mono_r; lia]. }
    change (2 ^ 5) with 32 in Hpow. lia.
Qed.

(** ** The request queue *)

Module QueueFacts.
Import Scheduler.

(** While no timer is pending, no operation waits. *)
Lemma idle_empty (q : Queue) : reachable q -> timeout q = None -> requestQueue q = [].
Proof.
  induction 1 as [|q q' _ IH Hstep]; [done|].
  destruct Hstep as [q d Hd|q operation|q due Hdue Hnow|q operation before after Hrun].
  - exact IH.
  - unfold submit. cbn [timeout]. destruct (timeout q) as [due|] eqn:Ht; [done|].
    unfold processNextQueueElement. cbn [requestQueue].
    destruct (requestQueue q ++ [operation]) eqn:Hq; [done|]. cbn. discriminate.
  - unfold processNextQueueElement. destruct (requestQueue q); [done|]. cbn. discriminate.
  - exact IH.
Qed.

Lemma served_process (q : Queue) : served (processNextQueueElement q) = served q.
Proof.
  unfold served, processNextQueueElement. destruct (requestQueue q) as [|next rest] eqn:Hq.
  - done.
  - destruct (concurrency q <? MAX_CONCURRENCY)%nat; cbn; [|by rewrite Hq].
    by rewrite <- app_assoc.
Qed.

(** Settling every running operation, one after the other. *)
Lemma settle_all (running0 : list nat) :
  forall q, running q = running0 -> concurrency q = length running0 ->
    rtc step q (mkQueue (now q) (requestQueue q) 0 (timeout q) [] (started q)).
Proof.
  induction running0 as [|operation rest IH]; intros q Hr Hc.
  - destruct q as [n rq c t r s]. cbn in *. subst. apply rtc_refl.
  - eapply rtc_l.
    + apply (step_settle q operation [] rest). by rewrite Hr.
    + apply (IH (settle_op [] rest q)); cbn in *; [done | lia].
Qed.

End QueueFacts.

(** X18.  An operation that waits in the queue always has a timer
    pending that will look at the queue again: in no state the queue can
    reach is an operation left waiting with [timeout] unset. *)
Theorem queue_never_stranded (q : Scheduler.Queue) (operation : nat) :
  Scheduler.reachable q ->
  operation ∈ Scheduler.requestQueue q ->
  exists due, Scheduler.timeout q = Some due.
Proof.
  intros Hq Hin. destruct (Scheduler.timeout q) as [due|] eqn:Ht; [by exists due|].
  rewrite (QueueFacts.idle_empty q Hq Ht) in Hin. by apply elem_of_nil in Hin.
Qed.

Lemma queue_never_stranded_witness : exists due, Scheduler.timeout Sample.busyQueue = Some due.
Proof.
  apply (queue_never_stranded Sample.busyQueue 2 SchedulerFacts.busyQueue_reachable).
  cbn. apply list_elem_of_here.
Defined.

(** X19.  The queue is first in, first out.  Taking the operations it
    has started, the oldest first, and then those that wait, every step
    keeps that sequence, except a submission, which adds its operation at
    the end: an operation is started only when all those submitted before
    it have been, and none is dropped or started twice. *)
Theorem queue_first_in_first_out (q q' : Scheduler.Queue) :
  Scheduler.step q q' ->
  served q' = served q
  \/ exists operation, q' = Scheduler.submit operation q /\ served q' = served q ++ [operation].
Proof.
  intros Hstep.
  destruct Hstep as [q d Hd|q operation|q due Hdue Hnow|q operation before after Hrun].
  - by left.
  - right. exists operation. split; [done|]. unfold Scheduler.submit. cbn [Scheduler.timeout].
    destruct (Scheduler.timeout q).
    + unfold served. cbn. by rewrite app_assoc.
    + rewrite QueueFacts.served_process. unfold served. cbn. by rewrite app_assoc.
  - left. apply QueueFacts.served_process.
  - by left.
Qed.

Lemma queue_first_in_first_out_witness :
  served (Scheduler.submit 7 Sample.busyQueue) = served Sample.busyQueue
  \/ exists operation,
       Scheduler.submit 7 Sample.busyQueue = Scheduler.submit operation Sample.busyQueue
       /\ served (Scheduler.submit 7 Sample.busyQueue) = served Sample.busyQueue ++ [operation].
Proof.
  apply (queue_first_in_first_out Sample.busyQueue (Scheduler.submit 7 Sample.busyQueue)).
  apply Scheduler.step_submit.
Defined.

(** X20.  The queue does not get stuck: from any state it can reach with
    an operation waiting, once the operations that run have settled and
    the pending timer has fired, the operation at the head of the queue
    is started, and the operations behind it keep their order. *)
Theorem queue_progress (q : Scheduler.Queue) (operation : nat) (rest : list nat) :
  Scheduler.reachable q ->
  Scheduler.requestQueue q = operation :: rest ->
  exists q',
    rtc Scheduler.step q q'
    /\ Scheduler.requestQueue q' = rest
    /\ Scheduler.running q' = [operation]
    /\ Scheduler.started q' = (operation, Scheduler.now q') :: Scheduler.started q.
Proof.
  intros Hq Hqueue.
  destruct (Scheduler.timeout q) as [due|] eqn:Ht; cycle 1.
  { by rewrite (QueueFacts.idle_empty q Hq Ht) in Hqueue. }
  destruct (SchedulerFacts.invariant_reachable q Hq) as [Hc _ _ _].
  pose proof (QueueFacts.settle_all (Scheduler.running q) q eq_refl Hc) as H1.
  set (q1 := Scheduler.mkQueue (Scheduler.now q) (Scheduler.requestQueue q) 0
               (Scheduler.timeout q) [] (Scheduler.started q)) in *.
  set (d := Z.max 0 (due - Scheduler.now q)).
  set (q2 := Scheduler.mkQueue (Scheduler.now q1 + d) (Scheduler.requestQueue q1)
               (Scheduler.concurrency q1) (Scheduler.timeout q1) (Scheduler.running q1)
               (Scheduler.started q1)).
  assert (Scheduler.step q1 q2) as H2 by (apply Scheduler.step_time; lia).
  assert (Scheduler.step q2 (Scheduler.processNextQueueElement q2)) as H3.
  { apply (Scheduler.step_timer q2 due); cbn; [done | lia]. }
  exists (Scheduler.processNextQueueElement q2). split.
  - eapply rtc_trans; [exact H1|]. eapply rtc_l; [exact H2|]. by apply rtc_once.
  - unfold Scheduler.processNextQueueElement. cbn. rewrite Hqueue. cbn. done.
Qed.

Lemma queue_progress_witness :
  exists q',
    rtc Scheduler.step Sample.busyQueue q'
    /\ Scheduler.requestQueue q' = []
    /\ Scheduler.running q' = [2%nat]
    /\ Scheduler.started q' = (2%nat, Scheduler.now q') :: Scheduler.started Sample.busyQueue.
Proof.
  apply (queue_progress Sample.busyQueue 2 [] SchedulerFacts.busyQueue_reachable).
  reflexivity.
Defined.

(** ** Setting an API up and tearing it down *)

Section SetupFacts.
Context {W : Type} (remote : Call -> W -> (JsError + Response) * W).
Context (apig : Apig.Call -> W -> (JsError + Apig.Response) * W).

(** One attempt under the retry wrapper, as [settle] hands it on. *)
Lemma settle_attempt {A} (m : M W A) (w : W) :
  settle (attempt m) w
  = mkRun match outcome (m w) with
          | Ok a => Ok (inr a)
          | Throw e => Ok (inl (if rate_limited e then e else AbortError e))
          | Diverge => Diverge
          end (final (m w)) (trace (m w)).
Proof.
  rewrite settle_unfold. unfold attempt. rewrite try_catch_unfold. unfold rate_limited.
  destruct (m w) as [[a|e|] w1 t1]; cbn [outcome final trace]; [done| |done].
  destruct (has_code e "TooManyRequestsException"); unfold throw; cbn [negb outcome final trace];
    by rewrite app_nil_r.
Qed.

(** The retry wrapper around an operation that ends and leaves no
    request in the trace ends and leaves none. *)
Lemma pRetry_from_quiet {A} (P : Call -> Prop) (m : M W A) :
  (forall w, outcome (m w) <> Diverge /\ all_calls P (trace (m w))) ->
  forall k recorded t f w,
    outcome (pRetry_from (attempt m) recorded k t f w) <> Diverge
    /\ all_calls P (trace (pRetry_from (attempt m) recorded k t f w)).
Proof.
  intros Hm k. induction k as [|k IH]; intros recorded t f w.
  - cbn [pRetry_from]. rewrite bind_unfold, settle_attempt. destruct (Hm w) as [Hd Hc].
    destruct (m w) as [[a|e|] w1 t1]; cbn [outcome final trace] in *; [|clear Hd|done].
    + unfold ret. cbn [outcome trace]. by rewrite app_nil_r.
    + destruct (rate_limited e) eqn:He; unfold throw; cbn [outcome trace]; rewrite ?app_nil_r;
        [|done]. destruct e; unfold throw; cbn [outcome trace]; by rewrite app_nil_r.
  - cbn [pRetry_from]. rewrite bind_unfold, settle_attempt. destruct (Hm w) as [Hd Hc].
    destruct (m w) as [[a|e|] w1 t1]; cbn [outcome final trace] in *; [|clear Hd|done].
    + unfold ret. cbn [outcome trace]. by rewrite app_nil_r.
    + destruct (IH (recorded ++ [e]) (t * f) f w1) as [IHd IHc].
      destruct (rate_limited e) eqn:He; unfold throw at 1; cbn [outcome trace];
        rewrite ?app_nil_r; [|done].
      destruct e; try discriminate. rewrite bind_emit. cbn [outcome trace]. split; [done|].
      apply all_calls_app; [done|]. by constructor.
Qed.

Lemma request_quiet (P : Call -> Prop) (c : Apig.Call) (w : W) :
  outcome (request apig c w) <> Diverge /\ all_calls P (trace (request apig c w)).
Proof. unfold request. destruct (apig c w) as [[e|v] w']; split; (done || constructor). Qed.

Lemma throttled_quiet (P : Call -> Prop) (c : Apig.Call) (w : W) :
  outcome (throttled apig c w) <> Diverge /\ all_calls P (trace (throttled apig c w)).
Proof. apply pRetry_from_quiet. intros w'. apply request_quiet. Qed.

(** What [createAuthorizer] makes of an endpoint. *)
Lemma createAuthorizer_result (apiId : string) (endpoint updated : object) (w : W) :
  outcome (createAuthorizer remote apig apiId endpoint w) = Ok updated ->
  (truthy (field endpoint "authorizer") = false /\ updated = endpoint)
  \/ (truthy (field endpoint "authorizer") = true
      /\ exists authorizerId, updated = <[ "authorizerId" := authorizerId ]> endpoint).
Proof.
  unfold createAuthorizer. destruct (truthy (field endpoint "authorizer")) eqn:Ha; cycle 1.
  { intros [= <-]. by left. }
  intros Ho. right. split; [done|]. revert Ho.
  destruct (field endpoint "authorizer") as [| | | |arn|]; try done. cbv zeta.
  rewrite bind_unfold.
  destruct (throttled apig (Apig.getAuthorizers apiId) w) as [[resp|e|] w1 t1];
    cbn [outcome final trace]; [|done..].
  destruct (Apig.resp_authorizers resp) as [items|]; [|done]. rewrite bind_unfold.
  destruct (List.find _ items) as [a|].
  { unfold ret. cbn [outcome]. intros [= <-]. by eexists. }
  rewrite bind_unfold.
  destruct (throttled apig (Apig.createAuthorizer _) w1) as [[created|e|] w2 t2];
    cbn [outcome final trace]; [|done..].
  rewrite bind_unfold, try_catch_unfold, bind_unfold.
  destruct (perform remote (addPermission (authorizerPermission apiId endpoint)) w2)
    as [[v|e|] w3 t3]; cbn [outcome final trace]; [| |done].
  - unfold ret. cbn [outcome final trace]. intros [= <-]. by eexists.
  - destruct (negb (has_code e "ResourceConflictException")); unfold throw, ret;
      cbn [outcome final trace]; [done|]. intros [= <-]. by eexists.
Qed.

End SetupFacts.

(** X21.  [removeApi] is never rejected: whatever the remote system
    answers to the deletion, also after the retries of a rate limit are
    used up, the error is dropped and [removeApi] resolves. *)
Theorem removeApi_never_rejects {W : Type}
    (apig : Apig.Call -> W -> (JsError + Apig.Response) * W) (apiId : string) (w : W) :
  outcome (removeApi apig apiId w) = Ok tt.
Proof.
  unfold removeApi. rewrite try_catch_unfold, bind_unfold.
  destruct (throttled_quiet apig (fun _ => True) (Apig.deleteRestApi apiId) w) as [Hd _].
  destruct (throttled apig (Apig.deleteRestApi apiId) w) as [[v|e|] w1 t1];
    cbn [outcome final trace] in *; done.
Qed.


(** X23.  When [createAuthorizers] resolves, it is to the endpoints it
    was given, as many and in their order; an endpoint may differ from
    what it was in its [authorizerId] only, and one that declares no
    authorizer keeps the [authorizerId] it had. *)
Theorem createAuthorizers_results {W : Type} (remote : Call -> W -> (JsError + Response) * W)
    (apig : Apig.Call -> W -> (JsError + Apig.Response) * W)
    (apiId : string) (endpoints updatedEndpoints : list object) (w : W) :
  outcome (createAuthorizers remote apig apiId endpoints w) = Ok updatedEndpoints ->
  Forall2 (fun endpoint updated =>
             (forall k, k <> "authorizerId" -> updated !! k = endpoint !! k)
             /\ (truthy (field endpoint "authorizer") = false ->
                 field updated "authorizerId" = field endpoint "authorizerId"))
    endpoints updatedEndpoints.
Proof.
  revert updatedEndpoints w.
  induction endpoints as [|endpoint rest IH]; intros l w; cbn [createAuthorizers].
  - intros [= <-]. constructor.
  - rewrite bind_unfold.
    pose proof (createAuthorizer_result remote apig apiId endpoint) as Hone.
    specialize (fun updated => Hone updated w).
    destruct (createAuthorizer remote apig apiId endpoint w) as [[updated|e|] w1 t1];
      cbn [outcome final trace] in *; [|done..].
    rewrite bind_unfold. pose proof (fun l => IH l w1) as IH1.
    destruct (createAuthorizers remote apig apiId rest w1) as [[l'|e|] w2 t2];
      cbn [outcome final trace] in *; [|done..].
    unfold ret. cbn [outcome]. intros [= <-]. constructor; [|by apply IH1].
    assert (forall v : prim, field (<[ "authorizerId" := v ]> updated) "authorizerId" = v)
      as Hset.
    { intros v. unfold field. by rewrite lookup_insert_eq. }
    destruct (Hone updated eq_refl) as [[Ha ->] | [Ha (aid & ->)]].
    + split.
      * intros k Hk. by apply lookup_insert_ne.
      * intros _. apply Hset.
    + split.
      * intros k Hk. by rewrite !lookup_insert_ne.
      * intros Hfalse. congruence.
Qed.

Lemma createAuthorizers_results_witness :
  Forall2 (fun endpoint updated =>
             (forall k, k <> "authorizerId" -> updated !! k = endpoint !! k)
             /\ (truthy (field endpoint "authorizer") = false ->
                 field updated "authorizerId" = field endpoint "authorizerId"))
    [SampleSetup.guarded; Sample.staleWithAuthorizer]
    [<[ "authorizerId" := PStr "a1" ]> SampleSetup.guarded; Sample.staleWithAuthorizer].
Proof.
  apply (createAuthorizers_results Gateway.react SampleSetup.listed "api"
           [SampleSetup.guarded; Sample.staleWithAuthorizer] _ Sample.api).
  by_evaluation.
Defined.

(** X24.  An authorizer is made once: when the listing has an authorizer
    with the name of the function of [endpoint.authorizer],
    [createAuthorizer] takes the [id] of the first such one for the
    endpoint and sends nothing after the listing, neither the creation of
    an authorizer nor the permission grant. *)
Theorem createAuthorizer_reuses {W : Type} (remote : Call -> W -> (JsError + Response) * W)
    (apig : Apig.Call -> W -> (JsError + Apig.Response) * W)
    (apiId : string) (endpoint : object) (w : W) (arn : string)
    (items : list Apig.Authorizer) (authorizer : Apig.Authorizer) :
  field endpoint "authorizer" = PStr arn ->
  arn <> EmptyString ->
  outcome (throttled apig (Apig.getAuthorizers apiId) w) = Ok (Apig.RespAuthorizers items) ->
  List.find (fun authorizerItem =>
               strict_eq (PStr (Apig.auth_name authorizerItem)) (index (split ":" arn) 6)) items
  = Some authorizer ->
  createAuthorizer remote apig apiId endpoint w
  = mkRun (Ok (<[ "authorizerId" := PStr (Apig.auth_id authorizer) ]> endpoint))
      (final (throttled apig (Apig.getAuthorizers apiId) w))
      (trace (throttled apig (Apig.getAuthorizers apiId) w)).
Proof.
  intros Hfield Hne Hlisting Hfind. unfold createAuthorizer, authorizerParts.
  rewrite Hfield, (truthy_str _ Hne). cbv zeta. rewrite bind_unfold.
  destruct (throttled apig (Apig.getAuthorizers apiId) w) as [o w1 t1].
  cbn [outcome final trace] in *. subst o. cbn [Apig.resp_authorizers].
  rewrite bind_unfold, Hfind. unfold ret. cbn [outcome final trace]. by rewrite !app_nil_r.
Qed.

Lemma createAuthorizer_reuses_witness :
  createAuthorizer Gateway.react SampleSetup.listed "api" SampleSetup.guarded Sample.api
  = mkRun (Ok (<[ "authorizerId" := PStr (Apig.auth_id (Apig.mkAuthorizer "a1" "auth")) ]>
                 SampleSetup.guarded))
      (final (throttled SampleSetup.listed (Apig.getAuthorizers "api") Sample.api))
      (trace (throttled SampleSetup.listed (Apig.getAuthorizers "api") Sample.api)).
Proof.
  apply (createAuthorizer_reuses Gateway.react SampleSetup.listed "api" SampleSetup.guarded
           Sample.api "arn:aws:lambda:us-east-1:123456789012:function:auth"
           [Apig.mkAuthorizer "a1" "auth"]).
  - reflexivity.
  - discriminate.
  - reflexivity.
  - reflexivity.
Defined.

(** * Garbage collection, request by request *)

(** ** The passes of [removeResources] *)

Section PassFacts.
Context {W : Type} (remote : Call -> W -> (JsError + Response) * W).

(** The run of a throttled request, attempt by attempt. *)
Lemma throttle_attempts (c : Call) (w : W) :
  exists errors last w1,
    throttleAwsRequestRequest remote c w
    = mkRun (settlement (settled_with errors last)) w1
        (failed_attempts c 1000 2 errors ++ [EvCall c last]).
Proof.
  destruct (pRetry_from_spec remote c 5 [] 1000 w)
    as (errors & last & Ht & _ & _ & Hout & _).
  rewrite <- throttle_unfold in Ht, Hout.
  destruct (throttleAwsRequestRequest remote c w) as [o w1 t1]. cbn [outcome trace] in *.
  exists errors, last, w1. by subst.
Qed.

Lemma answered_not_failed (c c' : Call) (errors : list JsError) (v : Response) :
  forall t, EvCall c' (inr v) ∉ failed_attempts c t 2 errors.
Proof.
  induction errors as [|e errors IH]; intros t; cbn [failed_attempts].
  - apply not_elem_of_nil.
  - intros [[=] | [[=] | Hin]%elem_of_cons]%elem_of_cons. by apply IH in Hin.
Qed.

(** An answered attempt is the last one. *)
Lemma answered_last (c c' : Call) (errors : list JsError) (last : JsError + Response)
    (t : Z) (before after : list Event) (v : Response) :
  failed_attempts c t 2 errors ++ [EvCall c last] = before ++ EvCall c' (inr v) :: after ->
  before = failed_attempts c t 2 errors /\ after = [] /\ c' = c /\ last = inr v.
Proof.
  intros H. symmetry in H.
  apply app_eq_app_cons in H as (l & -> & Hl); [|apply answered_not_failed].
  destruct l as [|x l]; cbn in Hl.
  - injection Hl as -> -> <-. by rewrite app_nil_r.
  - injection Hl as _ Hl. by destruct l.
Qed.

Lemma removals_requests (apiId : string) (targets : list object) (w : W) :
  all_calls (fun c => exists rid, c = deleteResource apiId rid)
    (trace (promiseAll remote 1 (map (removeResource apiId) targets) w)).
Proof.
  apply promiseAll_calls, Forall_forall.
  intros t [e [<- _]]%list_elem_of_In%in_map_iff.
  apply requests_await; [by eexists|].
  intros [err|v]; apply requests_settled; [|done]. by destruct (has_code err _).
Qed.

Lemma removals_sent (apiId : string) (targets : list object) (w : W) (endpoint : object) :
  endpoint ∈ targets ->
  deleteResource apiId (field endpoint "id")
  ∈ calls (trace (promiseAll remote 1 (map (removeResource apiId) targets) w)).
Proof.
  intros Hin. eapply promiseAll_sends. apply list_elem_of_fmap.
  exists endpoint. split; [reflexivity | done].
Qed.

Lemma listing_not_removal (apiId : string) (t : list Event) (r : JsError + Response) :
  all_calls (fun c => exists rid, c = deleteResource apiId rid) t ->
  EvCall (getResources apiId) r ∉ t.
Proof.
  intros Hall Hin. apply (proj1 (Forall_forall _ _) Hall) in Hin. by destruct Hin.
Qed.

(** In the pass that a listing starts, the deletion of every target that
    passes the test on that listing is sent. *)
Lemma removeResources_deletes (fuel : nat) (apiId : string) (endpoints : list object) :
  forall (w : W) (before after : list Event) (items : list Resource) (endpoint : object),
    trace (removeResources remote fuel apiId endpoints w)
    = before ++ EvCall (getResources apiId) (inr (RespItems items)) :: after ->
    endpoint ∈ endpoints -> removable items endpoint = true ->
    deleteResource apiId (field endpoint "id") ∈ calls after.
Proof.
  induction fuel as [|fuel IH]; intros w before after items endpoint Htr Hin Hrem.
  { by destruct before. }
  revert Htr. rewrite removeResources_S, bind_unfold.
  destruct (throttle_attempts (getResources apiId) w) as (errors & last & w1 & HT).
  rewrite HT. cbn [outcome final trace].
  destruct (settled_with errors last) as [err|resources] eqn:Hs;
    cbn [settlement outcome final trace].
  { intros (_ & _ & _ & ->)%answered_last. discriminate. }
  apply settled_with_value in Hs as ->.
  destruct endpoints as [|e0 es]; [by apply elem_of_nil in Hin|].
  destruct (resp_items resources) as [its|] eqn:Hits.
  2:{ cbn [throw trace]. rewrite app_nil_r.
      intros (_ & _ & _ & [= ->])%answered_last. discriminate. }
  cbv beta iota zeta. change (default [] (Some its)) with its. rewrite length_map.
  assert (endpoint ∈ List.filter (removable items) (e0 :: es)) as Htarget.
  { apply list_elem_of_In, filter_In. split; [by apply list_elem_of_In | done]. }
  destruct (List.filter (removable its) (e0 :: es)) as [|t0 ts] eqn:Hf.
  { cbn [length Nat.eqb ret trace]. rewrite app_nil_r.
    intros (_ & _ & _ & [= ->])%answered_last.
    cbn [resp_items] in Hits. injection Hits as <-.
    rewrite Hf in Htarget. by apply elem_of_nil in Htarget. }
  cbn [length Nat.eqb]. rewrite bind_unfold.
  pose proof (removals_requests apiId (t0 :: ts) w1) as Hreq.
  pose proof (fun e => removals_sent apiId (t0 :: ts) w1 e) as Hsent.
  assert (forall t2 t3,
            all_calls (fun c => exists rid, c = deleteResource apiId rid) t2 ->
            (forall e, e ∈ t0 :: ts -> deleteResource apiId (field e "id") ∈ calls t2) ->
            (forall b, t3 = b ++ EvCall (getResources apiId) (inr (RespItems items)) :: after ->
                       deleteResource apiId (field endpoint "id") ∈ calls after) ->
            (failed_attempts (getResources apiId) 1000 2 errors
             ++ [EvCall (getResources apiId) (inr resources)]) ++ t2 ++ t3
            = before ++ EvCall (getResources apiId) (inr (RespItems items)) :: after ->
            deleteResource apiId (field endpoint "id") ∈ calls after) as Hsplit.
  { intros t2 t3 Hall Hdel Hrec Heq. symmetry in Heq. rewrite <- app_assoc in Heq.
    apply app_eq_app_cons in Heq as (l & -> & Hl); [|apply answered_not_failed].
    destruct l as [|y l]; cbn [app] in Hl.
    - injection Hl as -> <-. rewrite calls_app. apply elem_of_app. left. apply Hdel.
      cbn [resp_items] in Hits. injection Hits as <-. by rewrite Hf in Htarget.
    - injection Hl as _ Hl. symmetry in Hl.
      apply app_eq_app_cons in Hl as (l' & -> & Hl'); [|by apply listing_not_removal].
      by apply (Hrec l'). }
  destruct (promiseAll remote 1 (map (removeResource apiId) (t0 :: ts)) w1)
    as [[l|x|] w2 t2]; cbn [outcome final trace] in *.
  - apply Hsplit; [done..|]. intros b Hb. by apply (IH w2 b after items endpoint).
  - rewrite <- (app_nil_r t2). apply Hsplit; [done..|].
    intros b Hb. by destruct b.
  - rewrite <- (app_nil_r t2). apply Hsplit; [done..|].
    intros b Hb. by destruct b.
Qed.

(** A run that returns ends with a listing on which no target passes the
    test. *)
Lemma removeResources_ends (fuel : nat) (apiId : string) (endpoints : list object) :
  forall (w : W) (removed : list object),
    outcome (removeResources remote fuel apiId endpoints w) = Ok removed ->
    removed = []
    /\ exists before resources,
         trace (removeResources remote fuel apiId endpoints w)
         = before ++ [EvCall (getResources apiId) (inr resources)]
         /\ List.filter (removable (default [] (resp_items resources))) endpoints = [].
Proof.
  induction fuel as [|fuel IH]; intros w removed; [done|].
  rewrite removeResources_S, bind_unfold.
  destruct (throttle_attempts (getResources apiId) w) as (errors & last & w1 & HT).
  rewrite HT. cbn [outcome final trace].
  destruct (settled_with errors last) as [err|resources] eqn:Hs; cbn [settlement]; [done|].
  apply settled_with_value in Hs as ->.
  assert (forall its,
            default [] (resp_items resources) = its ->
            let body :=
              (let promises := map (removeResource apiId) (List.filter (removable its) endpoints) in
               if (length promises =? 0)%nat then ret []
               else promiseAll remote 1 promises ;;; removeResources remote fuel apiId endpoints)
                w1 in
            outcome body = Ok removed ->
            removed = []
            /\ exists before resources0,
                 (failed_attempts (getResources apiId) 1000 2 errors
                  ++ [EvCall (getResources apiId) (inr resources)]) ++ trace body
                 = before ++ [EvCall (getResources apiId) (inr resources0)]
                 /\ List.filter (removable (default [] (resp_items resources0))) endpoints = [])
    as Hbody.
  { intros its Hits. cbv zeta. rewrite length_map.
    destruct (List.filter (removable its) endpoints) as [|t0 ts] eqn:Hf.
    - cbn [length Nat.eqb ret outcome trace]. intros [= <-]. split; [done|].
      eexists _, resources. rewrite app_nil_r. split; [reflexivity|]. by rewrite Hits.
    - cbn [length Nat.eqb]. rewrite bind_unfold.
      destruct (promiseAll remote 1 (map (removeResource apiId) (t0 :: ts)) w1)
        as [[l|x|] w2 t2]; cbn [outcome final trace]; [|done..].
      intros Ho. destruct (IH w2 removed Ho) as (-> & b & resources0 & Htr & Hnone).
      split; [done|]. rewrite Htr. eexists _, resources0. split; [|exact Hnone].
      by rewrite !app_assoc. }
  destruct endpoints as [|e0 es].
  - apply (Hbody (default [] (resp_items resources))). reflexivity.
  - destruct (resp_items resources) as [its|] eqn:Hits; [|done].
    apply (Hbody its). reflexivity.
Qed.

End PassFacts.

(** C2.  A run of [removeResources] is a sequence of passes, against any
    remote system.  Each deletion request is for a node that, in the
    listing received last before it (the one fetched at the start of the
    pass), is there with no method and is the parent of no node.  In the
    pass that an answered listing starts, the deletion of every target
    that passes the test on that listing is sent, and a run that returns
    has fetched the listing again after it.  A run that returns has the
    answer to a listing as its last event, on which no target passes the
    test, and returns the empty list: the passes went on until no node
    qualified.  Against the gateway kept in memory the run does return,
    within one pass more than the gateway has nodes. *)
Theorem removeResources_only_bare {W : Type} (remote : Call -> W -> (JsError + Response) * W)
    (fuel : nat) (apiId : string) (endpoints : list object) (w : W) :
  let run := removeResources remote fuel apiId endpoints w in
  deletions_justified [] (trace run) = true
  /\ (forall before items after endpoint,
        trace run = before ++ EvCall (getResources apiId) (inr (RespItems items)) :: after ->
        endpoint ∈ endpoints -> removable items endpoint = true ->
        deleteResource apiId (field endpoint "id") ∈ calls after
        /\ (forall removed, outcome run = Ok removed -> getResources apiId ∈ calls after))
  /\ (forall removed,
        outcome run = Ok removed ->
        removed = []
        /\ exists before resources,
             trace run = before ++ [EvCall (getResources apiId) (inr resources)]
             /\ List.filter (removable (default [] (resp_items resources))) endpoints = [])
  /\ (forall api,
        (length (Gateway.resources api) < fuel)%nat ->
        outcome (removeResources Gateway.react fuel apiId endpoints api) = Ok []).
Proof.
  cbv zeta.
  destruct (removeResources_passes remote fuel apiId endpoints [] w) as [Hj _].
  split; [exact Hj|]. split; [|split; [apply removeResources_ends|]].
  - intros before items after endpoint Htr Hin Hrem.
    split; [by eapply removeResources_deletes|].
    intros removed Ho.
    destruct (removeResources_ends remote fuel apiId endpoints w removed Ho)
      as (_ & b & resources & Hb & Hnone).
    rewrite Htr in Hb. clear Htr Ho Hj.
    destruct (decide (after = [])) as [-> | Hne].
    + apply app_inj_tail in Hb as [_ [= <-]].
      change (default [] (resp_items (RespItems items))) with items in Hnone.
      assert (endpoint ∈ List.filter (removable items) endpoints) as Htarget.
      { apply list_elem_of_In, filter_In. split; [by apply list_elem_of_In | done]. }
      rewrite Hnone in Htarget. by apply elem_of_nil in Htarget.
    + destruct (exists_last Hne) as (after' & x & ->).
      rewrite app_comm_cons, app_assoc in Hb. apply app_inj_tail in Hb as [_ ->].
      rewrite calls_app. apply elem_of_app. right. apply list_elem_of_here.
  - apply removeResources_react_returns.
Qed.

Lemma removeResources_only_bare_witness :
  let targets := [Sample.recorded "GET" "/a" "a" "none"; Sample.recorded "GET" "/a/b" "b" "none"] in
  let run := removeResources Gateway.react 4 "api" targets Sample.branch in
  outcome run = Ok []
  /\ deletions_justified [] (trace run) = true
  /\ deleteResource "api" (field (Sample.recorded "GET" "/a/b" "b" "none") "id")
     ∈ calls (tail (trace run))
  /\ getResources "api" ∈ calls (tail (trace run)).
Proof.
  cbv zeta.
  destruct (removeResources_only_bare Gateway.react 4 "api"
              [Sample.recorded "GET" "/a" "a" "none"; Sample.recorded "GET" "/a/b" "b" "none"]
              Sample.branch) as (Hj & Hpass & _ & Hret).
  assert (outcome (removeResources Gateway.react 4 "api"
                     [Sample.recorded "GET" "/a" "a" "none";
                      Sample.recorded "GET" "/a/b" "b" "none"] Sample.branch) = Ok []) as Ho.
  { apply Hret. cbn. lia. }
  destruct (Hpass [] (Gateway.resources Sample.branch)
              (tail (trace (removeResources Gateway.react 4 "api"
                              [Sample.recorded "GET" "/a" "a" "none";
                               Sample.recorded "GET" "/a/b" "b" "none"] Sample.branch)))
              (Sample.recorded "GET" "/a/b" "b" "none")) as [Hdel Hagain].
  - by_evaluation.
  - by_evaluation.
  - by_evaluation.
  - split; [exact Ho|]. split; [exact Hj|]. split; [exact Hdel|]. exact (Hagain [] Ho).
Defined.

(** ** The detaching of authorizers *)

Section DetachFacts.
Context {W : Type} (remote : Call -> W -> (JsError + Response) * W).

(** A task of [removeAuthorizer] that has resolved, for an endpoint with
    an authorizer: both its requests were answered. *)
Lemma removeAuthorizer_resolved (tr : list Event) (apiId : string) (endpoint a : object) :
  becomes tr (removeAuthorizer apiId endpoint) (Resolve a) ->
  truthy (field endpoint "authorizerId") = true ->
  exists v v',
    EvCall (updateMethod (field endpoint "method") (field endpoint "id") apiId
              [replaceAuthorizationType "NONE"]) (inr v) ∈ tr
    /\ EvCall (deleteAuthorizer apiId (field endpoint "authorizerId")) (inr v') ∈ tr.
Proof.
  unfold removeAuthorizer. intros Hb Ht. rewrite Ht in Hb.
  inversion Hb as [|c k r t Hr Hk]; subst. destruct r as [err|v].
  { by apply becomes_settled in Hk. }
  inversion Hk as [|c' k' r' t' Hr' Hk']; subst. destruct r' as [err|v'].
  { by apply becomes_settled in Hk'. }
  by exists v, v'.
Qed.

Lemma removeAuthorizers_detaches (apiId : string) (endpoints l : list object) (w : W) :
  outcome (removeAuthorizers remote apiId endpoints w) = Ok l ->
  l = endpoints
  /\ forall endpoint,
       endpoint ∈ endpoints -> truthy (field endpoint "authorizerId") = true ->
       exists v v',
         EvCall (updateMethod (field endpoint "method") (field endpoint "id") apiId
                   [replaceAuthorizationType "NONE"]) (inr v)
         ∈ trace (removeAuthorizers remote apiId endpoints w)
         /\ EvCall (deleteAuthorizer apiId (field endpoint "authorizerId")) (inr v')
            ∈ trace (removeAuthorizers remote apiId endpoints w).
Proof.
  rewrite removeAuthorizers_trace. unfold removeAuthorizers. rewrite bind_unfold.
  pose proof (promiseAll_resolves remote 2 (map (removeAuthorizer apiId) endpoints) w) as Hres.
  destruct (promiseAll remote 2 (map (removeAuthorizer apiId) endpoints) w)
    as [[l'|x|] w1 t1]; cbn [outcome final trace ret] in *; [|done..].
  intros [= <-]. split; [done|]. intros endpoint Hin Ht.
  specialize (Hres l' eq_refl). apply Forall2_fmap_l in Hres.
  apply list_elem_of_lookup_1 in Hin as (i & Hi).
  destruct (Forall2_lookup_l _ _ _ _ _ Hres Hi) as (a & _ & Ha).
  by eapply removeAuthorizer_resolved.
Qed.

Lemma removeAuthorizers_sends (apiId : string) (endpoints : list object) (w : W)
    (endpoint : object) :
  endpoint ∈ endpoints -> truthy (field endpoint "authorizerId") = true ->
  updateMethod (field endpoint "method") (field endpoint "id") apiId
    [replaceAuthorizationType "NONE"]
  ∈ calls (trace (removeAuthorizers remote apiId endpoints w)).
Proof.
  intros Hin Ht. rewrite removeAuthorizers_trace. eapply (promiseAll_sends remote 1).
  apply list_elem_of_fmap. exists endpoint. split; [|done].
  unfold removeAuthorizer. rewrite Ht. reflexivity.
Qed.

(** [removeOutdatedEndpoints], from the runs of its three phases. *)
Lemma removeOutdatedEndpoints_run (fuel : nat) (apiId : string)
    (desired recorded : list object) (w : W) :
  removeOutdatedEndpoints remote fuel apiId desired recorded w
  = let stale := fst (outdated desired recorded) in
    let detached := snd (outdated desired recorded) in
    let nodes := removeResources remote fuel apiId stale w in
    match outcome nodes with
    | Ok _ =>
        let methods := removeMethods remote apiId stale (final nodes) in
        match outcome methods with
        | Ok _ =>
            let authorizers := removeAuthorizers remote apiId detached (final methods) in
            mkRun match outcome authorizers with
                  | Ok _ => Ok stale
                  | Throw e => Throw e
                  | Diverge => Diverge
                  end (final authorizers) (trace nodes ++ trace methods ++ trace authorizers)
        | Throw e => mkRun (Throw e) (final methods) (trace nodes ++ trace methods)
        | Diverge => mkRun Diverge (final methods) (trace nodes ++ trace methods)
        end
    | Throw e => mkRun (Throw e) (final nodes) (trace nodes)
    | Diverge => mkRun Diverge (final nodes) (trace nodes)
    end.
Proof.
  unfold removeOutdatedEndpoints. destruct (outdated desired recorded) as [stale detached].
  cbn [fst snd]. cbv zeta. rewrite bind_unfold.
  destruct (removeResources remote fuel apiId stale w) as [[r1|e|] w1 t1];
    cbn [outcome final trace]; [|done..].
  rewrite bind_unfold.
  destruct (removeMethods remote apiId stale w1) as [[r2|e|] w2 t2];
    cbn [outcome final trace]; [|done..].
  rewrite bind_unfold.
  destruct (removeAuthorizers remote apiId detached w2) as [[r3|e|] w3 t3];
    cbn [outcome final trace ret]; by rewrite ?app_nil_r.
Qed.

End DetachFacts.

(** C3, as amended.  The endpoints whose authorizer [removeOutdatedEndpoints]
    detaches are the recorded endpoints that are still matched by method
    and path in the desired list and whose [authorizerId] is that of no
    desired endpoint; a recorded endpoint that is itself stale is in the
    list of stale endpoints only.  Against any remote system: every
    request that patches a method or deletes an authorizer is for one of
    those endpoints that has an [authorizerId]; for each of those, the
    patch that takes the authorizer off its method is sent once the node
    pass and the method removal have resolved; and when
    [removeOutdatedEndpoints] resolves, that patch and the deletion of the
    authorizer were both answered. *)
Theorem removeOutdatedEndpoints_detaches {W : Type}
    (remote : Call -> W -> (JsError + Response) * W)
    (fuel : nat) (apiId : string) (desired recorded : list object) (w : W) :
  let stale := List.filter (fun e => negb (endpoint_in_use desired e)) recorded in
  let detached :=
    List.filter (fun e => endpoint_in_use desired e && negb (authorizer_in_use desired e))
      recorded in
  let run := removeOutdatedEndpoints remote fuel apiId desired recorded w in
  let nodes := removeResources remote fuel apiId stale w in
  let methods := removeMethods remote apiId stale (final nodes) in
  outdated desired recorded = (stale, detached)
  /\ (exists t1 t2 t3,
        trace run = t1 ++ t2 ++ t3
        /\ all_calls (node_request apiId) t1
        /\ all_calls (method_request apiId stale) t2
        /\ all_calls (authorizer_request apiId detached) t3)
  /\ (forall endpoint,
        endpoint ∈ detached -> truthy (field endpoint "authorizerId") = true ->
        (forall removed removed',
           outcome nodes = Ok removed -> outcome methods = Ok removed' ->
           updateMethod (field endpoint "method") (field endpoint "id") apiId
             [replaceAuthorizationType "NONE"] ∈ calls (trace run))
        /\ (forall removed,
              outcome run = Ok removed ->
              removed = stale
              /\ exists v v',
                   EvCall (updateMethod (field endpoint "method") (field endpoint "id") apiId
                             [replaceAuthorizationType "NONE"]) (inr v) ∈ trace run
                   /\ EvCall (deleteAuthorizer apiId (field endpoint "authorizerId")) (inr v')
                      ∈ trace run)).
Proof.
  cbv zeta.
  pose proof (removeOutdatedEndpoints_phases remote fuel apiId desired recorded w) as Hphases.
  rewrite outdated_filters in Hphases. cbn [fst snd] in Hphases.
  split; [apply outdated_filters|]. split; [exact Hphases|]. clear Hphases.
  intros endpoint Hin Ht.
  rewrite removeOutdatedEndpoints_run, outdated_filters. cbn [fst snd]. cbv zeta.
  set (stale := List.filter (fun e => negb (endpoint_in_use desired e)) recorded).
  set (detached := List.filter _ recorded) in *.
  destruct (removeResources remote fuel apiId stale w) as [[r1|e|] w1 t1];
    cbn [outcome final trace]; [|done..].
  destruct (removeMethods remote apiId stale w1) as [[r2|e|] w2 t2];
    cbn [outcome final trace]; [|done..].
  pose proof (removeAuthorizers_sends remote apiId detached w2 endpoint Hin Ht) as Hsent.
  pose proof (fun l => removeAuthorizers_detaches remote apiId detached l w2) as Hdone.
  destruct (removeAuthorizers remote apiId detached w2) as [[r3|e|] w3 t3];
    cbn [outcome final trace] in *.
  - split.
    + intros _ _ _ _. rewrite !calls_app. apply elem_of_app. right. apply elem_of_app. by right.
    + intros removed [= <-]. split; [done|].
      destruct (Hdone r3 eq_refl) as (_ & Hall).
      destruct (Hall endpoint Hin Ht) as (v & v' & Hv & Hv').
      exists v, v'. rewrite !elem_of_app. auto.
  - split; [|done].
    intros _ _ _ _. rewrite !calls_app. apply elem_of_app. right. apply elem_of_app. by right.
  - split; [|done].
    intros _ _ _ _. rewrite !calls_app. apply elem_of_app. right. apply elem_of_app. by right.
Qed.

Lemma removeOutdatedEndpoints_detaches_witness :
  let kept := Sample.recorded "GET" "/items" "items" "auth1" in
  let desired := [Sample.recorded "GET" "/items" "items" "auth2"] in
  let run := removeOutdatedEndpoints Gateway.react 3 "api" desired [kept] Sample.api in
  updateMethod (PStr "GET") (PStr "items") "api" [replaceAuthorizationType "NONE"]
  ∈ calls (trace run)
  /\ exists v v',
       EvCall (updateMethod (PStr "GET") (PStr "items") "api" [replaceAuthorizationType "NONE"])
         (inr v) ∈ trace run
       /\ EvCall (deleteAuthorizer "api" (PStr "auth1")) (inr v') ∈ trace run.
Proof.
  cbv zeta.
  destruct (removeOutdatedEndpoints_detaches Gateway.react 3 "api"
              [Sample.recorded "GET" "/items" "items" "auth2"]
              [Sample.recorded "GET" "/items" "items" "auth1"] Sample.api)
    as (_ & _ & Hdetach).
  destruct (Hdetach (Sample.recorded "GET" "/items" "items" "auth1")) as [Hsent Hdone].
  - by_evaluation.
  - by_evaluation.
  - split.
    + apply (Hsent [] []); by_evaluation.
    + destruct (Hdone []) as [_ Hboth]; [by_evaluation | exact Hboth].
Defined.
